(** * sift: the value protocol, the filter combinators and the jq evaluator

    A shallow embedding of [go.jayconrod.com/sift] (value.go, filter.go) and
    of its jq front end (filter/jq: filter.go, parser.go, scanner.go).

    Go data is modelled as follows.
    - [float64] is Rocq's primitive binary64 [float]; [==] on floats is
      [PrimFloat.eqb], so NaN differs from itself and [+0 == -0].
    - [int] is a [Z]; every [int] computed below stays inside 64 bits.
    - [string] is a [string] of 8-bit characters (Go strings are byte
      sequences, and [<] on them is the byte-wise lexicographic order).
    - [map[string]T] is an association list with at most one useful entry
      per key: lookup returns the first match, assignment overwrites it.
    - [[]Value] is a [list (option Value)]; [None] is the nil interface,
      which [indexType.Index] reports as a hole.
    - a function returning [(T, error)] returns a [result T]; a Go panic
      that nothing recovers is the third constructor, [Panic]. *)

From Stdlib Require Import ZArith List String Ascii Bool Lia Floats.
From Stdlib Require Import Sorted Permutation.
Import ListNotations.

#[local] Set Warnings "-register-all,-inexact-float".

Local Open Scope string_scope.
Local Open Scope list_scope.
Local Open Scope Z_scope.

(** ** Results, errors and panics *)

Module Go.

(** The values that [fmt.Errorf] interpolates are kept as data; the
    rendering of the message is not modelled. *)
Inductive result (E P A : Type) : Type :=
| Ok (a : A)
| Error (e : E)
| Panic (p : P).

Arguments Ok {E P A} a.
Arguments Error {E P A} e.
Arguments Panic {E P A} p.

Definition bind {E P A B} (r : result E P A) (k : A -> result E P B)
  : result E P B :=
  match r with
  | Ok a => k a
  | Error e => Error e
  | Panic p => Panic p
  end.

(** [map[string]V] *)
Definition gomap (V : Type) : Type := list (string * V).

Fixpoint map_get {V} (m : gomap V) (k : string) : option V :=
  match m with
  | [] => None
  | (k', v) :: m' => if String.eqb k' k then Some v else map_get m' k
  end.

Fixpoint map_set {V} (m : gomap V) (k : string) (v : V) : gomap V :=
  match m with
  | [] => [(k, v)]
  | (k', v') :: m' =>
      if String.eqb k' k then (k, v) :: m' else (k', v') :: map_set m' k v
  end.

(** [sort.Slice(keys, func(i, j) bool { return keys[i] < keys[j] })]: the
    keys of a map are pairwise distinct, so the sorted slice does not depend
    on the sorting algorithm; insertion sort stands for it. *)
Fixpoint insert_key (k : string) (ks : list string) : list string :=
  match ks with
  | [] => [k]
  | k' :: ks' => if String.leb k k' then k :: ks else k' :: insert_key k ks'
  end.

Fixpoint sort_keys (ks : list string) : list string :=
  match ks with
  | [] => []
  | k :: ks' => insert_key k (sort_keys ks')
  end.

(** The keys of a map, each once: [for key := range a]. *)
Fixpoint map_keys {V} (m : gomap V) : list string :=
  match m with
  | [] => []
  | (k, _) :: m' =>
      k :: filter (fun k' => negb (String.eqb k k')) (map_keys m')
  end.

(** [len(s)] as an [int]. *)
Definition len {A} (l : list A) : Z := Z.of_nat (List.length l).

(** [for i := lo; i < hi; i++]: the indices the loop visits. *)
Definition range (lo hi : Z) : list Z :=
  map (fun k => lo + Z.of_nat k) (seq 0 (Z.to_nat (hi - lo))).

End Go.

Import Go.

(** ** value.go *)

Module Sift.

(** The in-memory variants of value.go: [nullType], [boolType],
    [float64Type], [stringType], [attrType] and [indexType]. *)
Inductive Value : Type :=
| nullType
| boolType (b : bool)
| float64Type (f : float)
| stringType (s : string)
| attrType (a : gomap Value)
| indexType (ix : list (option Value)).

(** What a caller may hand to [ToValue(v interface{})]: the dynamic types
    the type switch distinguishes among those the package and its callers
    pass.  The integer kinds, and the types other than [map[string]Value]
    that reach [default], are left out: nothing here speaks about
    [ToValue] on them. *)
Inductive GoAny : Type :=
| AnyNil
| AnyValue (v : Value)
| AnyBool (b : bool)
| AnyFloat64 (f : float)
| AnyString (s : string)
| AnyMapAny (m : gomap GoAny)          (* map[string]interface{} *)
| AnySliceAny (l : list GoAny)         (* []interface{} *)
| AnySliceValue (l : list (option Value))  (* []Value *)
| AnyMapValue (m : gomap Value).       (* map[string]Value *)

Inductive error : Type :=
| ErrCannotRepresent (v : GoAny)
| ErrCannotIndexArray (idx : Value)
| ErrCannotIndexValue (base idx : Value)
| ErrCannotSlice (base : Value)
| ErrIndexMustBeNumber
| ErrCannotIterate (v : Value)
| ErrObjectKey (key : Value)
| ErrCannotNegate (v : Value)
| ErrNumericOperand (v : Value)
| ErrNumericOperands (x y : Value)
| ErrConcatString (y : Value)
| ErrConcatArray (y : Value)
| ErrConcatObject (y : Value)
| ErrNonStringKey (key : Value)
| ErrSubtractFromList (y : Value)
| EOF                                  (* io.EOF *)
| ErrExternal (id : nat).              (* an error of a Decoder or Encoder *)

Inductive panic : Type :=
| PanicError (e : error)               (* Must: panic(err) *)
| PanicMakeslice                       (* makeslice: cap out of range *)
| PanicSliceBounds                     (* slice bounds out of range *)
| PanicUnexpectedValue (v : Value)
| PanicOddOperands                     (* constructObject *)
| PanicNilFilter.                      (* call of a nil func value *)

Definition res : Type -> Type := result error panic.

(** *** Methods of the variants *)

Definition Truth (v : Value) : bool :=
  match v with
  | nullType => false
  | boolType b => b
  | float64Type f => negb (PrimFloat.eqb f 0%float)
  | stringType s => negb (String.eqb s "")
  | attrType _ => true
  | indexType _ => true
  end.

(** [attrType.Keys] *)
Definition Keys {V} (a : gomap V) : list Value :=
  map stringType (sort_keys (map_keys a)).

(** [indexType.Length] *)
Definition IndexLength {V} (ix : list (option V)) : Z := len ix.

(** [indexType.Index]: out of range and nil slots are both "no value". *)
Definition Index {V} (ix : list (option V)) (i : Z) : option V :=
  if (i <? 0) || (i >=? len ix) then None
  else match nth_error ix (Z.to_nat i) with
       | Some (Some v) => Some v
       | _ => None
       end.

(** *** Package functions *)

Definition IsNull (v : Value) : bool :=
  match v with nullType => true | _ => false end.

Definition AsBool (v : Value) : option bool :=
  match v with boolType b => Some (Truth v) | _ => None end.

Definition AsFloat64 (v : Value) : option float :=
  match v with float64Type f => Some f | _ => None end.

Definition AsString (v : Value) : option string :=
  match v with stringType s => Some s | _ => None end.

(** [attrType.Attr] *)
Definition Attr {V} (a : gomap V) (key : Value) : option V :=
  match AsString key with
  | None => None
  | Some name => map_get a name
  end.

Definition GetAttr (v key : Value) : option Value :=
  match v with
  | attrType a => Attr a key
  | _ => None
  end.

Definition GetStringAttr (v : Value) (name : string) : option Value :=
  let key := stringType name in
  GetAttr v key.

(** [Length]: an Index, or else a string. *)
Definition Length (v : Value) : option Z :=
  match v with
  | indexType ix => Some (IndexLength ix)
  | _ => match AsString v with
         | Some s => Some (Z.of_nat (String.length s))
         | None => None
         end
  end.

Definition GetIntIndex (v : Value) (i : Z) : option Value :=
  match v with
  | indexType ix => Index ix i
  | _ => None
  end.

(** [Equal].  The recursive calls are on values obtained from [l] through
    [la.Attr(lkey)] and [li.Index(i)]; the closure [Equal lvalue] is
    attached to each entry of [l] first, and the loops then look it up
    the way the source looks up the value (see [Equal_attr] and
    [Equal_index] below for the loops in the source's shape). *)
Definition equal_attr_loop (E : Value -> Value -> bool)
    (la : gomap (Value -> bool)) (ra : gomap Value) :=
  fix loop (lkeys rkeys : list Value) {struct lkeys} : bool :=
    match lkeys with
    | [] => true
    | lkey :: lkeys' =>
        match rkeys with
        | [] => false
        | rkey :: rkeys' =>
            if negb (E lkey rkey) then false
            else match Attr la lkey with
                 | None => false
                 | Some lvalue_eq =>
                     match Attr ra rkey with
                     | None => false
                     | Some rvalue =>
                         if negb (lvalue_eq rvalue) then false
                         else loop lkeys' rkeys'
                     end
                 end
        end
    end.

Definition equal_index_loop
    (li : list (option (Value -> bool))) (ri : list (option Value))
    (idxs : list Z) : bool :=
  forallb
    (fun i =>
       match Index li i, Index ri i with
       | Some le_eq, Some re => le_eq re
       | None, None => true
       | _, _ => false
       end) idxs.

Definition equal_key (l r : Value) : bool :=
  match l, r with
  | stringType ls, stringType rs => String.eqb ls rs
  | _, _ => false
  end.

Fixpoint Equal (l r : Value) {struct l} : bool :=
  match l with
  | nullType => IsNull r
  | boolType lb =>
      match r with
      | boolType rb => Bool.eqb (Truth l) (Truth r)
      | _ => false
      end
  | float64Type lf =>
      match r with
      | float64Type rf => PrimFloat.eqb lf rf
      | _ => false
      end
  | stringType ls =>
      match r with
      | stringType rs => String.eqb ls rs
      | _ => false
      end
  | attrType la =>
      match r with
      | attrType ra =>
          let lkeys := Keys la in
          let rkeys := Keys ra in
          if negb (len lkeys =? len rkeys) then false
          else equal_attr_loop equal_key
                 (map (fun '(k, v) => (k, Equal v)) la) ra lkeys rkeys
      | _ => false
      end
  | indexType li =>
      match r with
      | indexType ri =>
          let ln := IndexLength li in
          let rn := IndexLength ri in
          if negb (ln =? rn) then false
          else equal_index_loop
                 (map (fun o => match o with
                                | Some v => Some (Equal v)
                                | None => None
                                end) li) ri (range 0 ln)
      | _ => false
      end
  end.

End Sift.

Module SiftFilter.
Import Sift.

(** *** ToValue and Must *)

Definition NullValue : Value := nullType.

(** [ToValue].  A [map[string]interface{}] is converted
    entry by entry; the order in which Go ranges over the map only decides
    which error is reported when several entries fail.  There is no case
    for [map[string]Value]: it reaches [default]. *)
Fixpoint ToValue (v : GoAny) : res Value :=
  match v with
  | AnyValue v => Ok v
  | AnyNil => Ok NullValue
  | AnyBool b => Ok (boolType b)
  | AnyFloat64 f => Ok (float64Type f)
  | AnyString s => Ok (stringType s)
  | AnyMapAny m =>
      let conv :=
        fix conv (m : gomap GoAny) (vm : gomap Value) : res (gomap Value) :=
          match m with
          | [] => Ok vm
          | (k, v) :: m' =>
              match ToValue v with
              | Ok value => conv m' (map_set vm k value)
              | Error e => Error e
              | Panic p => Panic p
              end
          end in
      bind (conv m []) (fun vm => Ok (attrType vm))
  | AnySliceAny l =>
      let conv :=
        fix conv (l : list GoAny) : res (list (option Value)) :=
          match l with
          | [] => Ok []
          | e :: l' =>
              match ToValue e with
              | Ok v => bind (conv l') (fun ix => Ok (Some v :: ix))
              | Error e => Error e
              | Panic p => Panic p
              end
          end in
      bind (conv l) (fun ix => Ok (indexType ix))
  | AnySliceValue l => Ok (indexType l)
  | AnyMapValue _ => Error (ErrCannotRepresent v)
  end.

Definition Must (r : res Value) : res Value :=
  match r with
  | Ok v => Ok v
  | Error err => Panic (PanicError err)
  | Panic p => Panic p
  end.

(** ** filter.go *)

Definition Filter : Type := Value -> res (list Value).

(** [for _, a := range l { ... }] over a loop state [s], where the body may
    return early with an error. *)
Fixpoint for_each {A S} (l : list A) (s : S) (body : A -> S -> res S)
  : res S :=
  match l with
  | [] => Ok s
  | a :: l' => bind (body a s) (fun s' => for_each l' s' body)
  end.

Definition Literal (v : Value) : Filter :=
  let s := [v] in
  fun _ => Ok s.

Definition Map (f : Value -> Value) : Filter :=
  fun vin =>
    let vout := f vin in
    Ok [vout].

Definition FlatMap (f : Value -> list Value) : Filter :=
  fun vin => Ok (f vin).

Definition Compose (f g : Filter) : Filter :=
  fun v =>
    bind (f v) (fun vfs =>
    for_each vfs [] (fun vf vout =>
      bind (g vf) (fun vg =>
      Ok (vout ++ vg)))).

Definition Binary (x y : Filter) (op : Value -> Value -> res (list Value))
  : Filter :=
  fun v =>
    bind (x v) (fun xvs =>
    bind (y v) (fun yvs =>
    for_each xvs [] (fun xv outs =>
      for_each yvs outs (fun yv outs =>
        bind (op xv yv) (fun opvs =>
        Ok (outs ++ opvs)))))).

Definition Ternary (x y z : Filter)
    (op : Value -> Value -> Value -> res (list Value)) : Filter :=
  fun v =>
    bind (x v) (fun xvs =>
    bind (y v) (fun yvs =>
    bind (z v) (fun zvs =>
    for_each xvs [] (fun xv outs =>
      for_each yvs outs (fun yv outs =>
        for_each zvs outs (fun zv outs =>
          bind (op xv yv zv) (fun opvs =>
          Ok (outs ++ opvs)))))))).

Definition Concat (x y : Filter) : Filter :=
  fun v =>
    bind (x v) (fun xvs =>
    bind (y v) (fun yvs =>
    let outs := xvs in
    Ok (outs ++ yvs))).

(** *** The driver

    A [Decoder] and an [Encoder] act on the outside world [W] (the two
    streams); [Decode] returns a value or an error, [io.EOF] among them, and
    [Encode] returns an error or nil.  The loop of [Sift] has no bound of its
    own: [fuel] counts the calls of [Decode], and [None] means that the
    loop is still running when they are used up. *)
(** How a call of [Sift] ends: it returns an [error] (nil is [None]), or a
    panic unwinds through it. *)
Inductive outcome : Type :=
| Returned (err : option error)
| Panicked (p : panic).

Section Driver.

Variable W : Type.
Variable Decode : W -> res Value * W.
Variable Encode : Value -> W -> option error * W.

(** [for _, vout := range vouts { if err := enc.Encode(vout); ... }] *)
Fixpoint encode_all (vouts : list Value) (w : W) : option error * W :=
  match vouts with
  | [] => (None, w)
  | vout :: vouts' =>
      match Encode vout w with
      | (Some err, w') => (Some err, w')
      | (None, w') => encode_all vouts' w'
      end
  end.

Fixpoint Sift (fuel : nat) (f : Filter) (w : W) : option outcome * W :=
  match fuel with
  | O => (None, w)
  | S fuel' =>
      match Decode w with
      | (Error EOF, w1) => (Some (Returned None), w1)
      | (Error err, w1) => (Some (Returned (Some err)), w1)
      | (Panic p, w1) => (Some (Panicked p), w1)
      | (Ok vin, w1) =>
          match f vin with
          | Error err => (Some (Returned (Some err)), w1)
          | Panic p => (Some (Panicked p), w1)
          | Ok vouts =>
              match encode_all vouts w1 with
              | (Some err, w2) => (Some (Returned (Some err)), w2)
              | (None, w2) => Sift fuel' f w2
              end
          end
      end
  end.

End Driver.

End SiftFilter.

(** ** Conversions between [float64] and [int] *)

Module GoFloat.

(** [math.MaxFloat64] *)
Definition MaxFloat64 : float := 0x1.fffffffffffffp+1023%float.

(** The integer part of a finite float (rounding toward zero). *)
Definition truncate (f : float) : option Z :=
  match Prim2SF f with
  | S754_zero _ => Some 0
  | S754_finite s m e =>
      let a := if 0 <=? e then Z.shiftl (Zpos m) e
               else Z.shiftr (Zpos m) (- e) in
      Some (if s then - a else a)
  | S754_infinity _ => None
  | S754_nan => None
  end.

Definition is_int64 (z : Z) : bool :=
  (- 2 ^ 63 <=? z) && (z <? 2 ^ 63).

Definition wrap64 (z : Z) : Z := (z + 2 ^ 63) mod 2 ^ 64 - 2 ^ 63.

(** [float64(i)] for an [int] [i]: the nearest binary64, ties to even. *)
Definition float64_of_int (i : Z) : float :=
  SF2Prim (binary_normalize prec emax i 0 false).

Section Conversion.

(** What [int(f)] yields when [f] is NaN, infinite or outside the range of
    [int]: the Go specification leaves it to the implementation. *)
Variable int_indefinite : float -> Z.

(** [int(f)] *)
Definition int_of_float64 (f : float) : Z :=
  match truncate f with
  | Some z => if is_int64 z then z else wrap64 (int_indefinite f)
  | None => wrap64 (int_indefinite f)
  end.

End Conversion.

End GoFloat.

(** ** filter/jq/filter.go *)

Module Jq.
Import Sift SiftFilter GoFloat.

Definition id : Filter := fun v => Ok [v].

Definition attrLit (lit : string) (required : bool) : Filter :=
  fun v =>
    match GetStringAttr v lit with
    | None =>
        if required then
          bind (Must (ToValue AnyNil)) (fun null => Ok [null])
        else Ok []
    | Some value => Ok [value]
    end.

Section Evaluator.

Variable int_indefinite : float -> Z.

Definition index (base idx : Value) : res (list Value) :=
  match base with
  | indexType ix =>
      let n := IndexLength ix in
      match AsFloat64 idx with
      | None => Error (ErrCannotIndexArray idx)
      | Some f =>
          let i := int_of_float64 int_indefinite f in
          if negb (PrimFloat.eqb f (float64_of_int i)) then Ok []
          else
            let i := if i <? 0 then i + n else i in
            bind (match Index ix i with
                  | Some v => Ok v
                  | None => Must (ToValue AnyNil)
                  end) (fun v =>
            Ok [v])
      end
  | attrType a =>
      bind (match Attr a idx with
            | Some v => Ok v
            | None => Must (ToValue AnyNil)
            end) (fun v =>
      Ok [v])
  | _ =>
      if negb (IsNull base) then Error (ErrCannotIndexValue base idx)
      else bind (Must (ToValue AnyNil)) (fun v => Ok [v])
  end.

Definition clampIndex (idx : Value) (n : Z) : res Z :=
  match AsFloat64 idx with
  | None => Error ErrIndexMustBeNumber
  | Some f =>
      let i := int_of_float64 int_indefinite f in
      let i := if i <? 0 then i + n else i in
      let i := if i <? 0 then 0 else i in
      let i := if i >? n then n else i in
      Ok i
  end.

(** [begin] and [end] are nil ([None]) when the bound is omitted. *)
Definition slice (base : Value) (begin end_ : option Value)
  : res (list Value) :=
  if IsNull base then Ok [NullValue]
  else
    match Length base with
    | None => Error (ErrCannotSlice base)
    | Some n =>
        bind (match begin with
              | None => Ok 0
              | Some b => clampIndex b n
              end) (fun beginI =>
        bind (match end_ with
              | None => Ok n
              | Some e => clampIndex e n
              end) (fun endI =>
        match base with
        | indexType baseIndex =>
            (* make([]sift.Value, 0, endI-beginI) *)
            if endI - beginI <? 0 then Panic PanicMakeslice
            else
              bind (for_each (range beginI endI) [] (fun i elems =>
                      match Index baseIndex i with
                      | Some elem => Ok (elems ++ [Some elem])
                      | None => Ok elems
                      end)) (fun elems =>
              bind (Must (ToValue (AnySliceValue elems))) (fun list =>
              Ok [list]))
        | _ =>
            match AsString base with
            | Some baseString =>
                (* baseString[beginI:endI] *)
                if endI <? beginI then Panic PanicSliceBounds
                else
                  let sub := substring (Z.to_nat beginI)
                               (Z.to_nat (endI - beginI)) baseString in
                  bind (Must (ToValue (AnyString sub))) (fun sub =>
                  Ok [sub])
            | None => Panic (PanicUnexpectedValue base)
            end
        end))
    end.

End Evaluator.

Definition iterate (v : Value) : res (list Value) :=
  match v with
  | indexType idx =>
      let n := IndexLength idx in
      for_each (range 0 n) [] (fun i elems =>
        bind (match Index idx i with
              | Some elem => Ok elem
              | None => Must (ToValue AnyNil)
              end) (fun elem =>
        Ok (elems ++ [elem])))
  | _ => Error (ErrCannotIterate v)
  end.

Definition iterateOpt (v : Value) : res (list Value) :=
  match v with
  | indexType _ => iterate v
  | _ => Ok []
  end.

Fixpoint constructObject_loop (attrs : list Value) (m : gomap Value)
  : res (gomap Value) :=
  match attrs with
  | key :: value :: attrs' =>
      match AsString key with
      | None => Error (ErrObjectKey key)
      | Some key => constructObject_loop attrs' (map_set m key value)
      end
  | _ => Ok m
  end.

Definition constructObject (attrs : list Value) : res (list Value) :=
  if negb (Nat.even (List.length attrs)) then Panic PanicOddOperands
  else
    bind (constructObject_loop attrs []) (fun m =>
    bind (Must (ToValue (AnyMapValue m))) (fun out =>
    Ok [out])).

Definition neg (v : Value) : res Value :=
  match AsFloat64 v with
  | None => Error (ErrCannotNegate v)
  | Some n => Must (ToValue (AnyFloat64 (- n)%float))
  end.

(** [for xi := 0; xi < xlen; xi++ { elem, ok := xl.Index(xi); if ok { outs =
    append(outs, elem) } }] *)
Definition append_present (xl outs : list (option Value))
  : list (option Value) :=
  fold_left (fun outs xi =>
    match Index xl xi with
    | Some elem => outs ++ [Some elem]
    | None => outs
    end) (range 0 (IndexLength xl)) outs.

(** One of the two loops of [add] over the keys of an object. *)
Definition merge_keys (a : gomap Value) (out : gomap Value)
  : res (gomap Value) :=
  for_each (Keys a) out (fun key out =>
    match AsString key with
    | None => Error (ErrNonStringKey key)
    | Some keyStr =>
        match Attr a key with
        | Some value => Ok (map_set out keyStr value)
        | None => Ok out
        end
    end).

Definition add (x y : Value) : res Value :=
  match AsFloat64 x with
  | Some xn =>
      match AsFloat64 y with
      | None => Error (ErrNumericOperand y)
      | Some yn => Must (ToValue (AnyFloat64 (xn + yn)%float))
      end
  | None =>
  match AsString x with
  | Some xs =>
      match AsString y with
      | None => Error (ErrConcatString y)
      | Some ys => Must (ToValue (AnyString (xs ++ ys)))
      end
  | None =>
  match x with
  | indexType xl =>
      match y with
      | indexType yl =>
          let outs := [] in
          let outs := append_present xl outs in
          let outs := append_present yl outs in
          Must (ToValue (AnySliceValue outs))
      | _ => Error (ErrConcatArray y)
      end
  | attrType xa =>
      match y with
      | attrType ya =>
          let out := [] in
          bind (merge_keys ya out) (fun out =>
          bind (merge_keys xa out) (fun out =>
          Must (ToValue (AnyMapValue out))))
      | _ => Error (ErrConcatObject y)
      end
  | _ => Error (ErrNumericOperands x y)
  end end end.

Definition sub (x y : Value) : res Value :=
  match AsFloat64 x with
  | Some xn =>
      match AsFloat64 y with
      | None => Error (ErrNumericOperand y)
      | Some yn => Must (ToValue (AnyFloat64 (xn - yn)%float))
      end
  | None =>
  match x with
  | indexType xl =>
      match y with
      | indexType yl =>
          let xlen := IndexLength xl in
          let ylen := IndexLength yl in
          let outs :=
            fold_left (fun outs xi =>
              match Index xl xi with
              | None => outs
              | Some xelem =>
                  if existsb (fun yi =>
                       match Index yl yi with
                       | None => false
                       | Some yelem => Equal xelem yelem
                       end) (range 0 ylen)
                  then outs                       (* continue Outer *)
                  else outs ++ [Some xelem]
              end) (range 0 xlen) [] in
          Must (ToValue (AnySliceValue outs))
      | _ => Error (ErrSubtractFromList y)
      end
  | _ => Error (ErrNumericOperands x y)
  end end.

Definition binop (op : Value -> Value -> res Value) (xf yf : Filter)
  : Filter :=
  Binary xf yf (fun x y =>
    bind (op x y) (fun v =>
    Ok [v])).

Definition numOp (op : float -> float -> float) (x y : Filter) : Filter :=
  Binary x y (fun xv yv =>
    match AsFloat64 xv with
    | None => Error (ErrNumericOperand xv)
    | Some xn =>
        match AsFloat64 yv with
        | None => Error (ErrNumericOperand yv)
        | Some yn =>
            bind (Must (ToValue (AnyFloat64 (op xn yn)))) (fun v =>
            Ok [v])
        end
    end).

(** [walk]: [visit v] is what one call of the closure [visit] appends to
    [outs].  As in [Equal], the recursive result is attached to each entry
    before the loops look it up with [Attr] and [Index]. *)
Fixpoint visit (v : Value) : list Value :=
  v ::
  (match v with
   | attrType attr =>
       let below := map (fun '(k, value) => (k, visit value)) attr in
       flat_map (fun key =>
         match Attr below key with
         | Some outs => outs
         | None => []
         end) (Keys attr)
   | _ => []
   end) ++
  (match v with
   | indexType index =>
       let n := IndexLength index in
       let below := map (fun o => match o with
                                  | Some value => Some (visit value)
                                  | None => None
                                  end) index in
       flat_map (fun i =>
         match Index below i with
         | Some outs => outs
         | None => []
         end) (range 0 n)
   | _ => []
   end).

Definition walk : Filter := fun v => Ok (visit v).

End Jq.

(** ** filter/jq/scanner.go *)

Module Scanner.

Inductive token : Type :=
| illegal | eof | dot | dotDot | comma | questionMark | colon | pipe
| star | slash | percent | plus | minus
| leftBracket | rightBracket | leftBrace | rightBrace
| leftParen | rightParen
| null | true_ | false_ | identifier | number | str.

Definition token_eqb (a b : token) : bool :=
  match a, b with
  | illegal, illegal | eof, eof | dot, dot | dotDot, dotDot
  | comma, comma | questionMark, questionMark | colon, colon | pipe, pipe
  | star, star | slash, slash | percent, percent | plus, plus
  | minus, minus | leftBracket, leftBracket | rightBracket, rightBracket
  | leftBrace, leftBrace | rightBrace, rightBrace
  | leftParen, leftParen | rightParen, rightParen
  | null, null | true_, true_ | false_, false_
  | identifier, identifier | number, number | str, str => true
  | _, _ => false
  end.

(** The messages of [scanner.panicf] and [parser.panicf]. *)
Inductive message : Type :=
| IllegalCharacter (ch : Z)
| InvalidNumber
| NotAString (ch : Z)
| StringNotTerminated
| InvalidEscapeChar (ch : Z)
| InvalidEscape
| NotAComment (ch : Z)
| IllegalNUL
| IllegalUTF8
| IllegalByteOrderMark
| JunkAtEndOfFile
| InvalidNumberLiteral (lit : string)
| ExpectedExpression (tok : token)
| ExpectedToken (want got : token)
| ExpectedSelector (got : token)
| ExpectedCommaOr (close got : token)
| ExpectedAttributeName (got : token).

(** What the front end returns: a value, or the [scanError] or
    [parseError] that it raises with [panic] and that [Compile] recovers
    (the position is kept as a byte offset; the line table of the file is
    not modelled), or a run-time error of Go.  [OutOfFuel] is not a
    behaviour of the code: it says that the bound given to the model was too
    small. *)
Inductive front (A : Type) : Type :=
| Done (a : A)
| Raise (offset : Z) (msg : message)
| RuntimeError
| OutOfFuel.

Arguments Done {A} a.
Arguments Raise {A} offset msg.
Arguments RuntimeError {A}.
Arguments OutOfFuel {A}.

Definition fbind {A B} (r : front A) (k : A -> front B) : front B :=
  match r with
  | Done a => k a
  | Raise offset msg => Raise offset msg
  | RuntimeError => RuntimeError
  | OutOfFuel => OutOfFuel
  end.

Notation "x <- c ;; k" := (fbind c (fun x => k))
  (at level 61, c at next level, right associativity).
Notation "' p <- c ;; k" := (fbind c (fun p => k))
  (at level 61, p pattern, c at next level, right associativity).

(** A rune or a byte, as a number. *)
Definition rune (c : ascii) : Z := Z.of_N (N_of_ascii c).

Definition ascii_of_byte (b : Z) : ascii := ascii_of_N (Z.to_N b).

Fixpoint string_of_bytes (bs : list Z) : string :=
  match bs with
  | [] => EmptyString
  | b :: bs' => String (ascii_of_byte b) (string_of_bytes bs')
  end.

Record scanner : Type := {
  src : string;
  ch : Z;
  offset : Z;   (* offset of ch *)
  rdOffset : Z  (* offset of character after ch *)
}.

Definition srclen (s : scanner) : Z := Z.of_nat (String.length (src s)).

(** The scanner on the character [c] at offset [o], the next one at [r]. *)
Definition at_offset (source : string) (c o r : Z) : scanner :=
  {| src := source; ch := c; offset := o; rdOffset := r |}.

(** [s.src[i]] *)
Definition byte_at (s : scanner) (i : Z) : Z :=
  match String.get (Z.to_nat i) (src s) with
  | Some c => rune c
  | None => 0
  end.

(** [string(s.src[begin:s.offset])] *)
Definition text_from (s : scanner) (begin : Z) : string :=
  substring (Z.to_nat begin) (Z.to_nat (offset s - begin)) (src s).

(** The double quote, U+0022. *)
Definition double_quote : Z := 34.

Definition bom : Z := 0xFEFF.
Definition RuneSelf : Z := 0x80.
Definition RuneError : Z := 0xFFFD.

Definition between (lo : ascii) (c : Z) (hi : ascii) : bool :=
  (rune lo <=? c) && (c <=? rune hi).

Definition hexDigit (c : Z) : option Z :=
  if between "0" c "9" then Some (c - rune "0" + 0)
  else if between "A" c "F" then Some (c - rune "A" + 10)
  else if between "a" c "f" then Some (c - rune "a" + 10)
  else None.

Section Scan.

(** Go's [unicode] and [utf8] packages above U+007F: the tables of letters
    and digits, the decoding of a multi-byte sequence and the encoding of a
    rune. *)
Variable IsLetter_above_ascii : Z -> bool.
Variable IsDigit_above_ascii : Z -> bool.
Variable DecodeRune : string -> Z * Z.
Variable EncodeRune : Z -> list Z.

(** [unicode.IsLetter] and [unicode.IsDigit]; no table holds a negative
    rune. *)
Definition unicode_IsLetter (c : Z) : bool :=
  if c <? 0 then false
  else if c <? RuneSelf then between "a" c "z" || between "A" c "Z"
  else IsLetter_above_ascii c.

Definition unicode_IsDigit (c : Z) : bool :=
  if c <? 0 then false
  else if c <? RuneSelf then between "0" c "9"
  else IsDigit_above_ascii c.

Definition isLetter (c : Z) : bool :=
  between "a" c "z" || between "A" c "Z" || unicode_IsLetter c.

Definition isDigit (c : Z) : bool :=
  between "0" c "9" || unicode_IsDigit c.

(** [bytes.Buffer.WriteRune] *)
Definition WriteRune (buf : list Z) (r : Z) : list Z :=
  if (0 <=? r) && (r <? RuneSelf) then buf ++ [r] else buf ++ EncodeRune r.

(** [next] reads the next character into [s.ch]; [s.ch < 0] means EOF. *)
Definition next (s : scanner) : front scanner :=
  if rdOffset s <? srclen s then
    let offset := rdOffset s in
    let r := byte_at s (rdOffset s) in
    if r =? 0 then Raise offset IllegalNUL
    else if r >=? RuneSelf then
      let (r, w) := DecodeRune (substring (Z.to_nat (rdOffset s))
                                  (String.length (src s)) (src s)) in
      if (r =? RuneError) && (w =? 1) then Raise offset IllegalUTF8
      else if (r =? bom) && (offset >? 0) then
        Raise offset IllegalByteOrderMark
      else
        Done {| src := src s; ch := r; offset := offset;
                rdOffset := rdOffset s + w |}
    else
      Done {| src := src s; ch := r; offset := offset;
              rdOffset := rdOffset s + 1 |}
  else
    Done {| src := src s; ch := -1; offset := srclen s;
            rdOffset := rdOffset s |}.

Definition newScanner (source : string) : front scanner :=
  let s := {| src := source; ch := rune " "; offset := 0; rdOffset := 0 |} in
  s <- next s ;;
  if ch s =? bom then next s else Done s.

(** [for cond(s.ch) { s.next() }]; [any] records that the loop ran. *)
Fixpoint skip_while (fuel : nat) (cond : Z -> bool) (any : bool)
    (s : scanner) : front (bool * scanner) :=
  if cond (ch s) then
    match fuel with
    | O => OutOfFuel
    | S fuel' =>
        s <- next s ;;
        skip_while fuel' cond true s
    end
  else Done (any, s).

Definition is_space (c : Z) : bool :=
  (c =? rune " ") || (c =? 9) || (c =? 10) || (c =? 13).

Definition skipWhitespace (fuel : nat) (s : scanner) : front scanner :=
  '(_, s) <- skip_while fuel is_space false s ;;
  Done s.

Definition skipComment (fuel : nat) (s : scanner) : front scanner :=
  if negb (ch s =? rune "#") then Raise (offset s) (NotAComment (ch s))
  else
    '(_, s) <- skip_while fuel
                 (fun c => negb (c =? 10) && negb (c =? -1)) false s ;;
    Done s.

Definition scanIdentifier (fuel : nat) (s : scanner)
  : front (string * scanner) :=
  let begin := offset s in
  '(_, s) <- skip_while fuel
               (fun c => isLetter c || isDigit c || (c =? rune "_"))
               false s ;;
  Done (text_from s begin, s).

Definition is_decimal (c : Z) : bool := between "0" c "9".

Definition scanNumber (fuel : nat) (s : scanner)
  : front (string * scanner) :=
  let begin := offset s in
  '(haveInteger, s) <- skip_while fuel is_decimal false s ;;
  let haveBase := haveInteger in
  '(haveBase, s) <-
    (if ch s =? rune "." then
       s <- next s ;;
       '(haveFraction, s) <- skip_while fuel is_decimal false s ;;
       if negb haveInteger && negb haveFraction then
         Raise begin InvalidNumber
       else Done (true, s)
     else Done (haveBase, s)) ;;
  s <-
    (if (ch s =? rune "e") || (ch s =? rune "E") then
       if negb haveBase then Raise begin InvalidNumber
       else
         s <- next s ;;
         s <- (if (ch s =? rune "+") || (ch s =? rune "-") then next s
               else Done s) ;;
         '(haveExponent, s) <- skip_while fuel is_decimal false s ;;
         if negb haveExponent then Raise begin InvalidNumber
         else Done s
     else Done s) ;;
  Done (text_from s begin, s).

(** The loop of [scanEscape] over at most [n] digits. *)
Fixpoint escape_digits (n : nat) (base max : Z) (exact : bool) (code : Z)
    (s : scanner) : front (Z * scanner) :=
  match n with
  | O => Done (code, s)
  | S n' =>
      match hexDigit (ch s) with
      | Some h =>
          if (h >=? base) || (code * base + h >? max) then
            if exact then Raise (offset s) InvalidEscape
            else Done (code, s)
          else
            s' <- next s ;;
            escape_digits n' base max exact (code * base + h) s'
      | None =>
          if exact then Raise (offset s) InvalidEscape
          else Done (code, s)
      end
  end.

Definition scanEscape (s : scanner) : front (Z * scanner) :=
  s <- next s ;;   (* consume backslash *)
  let c := ch s in
  let simple (r : Z) : front (Z * scanner) :=
    s <- next s ;;
    Done (r, s) in
  if (c =? rune "'") || (c =? double_quote) || (c =? rune "\") then simple c
  else if c =? rune "n" then simple 10
  else if c =? rune "r" then simple 13
  else if c =? rune "v" then simple 11
  else if c =? rune "t" then simple 9
  else if c =? rune "b" then simple 8
  else if c =? rune "f" then simple 12
  else if between "0" c "7" then
    escape_digits 3 8 0xFF false 0 s
  else if c =? rune "u" then
    s <- next s ;;
    escape_digits 4 16 0xFFFF true 0 s
  else if c =? rune "x" then
    s <- next s ;;
    escape_digits 2 16 0xFF true 0 s
  else Raise (offset s) (InvalidEscapeChar c).

(** The loop of [scanString] after the opening quote. *)
Fixpoint string_body (fuel : nat) (begin q : Z) (buf : list Z)
    (s : scanner) : front (list Z * scanner) :=
  match fuel with
  | O => OutOfFuel
  | S fuel' =>
      let c := ch s in
      if (c =? 10) || (c <? 0) then Raise begin StringNotTerminated
      else if c =? q then
        s <- next s ;;
        Done (buf, s)
      else if c =? rune "\" then
        '(r, s) <- scanEscape s ;;
        string_body fuel' begin q (WriteRune buf r) s
      else
        s' <- next s ;;
        string_body fuel' begin q (WriteRune buf c) s'
  end.

Definition scanString (fuel : nat) (s : scanner)
  : front (string * scanner) :=
  let begin := offset s in
  let q := ch s in
  if negb (q =? rune "'") && negb (q =? double_quote) then
    Raise (offset s) (NotAString (ch s))
  else
    s <- next s ;;
    '(buf, s) <- string_body fuel begin q [] s ;;
    Done (string_of_bytes buf, s).

(** The tokens of one character, after [s.next()]. *)
Definition punctuation (c : Z) : option token :=
  if c =? rune "," then Some comma
  else if c =? rune "?" then Some questionMark
  else if c =? rune ":" then Some colon
  else if c =? rune "|" then Some pipe
  else if c =? rune "*" then Some star
  else if c =? rune "/" then Some slash
  else if c =? rune "%" then Some percent
  else if c =? rune "-" then Some minus
  else if c =? rune "+" then Some plus
  else if c =? rune "[" then Some leftBracket
  else if c =? rune "]" then Some rightBracket
  else if c =? rune "{" then Some leftBrace
  else if c =? rune "}" then Some rightBrace
  else if c =? rune "(" then Some leftParen
  else if c =? rune ")" then Some rightParen
  else if c =? -1 then Some eof
  else None.

(** [scan]: the position, the token and its literal.  [fuel] bounds the
    loops over the source and the jumps to [Retry] after a comment. *)
Fixpoint scan (fuel : nat) (s : scanner)
  : front (Z * token * string * scanner) :=
  match fuel with
  | O => OutOfFuel
  | S fuel' =>
      s <- skipWhitespace fuel s ;;
      let pos := offset s in
      let c := ch s in
      if c =? rune "#" then
        s <- skipComment fuel s ;;
        scan fuel' s
      else if isLetter c || (c =? rune "_") then
        '(lit, s) <- scanIdentifier fuel s ;;
        let tok :=
          if String.eqb lit "null" then null
          else if String.eqb lit "true" then true_
          else if String.eqb lit "false" then false_
          else identifier in
        Done (pos, tok, lit, s)
      else if between "0" c "9" then
        '(lit, s) <- scanNumber fuel s ;;
        Done (pos, number, lit, s)
      else if (c =? rune "'") || (c =? double_quote) then
        '(lit, s) <- scanString fuel s ;;
        Done (pos, str, lit, s)
      else
        s <- next s ;;   (* always make progress *)
        if c =? rune "." then
          if between "0" (ch s) "9" then
            '(lit, s) <- scanNumber fuel s ;;
            Done (pos, number, String.append "." lit, s)
          else if ch s =? rune "." then
            s <- next s ;;
            Done (pos, dotDot, "", s)
          else Done (pos, dot, "", s)
        else
          match punctuation c with
          | Some tok => Done (pos, tok, "", s)
          | None => Raise pos (IllegalCharacter c)
          end
  end.

End Scan.

End Scanner.

(** ** Go's [strconv.ParseFloat]

    Library code of Go, not of the repository.  The parser below takes
    [ParseFloat] as a parameter; [Strconv.ParseFloat] is a reference model of
    it on the literals that [scanNumber] produces (digits, an optional
    fraction, an optional exponent), following its documentation: the
    nearest [float64], ties to even; [±Inf] and [ErrRange] when the
    magnitude is too large; [ErrSyntax] when the text is not a number. *)

Module Strconv.
Import Scanner.

(** [strconv.NumError.Err] *)
Inductive num_error : Type :=
| ErrRange
| ErrSyntax.

Fixpoint read_digits (s : string) (acc count : Z) : Z * Z * string :=
  match s with
  | String c s' =>
      if between "0" (rune c) "9" then
        read_digits s' (10 * acc + (rune c - rune "0")) (count + 1)
      else (acc, count, s)
  | EmptyString => (acc, count, s)
  end.

(** The mantissa [m] and the decimal exponent [e] of a literal: its value
    is [m * 10^e]. *)
Definition parse_decimal (lit : string) : option (Z * Z) :=
  let '(int, ni, rest) := read_digits lit 0 0 in
  let '(mant, nf, rest) :=
    match rest with
    | String "." rest' => read_digits rest' int 0
    | _ => (int, 0, rest)
    end in
  if ni + nf =? 0 then None
  else
    match rest with
    | EmptyString => Some (mant, - nf)
    | String c rest' =>
        if (rune c =? rune "e") || (rune c =? rune "E") then
          let '(negative, rest') :=
            match rest' with
            | String "+" r => (false, r)
            | String "-" r => (true, r)
            | _ => (false, rest')
            end in
          let '(e, ne, rest') := read_digits rest' 0 0 in
          if ne =? 0 then None
          else
            match rest' with
            | EmptyString => Some (mant, (if negative then - e else e) - nf)
            | _ => None
            end
        else None
    end.

(** [m * 10^e] rounded to binary64.  With [m >= 1] and [e > 310] the value
    is above [10^310], out of range whatever [m] is, and the power is not
    computed. *)
Definition round_decimal (m e : Z) : spec_float :=
  if m =? 0 then S754_zero false
  else if 310 <? e then S754_infinity false
  else if 0 <=? e then binary_normalize prec emax (m * 10 ^ e) 0 false
  else
    let '(q, e', l) := SFdiv_core_binary prec emax m 0 (10 ^ (- e)) 0 in
    binary_round_aux prec emax false q e' l.

Definition ParseFloat (lit : string) : float * option num_error :=
  match parse_decimal lit with
  | None => (0%float, Some ErrSyntax)
  | Some (m, e) =>
      match round_decimal m e with
      | S754_infinity _ => (infinity, Some ErrRange)
      | x => (SF2Prim x, None)
      end
  end.

End Strconv.

(** ** filter/jq/parser.go and jq.go *)

Module Parser.
Import Sift SiftFilter GoFloat Scanner Strconv.

Record parser : Type := {
  scanner_ : scanner;
  pos : Z;
  tok : token;
  lit : string;
  initScanErr : option (Z * message)
}.

(** One operator of a level: its token and how it combines two filters. *)
Definition binaryLevel : Type := list (token * (Filter -> Filter -> Filter)).

(** [p.lit[0]] *)
Definition first_byte (lit : string) : option Z :=
  match lit with
  | EmptyString => None
  | String c _ => Some (rune c)
  end.

(** [sift.Literal(sift.Must(sift.ToValue(x)))]: a panic of [Must] would be
    recovered by [Compile] as an error. *)
Definition literal (x : GoAny) : front Filter :=
  match Must (ToValue x) with
  | Ok v => Done (Literal v)
  | _ => RuntimeError
  end.

Section Parse.

(** Go library code: the [unicode] and [utf8] packages (see [Scanner]),
    [strconv.ParseFloat(lit, 64)] with the kind of its [*NumError], and
    [math.Mod]. *)
Variable IsLetter_above_ascii : Z -> bool.
Variable IsDigit_above_ascii : Z -> bool.
Variable DecodeRune : string -> Z * Z.
Variable EncodeRune : Z -> list Z.
Variable ParseFloat : string -> float * option num_error.
Variable math_Mod : float -> float -> float.

(** What [int(f)] yields outside the range of [int] (see [GoFloat]). *)
Variable int_indefinite : float -> Z.

(** [sift.MapError] and [sift.Nary] are called by the parser; their
    definitions are not in the sources at hand. *)
Variable MapError : (Value -> res Value) -> Filter.
Variable Nary : list Filter -> (list Value -> res (list Value)) -> Filter.

(** The bound on the loops of the scanner. *)
Variable scan_fuel : nat.

Let scan_ := scan IsLetter_above_ascii IsDigit_above_ascii DecodeRune
               EncodeRune scan_fuel.

Definition binaryLevels : list binaryLevel :=
  [ [ (pipe, Compose) ];
    [ (comma, Concat) ];
    [ (plus, Jq.binop Jq.add); (minus, Jq.binop Jq.sub) ];
    [ (star, Jq.numOp PrimFloat.mul);
      (slash, Jq.numOp PrimFloat.div);
      (percent, Jq.numOp math_Mod) ] ].

(** [append(binaryLevels[:1:1], binaryLevels[2:]...)] *)
Definition binaryLevelsWithoutComma : list binaryLevel :=
  firstn 1 binaryLevels ++ skipn 2 binaryLevels.

(** [newParser]: [scanOrError] recovers the error of the first [scan]. *)
Definition newParser (s : scanner) : front parser :=
  match scan_ s with
  | Done (pos, tok, lit, s') =>
      Done {| scanner_ := s'; pos := pos; tok := tok; lit := lit;
              initScanErr := None |}
  | Raise offset msg =>
      Done {| scanner_ := s; pos := 0; tok := illegal; lit := "";
              initScanErr := Some (offset, msg) |}
  | RuntimeError => RuntimeError
  | OutOfFuel => OutOfFuel
  end.

(** [p.scan()]: the token that was current, and the parser on the next. *)
Definition pscan (p : parser) : front (Z * token * string * parser) :=
  '(pos', tok', lit', s') <- scan_ (scanner_ p) ;;
  Done (pos p, tok p, lit p,
        {| scanner_ := s'; pos := pos'; tok := tok'; lit := lit';
           initScanErr := initScanErr p |}).

Definition advance (p : parser) : front parser :=
  '(_, _, _, p) <- pscan p ;;
  Done p.

Definition is_tok (p : parser) (t : token) : bool := token_eqb (tok p) t.

(** The number branch of [parsePrimary], up to [p.scan()]. *)
Definition number_literal (p : parser) : front float :=
  match ParseFloat (lit p) with
  | (n, Some ErrRange) =>
      (* ParseFloat returns this error for numbers too large in either
         direction.  jq clamps them to the maximum non-infinite value. *)
      match first_byte (lit p) with
      | None => RuntimeError
      | Some c =>
          if c =? rune "-" then Done (- MaxFloat64)%float
          else Done MaxFloat64
      end
  | (n, Some _) => Raise (pos p) (InvalidNumberLiteral (lit p))
  | (n, None) => Done n
  end.

(** The filter that [parseArrayConstruct] returns. *)
Definition arrayConstruct (exprs : list Filter) : Filter :=
  fun v =>
    bind (for_each exprs [] (fun expr results =>
            bind (expr v) (fun rs =>
            Ok (results ++ rs)))) (fun results =>
    bind (ToValue (AnySliceValue (map Some results))) (fun arr =>
    Ok [arr])).

(** The filter that [parseIndex] returns once the bracket is closed. *)
Definition indexFilter (base : Filter) (idx begin end_ : option Filter)
  : Filter :=
  match idx with
  | Some idx => Binary base idx (Jq.index int_indefinite)
  | None =>
      match begin, end_ with
      | None, Some end_ =>
          Binary base end_ (fun vbase vend =>
            Jq.slice int_indefinite vbase None (Some vend))
      | None, None => fun _ => Panic PanicNilFilter
      | Some begin, None =>
          Binary base begin (fun vbase vbegin =>
            Jq.slice int_indefinite vbase (Some vbegin) None)
      | Some begin, Some end_ =>
          Ternary base begin end_ (fun vbase vbegin vend =>
            Jq.slice int_indefinite vbase (Some vbegin) (Some vend))
      end
  end.

(** The recursive descent.  [fuel] bounds the depth of the calls and the
    number of rounds of the loops; [parseExpr] is
    [parseBinary binaryLevels]. *)
Fixpoint parseBinary (fuel : nat) (levels : list binaryLevel) (p : parser)
  {struct fuel} : front (Filter * parser) :=
  match fuel with
  | O => OutOfFuel
  | S fuel' =>
      match levels with
      | [] => parsePrimaryWithPostfix fuel' p
      | level :: rest =>
          '(x, p) <- parseBinary fuel' rest p ;;
          binaryTerms fuel' level rest x p
      end
  end

(** The loop [Terms] of [parseBinary]. *)
with binaryTerms (fuel : nat) (level : binaryLevel)
    (rest : list binaryLevel) (x : Filter) (p : parser)
  {struct fuel} : front (Filter * parser) :=
  match fuel with
  | O => OutOfFuel
  | S fuel' =>
      match find (fun op => is_tok p (fst op)) level with
      | Some op =>
          p <- advance p ;;
          '(y, p) <- parseBinary fuel' rest p ;;
          binaryTerms fuel' level rest (snd op x y) p
      | None => Done (x, p)
      end
  end

with parsePrimaryWithPostfix (fuel : nat) (p : parser)
  {struct fuel} : front (Filter * parser) :=
  match fuel with
  | O => OutOfFuel
  | S fuel' =>
      '(f, p) <- parsePrimary fuel' p ;;
      parsePostfixOrDot fuel' f false p
  end

with parsePrimary (fuel : nat) (p : parser)
  {struct fuel} : front (Filter * parser) :=
  match fuel with
  | O => OutOfFuel
  | S fuel' =>
      if is_tok p null then
        p <- advance p ;;
        f <- literal AnyNil ;;
        Done (f, p)
      else if is_tok p true_ then
        p <- advance p ;;
        f <- literal (AnyBool true) ;;
        Done (f, p)
      else if is_tok p false_ then
        p <- advance p ;;
        f <- literal (AnyBool false) ;;
        Done (f, p)
      else if is_tok p number then
        n <- number_literal p ;;
        p <- advance p ;;
        f <- literal (AnyFloat64 n) ;;
        Done (f, p)
      else if is_tok p str then
        let s := lit p in
        p <- advance p ;;
        f <- literal (AnyString s) ;;
        Done (f, p)
      else if is_tok p dotDot then
        p <- advance p ;;
        Done (Jq.walk, p)
      else if is_tok p minus then
        p <- advance p ;;
        '(f, p) <- parsePrimary fuel' p ;;
        Done (Compose f (MapError Jq.neg), p)
      else if is_tok p leftBracket then parseArrayConstruct fuel' p
      else if is_tok p leftBrace then parseObjectConstruct fuel' p
      else if is_tok p dot then
        let dotOk := true in
        parsePostfixOrDot fuel' Jq.id dotOk p
      else if is_tok p leftParen then parseGroup fuel' p
      else Raise (pos p) (ExpectedExpression (tok p))
  end

with parseGroup (fuel : nat) (p : parser)
  {struct fuel} : front (Filter * parser) :=
  match fuel with
  | O => OutOfFuel
  | S fuel' =>
      p <- advance p ;;
      '(f, p) <- parseBinary fuel' binaryLevels p ;;
      if negb (is_tok p rightParen) then
        Raise (pos p) (ExpectedToken rightParen (tok p))
      else
        p <- advance p ;;
        Done (f, p)
  end

with parsePostfixOrDot (fuel : nat) (f : Filter) (dotOk : bool) (p : parser)
  {struct fuel} : front (Filter * parser) :=
  match fuel with
  | O => OutOfFuel
  | S fuel' =>
      if is_tok p dot then
        p <- advance p ;;
        if is_tok p identifier || is_tok p str then
          '(_, _, lit, p) <- pscan p ;;
          if is_tok p questionMark then
            p <- advance p ;;
            parsePostfixOrDot fuel' (Compose f (Jq.attrLit lit false))
              false p
          else
            parsePostfixOrDot fuel' (Compose f (Jq.attrLit lit true))
              false p
        else if negb dotOk then
          Raise (pos p) (ExpectedSelector (tok p))
        else parsePostfixOrDot fuel' f false p
      else if is_tok p leftBracket then
        '(f, p) <- parseIndex fuel' f p ;;
        parsePostfixOrDot fuel' f false p
      else Done (f, p)
  end

with parseIndex (fuel : nat) (base : Filter) (p : parser)
  {struct fuel} : front (Filter * parser) :=
  match fuel with
  | O => OutOfFuel
  | S fuel' =>
      p <- advance p ;;   (* leftBracket *)
      if is_tok p rightBracket then
        p <- advance p ;;
        if is_tok p questionMark then
          p <- advance p ;;
          Done (Compose base Jq.iterateOpt, p)
        else Done (Compose base Jq.iterate, p)
      else
        '(idx, begin, end_, p) <-
          (if is_tok p colon then
             p <- advance p ;;
             '(end_, p) <- parseBinary fuel' binaryLevels p ;;
             Done (None, None, Some end_, p)
           else
             '(idx, p) <- parseBinary fuel' binaryLevels p ;;
             if is_tok p colon then
               p <- advance p ;;
               if negb (is_tok p rightBracket) then
                 '(end_, p) <- parseBinary fuel' binaryLevels p ;;
                 Done (None, Some idx, Some end_, p)
               else Done (None, Some idx, None, p)
             else Done (Some idx, None, None, p)) ;;
        if negb (is_tok p rightBracket) then
          Raise (pos p) (ExpectedToken rightBracket (tok p))
        else
          p <- advance p ;;
          Done (indexFilter base idx begin end_, p)
  end

with parseArrayConstruct (fuel : nat) (p : parser)
  {struct fuel} : front (Filter * parser) :=
  match fuel with
  | O => OutOfFuel
  | S fuel' =>
      p <- advance p ;;   (* leftBracket *)
      '(exprs, p) <- arrayElems fuel' [] p ;;
      p <- advance p ;;   (* rightBracket *)
      Done (arrayConstruct exprs, p)
  end

(** [for p.tok != rightBracket { ... }] *)
with arrayElems (fuel : nat) (exprs : list Filter) (p : parser)
  {struct fuel} : front (list Filter * parser) :=
  match fuel with
  | O => OutOfFuel
  | S fuel' =>
      if is_tok p rightBracket then Done (exprs, p)
      else
        '(expr, p) <- parseBinary fuel' binaryLevels p ;;
        let exprs := exprs ++ [expr] in
        if is_tok p comma then
          p <- advance p ;;
          arrayElems fuel' exprs p
        else if negb (is_tok p rightBracket) then
          Raise (pos p) (ExpectedCommaOr rightBracket (tok p))
        else arrayElems fuel' exprs p
  end

with parseObjectConstruct (fuel : nat) (p : parser)
  {struct fuel} : front (Filter * parser) :=
  match fuel with
  | O => OutOfFuel
  | S fuel' =>
      p <- advance p ;;   (* leftBrace *)
      '(attrs, p) <- objectFields fuel' [] p ;;
      p <- advance p ;;   (* rightBrace *)
      match attrs with
      | [] =>
          Done (fun _ =>
                  bind (Must (ToValue (AnyMapValue []))) (fun empty =>
                  Ok [empty]), p)
      | _ => Done (Nary attrs Jq.constructObject, p)
      end
  end

(** [for p.tok != rightBrace { ... }] *)
with objectFields (fuel : nat) (attrs : list Filter) (p : parser)
  {struct fuel} : front (list Filter * parser) :=
  match fuel with
  | O => OutOfFuel
  | S fuel' =>
      if is_tok p rightBrace then Done (attrs, p)
      else
        '(key, p) <-
          (if is_tok p identifier || is_tok p str then
             '(_, _, id, p) <- pscan p ;;
             key <- literal (AnyString id) ;;
             Done (key, p)
           else if is_tok p leftParen then parseGroup fuel' p
           else Raise (pos p) (ExpectedAttributeName (tok p))) ;;
        if negb (is_tok p colon) then
          Raise (pos p) (ExpectedToken colon (tok p))
        else
          p <- advance p ;;
          '(value, p) <- parseBinary fuel' binaryLevelsWithoutComma p ;;
          let attrs := attrs ++ [key; value] in
          if is_tok p comma then
            p <- advance p ;;   (* trailing comma is okay *)
            objectFields fuel' attrs p
          else if negb (is_tok p rightBrace) then
            Raise (pos p) (ExpectedCommaOr rightBrace (tok p))
          else objectFields fuel' attrs p
  end.

Definition parseExpr (fuel : nat) (p : parser) : front (Filter * parser) :=
  parseBinary fuel binaryLevels p.

Definition parse (fuel : nat) (p : parser) : front Filter :=
  match initScanErr p with
  | Some (offset, msg) => Raise offset msg
  | None =>
      if is_tok p eof then Done Jq.id
      else
        '(f, p) <- parseExpr fuel p ;;
        if negb (is_tok p eof) then Raise (pos p) JunkAtEndOfFile
        else Done f
  end.

(** What a call of [Compile] does: it returns a filter, or it returns the
    error it recovered, or it lets a panic through.  [newScanner] runs
    before the deferred [recover] is in place, so its panic is not
    recovered. *)
Inductive compiled : Type :=
| Compiled (filter : Filter)
| CompileError (offset : Z) (msg : message)
| CompileRuntimeError
| CompilePanic (offset : Z) (msg : message)
| CompileOutOfFuel.

Definition Compile (fuel : nat) (source : string) : compiled :=
  match newScanner DecodeRune source with
  | Raise offset msg => CompilePanic offset msg
  | RuntimeError => CompileRuntimeError
  | OutOfFuel => CompileOutOfFuel
  | Done s =>
      match (p <- newParser s ;; parse fuel p) with
      | Done f => Compiled f
      | Raise offset msg => CompileError offset msg
      | RuntimeError => CompileRuntimeError
      | OutOfFuel => CompileOutOfFuel
      end
  end.

End Parse.

End Parser.

(** ** Vocabulary of the statements *)

Module Stated.
Import Sift SiftFilter GoFloat.

(** The values of a result, none when it is an error. *)
Definition outputs {A} (r : res (list A)) : list A :=
  match r with
  | Ok l => l
  | _ => []
  end.

(** The slots at the positions [b <= i < e] of a list. *)
Definition sublist {A} (b e : Z) (l : list A) : list A :=
  firstn (Z.to_nat (e - b)) (skipn (Z.to_nat b) l).

Definition is_present {A} (slot : option A) : bool :=
  match slot with
  | Some _ => true
  | None => false
  end.

(** A list of slots without its holes. *)
Definition drop_holes {A} (l : list (option A)) : list (option A) :=
  filter is_present l.

(** The loops of [Equal] in the shape of the source, stated with [Equal]
    itself ([Equal_attr] and [Equal_index] relate them to [Equal]). *)
Fixpoint Equal_attrs (la ra : gomap Value) (lkeys rkeys : list Value)
  : bool :=
  match lkeys with
  | [] => true
  | lkey :: lkeys' =>
      match rkeys with
      | [] => false
      | rkey :: rkeys' =>
          if negb (Equal lkey rkey) then false
          else match Attr la lkey with
               | None => false
               | Some lvalue =>
                   match Attr ra rkey with
                   | None => false
                   | Some rvalue =>
                       if negb (Equal lvalue rvalue) then false
                       else Equal_attrs la ra lkeys' rkeys'
                   end
               end
      end
  end.

Definition Equal_elems (li ri : list (option Value)) (idxs : list Z) : bool :=
  forallb
    (fun i =>
       match Index li i, Index ri i with
       | Some le, Some re => Equal le re
       | None, None => true
       | _, _ => false
       end) idxs.

(** [==] on [float64]: both zero, or the same infinity, or the same finite
    number. *)
Definition sf_same (x y : spec_float) : Prop :=
  match x, y with
  | S754_zero _, S754_zero _ => True
  | S754_infinity s1, S754_infinity s2 => s1 = s2
  | S754_finite s1 m1 e1, S754_finite s2 m2 e2 =>
      s1 = s2 /\ m1 = m2 /\ e1 = e2
  | _, _ => False
  end.

(** A value without a NaN among its Numbers. *)
Fixpoint no_nan (v : Value) : bool :=
  match v with
  | float64Type f => negb (PrimFloat.is_nan f)
  | attrType a => forallb (fun '(_, value) => no_nan value) a
  | indexType ix =>
      forallb (fun slot => match slot with
                           | Some elem => no_nan elem
                           | None => true
                           end) ix
  | _ => true
  end.

(** Two values of one category with matching contents. *)
Definition contents_match (l r : Value) : Prop :=
  match l, r with
  | nullType, nullType => True
  | boolType lb, boolType rb => lb = rb
  | float64Type lf, float64Type rf => PrimFloat.eqb lf rf = true
  | stringType ls, stringType rs => ls = rs
  | attrType la, attrType ra =>
      Keys la = Keys ra /\
      forall key, In key (Keys la) ->
        exists lvalue rvalue,
          Attr la key = Some lvalue /\ Attr ra key = Some rvalue /\
          Equal lvalue rvalue = true
  | indexType li, indexType ri =>
      len li = len ri /\
      forall i,
        match Index li i, Index ri i with
        | Some le, Some re => Equal le re = true
        | None, None => True
        | _, _ => False
        end
  | _, _ => False
  end.

Section Slicing.

Variable int_indefinite : float -> Z.

(** The normalisation of a slice bound in the order in which the
    specification words it, to be compared with [Jq.clampIndex]: "if the
    bound is negative, add the container length; then clamp into
    [0, length]; then convert to an integer via truncation". *)
Definition clampIndex_as_specified (idx : Value) (n : Z) : res Z :=
  match AsFloat64 idx with
  | None => Error ErrIndexMustBeNumber
  | Some f =>
      let length := float64_of_int n in
      let f := if (f <? 0)%float then (f + length)%float else f in
      let f := if (f <? 0)%float then 0%float else f in
      let f := if (length <? f)%float then length else f in
      Ok (int_of_float64 int_indefinite f)
  end.

(** The bound that [slice] uses: the default when the bound is omitted. *)
Definition bound (b : option Value) (default n : Z) : res Z :=
  match b with
  | None => Ok default
  | Some idx => Jq.clampIndex int_indefinite idx n
  end.

End Slicing.

(** Modelled from the spec: [sift.MapError] is called by the parser
    ([sift.Compose(f, sift.MapError(neg))] for the unary minus, whose
    "input must be Number") but its definition is missing from filter.go.
    Like [Map], it produces one value for each value it consumes; the
    function may fail, and its error is the error of the filter. *)
Definition MapError (f : Value -> res Value) : Filter :=
  fun vin =>
    bind (f vin) (fun vout =>
    Ok [vout]).

(** Modelled from the spec: [sift.Nary] is called by the parser for object
    construction but its definition is missing from filter.go.  "n-ary
    gathers each f_i(v), then calls op once for every element of the
    Cartesian product in lexicographic order with the last argument
    varying fastest." *)
Fixpoint tuples (xss : list (list Value)) : list (list Value) :=
  match xss with
  | [] => [[]]
  | xs :: rest => flat_map (fun x => map (cons x) (tuples rest)) xs
  end.

Definition Nary (fs : list Filter) (op : list Value -> res (list Value))
  : Filter :=
  fun v =>
    bind (for_each fs [] (fun f xss =>
            bind (f v) (fun xs =>
            Ok (xss ++ [xs])))) (fun xss =>
    for_each (tuples xss) [] (fun args outs =>
      bind (op args) (fun opvs =>
      Ok (outs ++ opvs)))).

(** An instance of the parameters of the front end for sources in ASCII:
    no letter or digit above U+007F, every multi-byte sequence invalid. *)
Definition ascii_IsLetter : Z -> bool := fun _ => false.
Definition ascii_IsDigit : Z -> bool := fun _ => false.
Definition ascii_DecodeRune : string -> Z * Z :=
  fun _ => (Scanner.RuneError, 1).
Definition ascii_EncodeRune : Z -> list Z := fun _ => [0xEF; 0xBF; 0xBD].

(** A stand-in for [utf8.DecodeRune] that decodes ASCII and the sequences
    of two bytes, with the width 0 of the library on an empty slice; longer
    sequences are not decoded. *)
Definition short_DecodeRune (text : string) : Z * Z :=
  match text with
  | EmptyString => (Scanner.RuneError, 0)
  | String c0 rest =>
      let b0 := Scanner.rune c0 in
      if b0 <? Scanner.RuneSelf then (b0, 1)
      else
        match rest with
        | String c1 _ =>
            let b1 := Scanner.rune c1 in
            if (0xC2 <=? b0) && (b0 <=? 0xDF) &&
               (0x80 <=? b1) && (b1 <=? 0xBF)
            then (Z.lor (Z.shiftl (Z.land b0 0x1F) 6) (Z.land b1 0x3F), 2)
            else (Scanner.RuneError, 1)
        | EmptyString => (Scanner.RuneError, 1)
        end
  end.

(** [unicode.IsLetter] on U+00C0 to U+00FF: all but the two signs. *)
Definition latin1_IsLetter (c : Z) : bool :=
  (0xC0 <=? c) && (c <=? 0xFF) && negb (c =? 0xD7) && negb (c =? 0xF7).

(** A stand-in for [math.Mod] where the operator [%] does not occur. *)
Definition unused_Mod : float -> float -> float := fun _ _ => nan.

(** [int(f)] out of range on amd64: the "integer indefinite" value. *)
Definition amd64_int_indefinite : float -> Z := fun _ => - 2 ^ 63.

(** *** Observing the driver

    The calls that [Sift] makes to the decoder and to the encoder, in the
    order in which it makes them, with what each call returned. *)
Inductive event : Type :=
| Decoded (r : res Value)
| Encoded (vout : Value) (err : option error).

Section Logged.

Variable W : Type.
Variable Decode : W -> res Value * W.
Variable Encode : Value -> W -> option error * W.

(** Any decoder and encoder, with a log of their calls next to the world. *)
Definition logged_Decode (wl : W * list event) : res Value * (W * list event) :=
  let (r, w') := Decode (fst wl) in
  (r, (w', snd wl ++ [Decoded r])).

Definition logged_Encode (vout : Value) (wl : W * list event)
  : option error * (W * list event) :=
  let (err, w') := Encode vout (fst wl) in
  (err, (w', snd wl ++ [Encoded vout err])).

End Logged.

(** A decoder that plays back a list of results and then reports
    [io.EOF], and an encoder that accepts everything. *)
Definition script_Decode (w : list (res Value))
  : res Value * list (res Value) :=
  match w with
  | [] => (Error EOF, [])
  | r :: w' => (r, w')
  end.

Definition accept_Encode (vout : Value) (w : list (res Value))
  : option error * list (res Value) :=
  (None, w).

(** The calls of a run of the driver with filter [f] and how the run ends
    ([None]: it is still going on): every input is followed by the
    encoding of all the outputs of [f] on it, and only then by the next
    call of the decoder; after an error nothing follows. *)
Inductive ordered (f : Filter) : list event -> option outcome -> Prop :=
| ordered_running :
    ordered f [] None
| ordered_eof :
    ordered f [Decoded (Error EOF)] (Some (Returned None))
| ordered_decode_error (err : error) :
    err <> EOF ->
    ordered f [Decoded (Error err)] (Some (Returned (Some err)))
| ordered_decode_panic (p : panic) :
    ordered f [Decoded (Panic p)] (Some (Panicked p))
| ordered_filter_error (vin : Value) (err : error) :
    f vin = Error err ->
    ordered f [Decoded (Ok vin)] (Some (Returned (Some err)))
| ordered_filter_panic (vin : Value) (p : panic) :
    f vin = Panic p ->
    ordered f [Decoded (Ok vin)] (Some (Panicked p))
| ordered_encode_error (vin : Value) (sent : list Value) (vout : Value)
    (rest : list Value) (err : error) :
    f vin = Ok (sent ++ vout :: rest) ->
    ordered f
      (Decoded (Ok vin) :: map (fun v => Encoded v None) sent ++
       [Encoded vout (Some err)])
      (Some (Returned (Some err)))
| ordered_next (vin : Value) (vouts : list Value) (calls : list event)
    (o : option outcome) :
    f vin = Ok vouts ->
    ordered f calls o ->
    ordered f
      (Decoded (Ok vin) :: map (fun v => Encoded v None) vouts ++ calls) o.

End Stated.

(** ** value.go: [GetIndex] *)

Module SiftLookup.
Import Sift GoFloat.

Section GetIndex.

Variable int_indefinite : float -> Z.

(** [GetIndex]: the index must be a Number whose conversion to [int] is
    exact and not negative. *)
Definition GetIndex (v i : Value) : option Value :=
  match AsFloat64 i with
  | None => None
  | Some ni =>
      let ii := int_of_float64 int_indefinite ni in
      if negb (PrimFloat.eqb (float64_of_int ii) ni) then
        (* inexact conversion *)
        None
      else if ii <? 0 then None
      else GetIntIndex v ii
  end.

End GetIndex.

End SiftLookup.

(** ** encoding/json: [toJSONValue] *)

Module Json.
Import Sift SiftFilter.

Inductive json_error : Type :=
| ErrKeyNotString (key : Value)
| ErrNoValueForKey (key : Value)
| ErrIndexMissing (j : Z)
| ErrNotJSON (v : Value).

(** The loop of [toJSONValue] over the keys of an Object; [below] holds
    the result of the recursive call for each value. *)
Definition attr_loop (below : gomap (result json_error panic GoAny)) :=
  fix loop (keys : list Value) (m : gomap GoAny)
    : result json_error panic (gomap GoAny) :=
    match keys with
    | [] => Ok m
    | key :: keys' =>
        match AsString key with
        | None => Error (ErrKeyNotString key)
        | Some s =>
            match Attr below key with
            | None => Error (ErrNoValueForKey key)
            | Some converted =>
                bind converted (fun value =>
                loop keys' (map_set m s value))
            end
        end
    end.

(** The loop of [toJSONValue] over the positions of an Array. *)
Definition index_loop
    (below : list (option (result json_error panic GoAny))) :=
  fix loop (js : list Z) (elems : list GoAny)
    : result json_error panic (list GoAny) :=
    match js with
    | [] => Ok elems
    | j :: js' =>
        match Index below j with
        | None => Error (ErrIndexMissing j)
        | Some converted =>
            bind converted (fun elem =>
            loop js' (elems ++ [elem]))
        end
    end.

(** [toJSONValue] on the in-memory values (the first case of the source,
    [v.(value)], is for the values of the codec itself).  As in [Equal],
    the recursive result is attached to each entry and each slot before
    the loops look it up with [Attr] and [Index]. *)
Fixpoint toJSONValue (v : Value) : result json_error panic GoAny :=
  if IsNull v then Ok AnyNil
  else
    match AsBool v with
    | Some b => Ok (AnyBool b)
    | None =>
    match AsFloat64 v with
    | Some f => Ok (AnyFloat64 f)
    | None =>
    match AsString v with
    | Some s => Ok (AnyString s)
    | None =>
    match v with
    | attrType a =>
        let keys := Keys a in
        bind (attr_loop (map (fun '(k, sv) => (k, toJSONValue sv)) a)
                keys [])
             (fun m => Ok (AnyMapAny m))
    | indexType i =>
        let n := IndexLength i in
        bind (index_loop (map (fun slot => match slot with
                                           | Some sv => Some (toJSONValue sv)
                                           | None => None
                                           end) i)
                (range 0 n) [])
             (fun list => Ok (AnySliceAny list))
    | _ => Error (ErrNotJSON v)
    end end end end.

End Json.

(** ** Shapes of values *)

Module Shapes.
Import Sift.

(** The number of values in a value: itself, the values of its keys, its
    elements. *)
Fixpoint nodes (v : Value) : nat :=
  match v with
  | attrType a =>
      S (list_sum (map (fun '(_, value) => nodes value) a))
  | indexType ix =>
      S (list_sum (map (fun slot => match slot with
                                    | Some elem => nodes elem
                                    | None => O
                                    end) ix))
  | _ => 1
  end.

(** A value whose Objects hold each key once, as a Go map does. *)
Fixpoint distinct_keys (v : Value) : Prop :=
  match v with
  | attrType a =>
      NoDup (map fst a) /\
      (fix all (a : gomap Value) : Prop :=
         match a with
         | [] => True
         | (_, value) :: a' => distinct_keys value /\ all a'
         end) a
  | indexType ix =>
      (fix all (ix : list (option Value)) : Prop :=
         match ix with
         | [] => True
         | Some elem :: ix' => distinct_keys elem /\ all ix'
         | None :: ix' => all ix'
         end) ix
  | _ => True
  end.

(** A value without a hole in any of its Arrays. *)
Fixpoint no_holes (v : Value) : bool :=
  match v with
  | attrType a => forallb (fun '(_, value) => no_holes value) a
  | indexType ix =>
      forallb (fun slot => match slot with
                           | Some elem => no_holes elem
                           | None => false
                           end) ix
  | _ => true
  end.

(** What [encoding/json] decodes into [interface{}]: nil, bool, float64,
    string, [map[string]interface{}] and [[]interface{}]. *)
Fixpoint json_tree (x : GoAny) : bool :=
  match x with
  | AnyNil | AnyBool _ | AnyFloat64 _ | AnyString _ => true
  | AnyMapAny m => forallb (fun '(_, y) => json_tree y) m
  | AnySliceAny l => forallb json_tree l
  | AnyValue _ | AnySliceValue _ | AnyMapValue _ => false
  end.

(** The category of a value, one of six. *)
Inductive category : Type :=
| Null | Bool | Number | Text | Object | Array.

Definition category_of (v : Value) : category :=
  match v with
  | nullType => Null
  | boolType _ => Bool
  | float64Type _ => Number
  | stringType _ => Text
  | attrType _ => Object
  | indexType _ => Array
  end.

Definition category_eqb (a b : category) : bool :=
  match a, b with
  | Null, Null | Bool, Bool | Number, Number | Text, Text
  | Object, Object | Array, Array => true
  | _, _ => false
  end.

End Shapes.

(** ** The loops of [ToValue] *)

Module Conversions.
Import Sift SiftFilter.

(** The loop of [ToValue] over a [map[string]interface{}]. *)
Fixpoint convert_map (m : gomap GoAny) (vm : gomap Value)
  : res (gomap Value) :=
  match m with
  | [] => Ok vm
  | (k, v) :: m' =>
      match ToValue v with
      | Ok value => convert_map m' (map_set vm k value)
      | Error e => Error e
      | Panic p => Panic p
      end
  end.

(** The loop of [ToValue] over a [[]interface{}]. *)
Fixpoint convert_slice (l : list GoAny) : res (list (option Value)) :=
  match l with
  | [] => Ok []
  | e :: l' =>
      match ToValue e with
      | Ok v => bind (convert_slice l') (fun ix => Ok (Some v :: ix))
      | Error e => Error e
      | Panic p => Panic p
      end
  end.

End Conversions.

(** ** Progress of the scanner *)

Module Progress.
Import Scanner.

(** A result of the front end that is a value with the property [P], or
    an error that was raised. *)
Definition settles {A} (P : A -> Prop) (r : front A) : Prop :=
  match r with
  | Done a => P a
  | Raise _ _ => True
  | RuntimeError => False
  | OutOfFuel => False
  end.

(** What is left to read: the bytes after [rdOffset], and the current
    character unless it is the end-of-file mark. *)
Definition remaining (s : scanner) : nat :=
  Nat.add (Z.to_nat (srclen s - rdOffset s))
          (if ch s =? -1 then 0%nat else 1%nat).

End Progress.

(** * Properties *)

Import Sift SiftFilter GoFloat.
Import Stated.
Import Shapes.
Import Conversions.
Import Progress.

(** ** Loops and lookups *)

Section Loops.

Context {A S : Type}.

Lemma for_each_app (l1 l2 : list A) (s : S) (body : A -> S -> res S) :
  for_each (l1 ++ l2) s body =
  bind (for_each l1 s body) (fun s' => for_each l2 s' body).
Proof.
  revert s; induction l1 as [|a l1 IH]; intros s; simpl; [reflexivity|].
  destruct (body a s); simpl; auto.
Qed.

(** A loop whose body never fails is a left fold. *)
Lemma for_each_total (l : list A) (s : S) (body : A -> S -> res S)
    (step : A -> S -> S) :
  (forall a s, In a l -> body a s = Ok (step a s)) ->
  for_each l s body = Ok (fold_left (fun s a => step a s) l s).
Proof.
  revert s; induction l as [|a l IH]; intros s Hbody; simpl; [reflexivity|].
  rewrite Hbody by (left; reflexivity); simpl.
  apply IH; intros; apply Hbody; right; assumption.
Qed.

End Loops.

Lemma fold_left_append {A B} (f : A -> list B) (l : list A) (acc : list B) :
  fold_left (fun outs a => outs ++ f a) l acc = acc ++ flat_map f l.
Proof.
  revert acc; induction l as [|a l IH]; intros acc; simpl.
  - now rewrite app_nil_r.
  - rewrite IH, app_assoc; reflexivity.
Qed.

Lemma len_nonneg {A} (l : list A) : 0 <= len l.
Proof. unfold len; lia. Qed.

Lemma in_range (lo hi i : Z) : In i (range lo hi) <-> lo <= i < hi.
Proof.
  unfold range; rewrite in_map_iff; split.
  - intros (k & <- & Hk); apply in_seq in Hk; lia.
  - intros Hi; exists (Z.to_nat (i - lo)); split; [lia|].
    apply in_seq; lia.
Qed.

Lemma Index_of_nat {V} (ix : list (option V)) (k : nat) :
  Index ix (Z.of_nat k) =
  match nth_error ix k with Some (Some v) => Some v | _ => None end.
Proof.
  unfold Index, len; rewrite Z.geb_leb, Nat2Z.id.
  destruct (Z.ltb_spec (Z.of_nat k) 0); [lia|].
  destruct (Z.leb_spec (Z.of_nat (List.length ix)) (Z.of_nat k)); simpl;
    [|reflexivity].
  rewrite (proj2 (nth_error_None ix k)) by lia; reflexivity.
Qed.

Lemma Index_negative {V} (ix : list (option V)) (i : Z) :
  i < 0 -> Index ix i = None.
Proof.
  intros H; unfold Index.
  destruct (Z.ltb_spec i 0); [reflexivity|lia].
Qed.

Lemma Index_beyond {V} (ix : list (option V)) (i : Z) :
  len ix <= i -> Index ix i = None.
Proof.
  intros H; unfold Index; rewrite Z.geb_leb.
  destruct (Z.leb_spec (len ix) i); [|lia].
  now rewrite orb_true_r.
Qed.

Lemma range_0_seq (n : nat) : range 0 (Z.of_nat n) = map Z.of_nat (seq 0 n).
Proof.
  unfold range; rewrite Z.sub_0_r, Nat2Z.id.
  apply map_ext; intros; lia.
Qed.

(** Reading every position of [ix] through [Index] gives back its slots. *)
Lemma map_Index_range {V} (ix : list (option V)) :
  map (Index ix) (range 0 (len ix)) = ix.
Proof.
  unfold len; rewrite range_0_seq, map_map.
  apply nth_error_ext; intros k.
  rewrite nth_error_map.
  destruct (Nat.lt_ge_cases k (List.length ix)) as [Hk|Hk].
  - rewrite nth_error_seq, (proj2 (Nat.ltb_lt _ _) Hk); simpl.
    (* inside the slice *)
    rewrite Index_of_nat.
    destruct (nth_error ix k) as [[v|]|] eqn:E; try reflexivity.
    apply nth_error_None in E; lia.
  - rewrite (proj2 (nth_error_None ix k)) by lia.
    rewrite (proj2 (nth_error_None _ k)) by (rewrite length_seq; lia).
    reflexivity.
Qed.

Lemma Index_map {V U} (g : V -> U) (ix : list (option V)) (i : Z) :
  Index (map (fun o => match o with
                       | Some v => Some (g v)
                       | None => None
                       end) ix) i =
  match Index ix i with Some v => Some (g v) | None => None end.
Proof.
  unfold Index, len; rewrite length_map.
  destruct ((i <? 0) || (i >=? Z.of_nat (List.length ix))); [reflexivity|].
  rewrite nth_error_map.
  destruct (nth_error ix (Z.to_nat i)) as [[v|]|]; reflexivity.
Qed.

Lemma map_get_map {V U} (g : V -> U) (a : gomap V) (k : string) :
  map_get (map (fun '(k, v) => (k, g v)) a) k =
  match map_get a k with Some v => Some (g v) | None => None end.
Proof.
  induction a as [|[k' v] a IH]; simpl; [reflexivity|].
  destruct (String.eqb k' k); auto.
Qed.

Lemma Attr_map {V U} (g : V -> U) (a : gomap V) (key : Value) :
  Attr (map (fun '(k, v) => (k, g v)) a) key =
  match Attr a key with Some v => Some (g v) | None => None end.
Proof.
  unfold Attr; destruct (AsString key); [apply map_get_map|reflexivity].
Qed.

(** ** Field access (C1) *)

(** C1, counterexample: [.x] applied to the Number 12 is not a type error,
    it returns Null (test "field_not_object"); and [.x?] applied to an
    Object without the key emits nothing (test "field_opt_missing"). *)
Lemma attrLit_number_not_error :
  Jq.attrLit "x" true (float64Type 12) = Ok [nullType] /\
  ~ (exists e, Jq.attrLit "x" true (float64Type 12) = Error e) /\
  Jq.attrLit "x" false (attrType []) = Ok [].
Proof.
  repeat split; intros [e H]; discriminate H.
Qed.

(** C1, as amended: [.k] never fails.  On an Object that has the key it
    returns the value of the key.  In every other case (the key is absent,
    the input is Null, the input is of any other category) the plain access
    returns Null and the optional access [.k?] emits no value. *)
Theorem attrLit_total (k : string) (required : bool) (v : Value) :
  Jq.attrLit k required v =
  match v with
  | attrType a =>
      match map_get a k with
      | Some value => Ok [value]
      | None => if required then Ok [nullType] else Ok []
      end
  | _ => if required then Ok [nullType] else Ok []
  end.
Proof.
  unfold Jq.attrLit, GetStringAttr, GetAttr.
  destruct v; reflexivity.
Qed.

(** ** Indexing an Object (C9) *)

(** C9: indexing an Object with a key whose lookup fails returns Null; the
    lookup fails for every key that is not a Text, a Number among them;
    indexing an Array with a key that is not a Number is the error
    "cannot index array with value". *)
Theorem index_object_lookup_failure (int_indefinite : float -> Z) :
  (forall (a : gomap Value) (idx : Value),
      Attr a idx = None ->
      Jq.index int_indefinite (attrType a) idx = Ok [nullType]) /\
  (forall (a : gomap Value) (idx : Value),
      AsString idx = None ->
      Jq.index int_indefinite (attrType a) idx = Ok [nullType]) /\
  (forall (a : gomap Value) (f : float),
      Jq.index int_indefinite (attrType a) (float64Type f) = Ok [nullType]) /\
  (forall (ix : list (option Value)) (idx : Value),
      AsFloat64 idx = None ->
      Jq.index int_indefinite (indexType ix) idx =
      Error (ErrCannotIndexArray idx)).
Proof.
  split; [|split; [|split]].
  - intros a idx H; unfold Jq.index; rewrite H; reflexivity.
  - intros a idx H; unfold Jq.index, Attr; rewrite H; reflexivity.
  - intros a f; reflexivity.
  - intros ix idx H; unfold Jq.index; rewrite H; reflexivity.
Qed.

Lemma index_object_lookup_failure_witness :
  Jq.index (fun _ => - 2 ^ 63) (attrType [("a", boolType true)])
    (stringType "b") = Ok [nullType] /\
  Jq.index (fun _ => - 2 ^ 63) (attrType [("a", boolType true)])
    (boolType false) = Ok [nullType] /\
  Jq.index (fun _ => - 2 ^ 63) (indexType [Some (boolType true)])
    (stringType "a") = Error (ErrCannotIndexArray (stringType "a")).
Proof.
  destruct (index_object_lookup_failure (fun _ => - 2 ^ 63))
    as (Hmiss & Hkey & _ & Harr).
  split; [|split].
  - apply Hmiss; reflexivity.
  - apply Hkey; reflexivity.
  - apply Harr; reflexivity.
Defined.

(** ** The binary combinator (C7) *)

Section BinaryProduct.

Variables (x y : Filter) (op : Value -> Value -> res (list Value)).

(** The loop of [Binary] over the pairs, [op] being applied to a pair. *)
Let body (p : Value * Value) (outs : list Value) : res (list Value) :=
  bind (op (fst p) (snd p)) (fun opvs => Ok (outs ++ opvs)).

Lemma Binary_loops_as_product (xvs yvs outs : list Value) :
  for_each xvs outs (fun xv outs =>
    for_each yvs outs (fun yv outs =>
      bind (op xv yv) (fun opvs => Ok (outs ++ opvs)))) =
  for_each (list_prod xvs yvs) outs body.
Proof.
  revert outs; induction xvs as [|xv xvs IH]; intros outs; simpl;
    [reflexivity|].
  rewrite for_each_app.
  assert (E : forall l o,
             for_each l o (fun yv outs =>
               bind (op xv yv) (fun opvs => Ok (outs ++ opvs))) =
             for_each (map (fun y0 => (xv, y0)) l) o body).
  { induction l as [|yv l IHl]; intros o; simpl; [reflexivity|].
    unfold body at 1; simpl.
    destruct (op xv yv); simpl; auto. }
  rewrite E.
  destruct (for_each (map (fun y0 => (xv, y0)) yvs) outs body); simpl; auto.
Qed.

Lemma product_loop_ok (ps : list (Value * Value)) (outs : list Value) :
  (forall p, In p ps -> exists opvs, op (fst p) (snd p) = Ok opvs) ->
  for_each ps outs body =
  Ok (outs ++ flat_map (fun p => outputs (op (fst p) (snd p))) ps).
Proof.
  revert outs; induction ps as [|p ps IH]; intros outs Hok; simpl.
  - now rewrite app_nil_r.
  - destruct (Hok p (or_introl eq_refl)) as [opvs Hp].
    unfold body at 1; rewrite Hp; simpl.
    rewrite IH by (intros; apply Hok; right; assumption).
    now rewrite app_assoc.
Qed.

Lemma product_loop_error (ps1 ps2 : list (Value * Value)) (p : Value * Value)
    (outs : list Value) (e : error) :
  (forall q, In q ps1 -> exists opvs, op (fst q) (snd q) = Ok opvs) ->
  op (fst p) (snd p) = Error e ->
  for_each (ps1 ++ p :: ps2) outs body = Error e.
Proof.
  intros Hok Hp.
  rewrite for_each_app, product_loop_ok by assumption; simpl.
  unfold body at 1; rewrite Hp; reflexivity.
Qed.

Lemma flat_map_list_prod {B} (g : Value -> Value -> list B)
    (xvs yvs : list Value) :
  flat_map (fun p => g (fst p) (snd p)) (list_prod xvs yvs) =
  flat_map (fun xv => flat_map (fun yv => g xv yv) yvs) xvs.
Proof.
  induction xvs as [|xv xvs IH]; simpl; [reflexivity|].
  rewrite flat_map_app, IH; f_equal.
  clear IH; induction yvs as [|yv yvs IHy]; simpl; [reflexivity|].
  now rewrite IHy.
Qed.

Lemma length_flat_map {A B} (g : A -> list B) (l : list A) :
  List.length (flat_map g l) = list_sum (map (fun a => List.length (g a)) l).
Proof.
  induction l as [|a l IH]; simpl; [reflexivity|].
  now rewrite length_app, IH.
Qed.

(** C7: when neither filter fails on [v] and [op] fails on no pair,
    [Binary x y op] returns the outputs of [op] over the Cartesian product
    of [x v] and [y v], the outputs of [x] in the outer loop and those of
    [y] in the inner one, and the number of results is the sum over the
    pairs of the numbers of outputs of [op].  An error of [x], else of [y],
    else of [op] at the first pair (in that order) where it fails, is the
    result of the whole application. *)
Theorem Binary_cartesian_product (v : Value) :
  (forall xvs yvs,
      x v = Ok xvs -> y v = Ok yvs ->
      (forall xv yv, In xv xvs -> In yv yvs ->
                     exists opvs, op xv yv = Ok opvs) ->
      Binary x y op v =
        Ok (flat_map (fun xv =>
              flat_map (fun yv => outputs (op xv yv)) yvs) xvs) /\
      List.length (outputs (Binary x y op v)) =
        list_sum (map (fun xv =>
          list_sum (map (fun yv => List.length (outputs (op xv yv))) yvs))
          xvs)) /\
  (forall e, x v = Error e -> Binary x y op v = Error e) /\
  (forall xvs e, x v = Ok xvs -> y v = Error e ->
                 Binary x y op v = Error e) /\
  (forall xvs yvs ps1 p ps2 e,
      x v = Ok xvs -> y v = Ok yvs ->
      list_prod xvs yvs = ps1 ++ p :: ps2 ->
      (forall q, In q ps1 -> exists opvs, op (fst q) (snd q) = Ok opvs) ->
      op (fst p) (snd p) = Error e ->
      Binary x y op v = Error e).
Proof.
  split; [|split; [|split]].
  - intros xvs yvs Hx Hy Hop.
    assert (E : Binary x y op v =
                Ok (flat_map (fun xv =>
                      flat_map (fun yv => outputs (op xv yv)) yvs) xvs)).
    { unfold Binary; rewrite Hx, Hy; simpl.
      rewrite Binary_loops_as_product, product_loop_ok.
      - simpl; f_equal.
        apply (flat_map_list_prod (fun xv yv => outputs (op xv yv))).
      - intros [xv yv] Hin; apply in_prod_iff in Hin; simpl.
        apply Hop; tauto. }
    split; [exact E|].
    rewrite E; simpl; rewrite length_flat_map.
    f_equal; apply map_ext; intros xv; apply length_flat_map.
  - intros e Hx; unfold Binary; rewrite Hx; reflexivity.
  - intros xvs e Hx Hy; unfold Binary; rewrite Hx, Hy; reflexivity.
  - intros xvs yvs ps1 p ps2 e Hx Hy Hprod Hok Hp.
    unfold Binary; rewrite Hx, Hy; simpl.
    rewrite Binary_loops_as_product, Hprod.
    now apply product_loop_error.
Qed.

End BinaryProduct.

Lemma Binary_cartesian_product_witness :
  let one := float64Type 1 in
  let a := stringType "a" in
  let x := Concat (Literal one) (Literal a) in
  let y := Concat (Literal (boolType true)) (Literal (boolType false)) in
  let pair := fun xv yv : Value => Ok [xv; yv] in
  let num := fun xv yv : Value =>
               match AsFloat64 xv with
               | None => Error (ErrNumericOperand xv)
               | Some _ => Ok [yv]
               end in
  Binary x y pair nullType =
    Ok [one; boolType true; one; boolType false;
        a; boolType true; a; boolType false] /\
  Binary Jq.iterate y pair nullType = Error (ErrCannotIterate nullType) /\
  Binary x Jq.iterate pair nullType = Error (ErrCannotIterate nullType) /\
  Binary x y num nullType = Error (ErrNumericOperand a).
Proof.
  intros one a x y pair num.
  destruct (Binary_cartesian_product x y pair nullType) as (Hok & _).
  destruct (Binary_cartesian_product Jq.iterate y pair nullType)
    as (_ & Hx & _).
  destruct (Binary_cartesian_product x Jq.iterate pair nullType)
    as (_ & _ & Hy & _).
  destruct (Binary_cartesian_product x y num nullType) as (_ & _ & _ & Hop).
  split; [|split; [|split]].
  - apply (Hok [one; a] [boolType true; boolType false]);
      [reflexivity|reflexivity|].
    intros xv yv _ _; eexists; reflexivity.
  - apply Hx; reflexivity.
  - apply (Hy [one; a]); reflexivity.
  - apply (Hop [one; a] [boolType true; boolType false]
             [(one, boolType true); (one, boolType false)]
             (a, boolType true) [(a, boolType false)]);
      try reflexivity.
    intros q [<-|[<-|[]]]; eexists; reflexivity.
Defined.

(** ** Recursive descent (C10) *)

Lemma insert_key_sorted (k : string) (ks : list string) :
  Sorted (fun k1 k2 => String.leb k1 k2 = true) ks ->
  Sorted (fun k1 k2 => String.leb k1 k2 = true) (insert_key k ks).
Proof.
  induction ks as [|k' ks IH]; intros Hs; simpl.
  - repeat constructor.
  - destruct (String.leb k k') eqn:E.
    + constructor; [assumption|constructor; assumption].
    + inversion Hs as [|? ? Hs' Hhd]; subst.
      constructor; [apply IH; assumption|].
      assert (Hk : String.leb k' k = true)
        by (destruct (String.leb_total k k'); congruence).
      destruct ks as [|k'' ks]; simpl; [constructor; assumption|].
      destruct (String.leb k k''); constructor; try assumption.
      inversion Hhd; assumption.
Qed.

Lemma sort_keys_sorted (ks : list string) :
  Sorted (fun k1 k2 => String.leb k1 k2 = true) (sort_keys ks).
Proof.
  induction ks as [|k ks IH]; simpl; [constructor|].
  now apply insert_key_sorted.
Qed.

(** The closure [visit] in the shape of the source: append [v], then loop
    over [attr.Keys()] with [attr.Attr(key)], then over the indices with
    [index.Index(i)]. *)
Lemma visit_unfold (v : Value) :
  Jq.visit v =
  v :: match v with
       | attrType attr =>
           flat_map (fun key =>
             match Attr attr key with
             | Some value => Jq.visit value
             | None => []
             end) (Keys attr)
       | indexType index =>
           flat_map (fun i =>
             match Index index i with
             | Some value => Jq.visit value
             | None => []
             end) (range 0 (IndexLength index))
       | _ => []
       end.
Proof.
  destruct v; try reflexivity.
  - simpl; f_equal; rewrite app_nil_r.
    apply flat_map_ext; intros key.
    rewrite (Attr_map Jq.visit); destruct (Attr a key); reflexivity.
  - simpl; f_equal.
    apply flat_map_ext; intros i.
    rewrite (Index_map Jq.visit); destruct (Index ix i); reflexivity.
Qed.

(** C10: [walk] is a total function that returns no error.  It emits its
    input first; below an Object it descends into the values of the keys in
    the order of [Keys] (sorted), below an Array into the elements in index
    order, and a hole contributes nothing. *)
Theorem walk_total_preorder (v : Value) :
  Jq.walk v = Ok (Jq.visit v) /\
  (forall attr, v = attrType attr ->
     Jq.visit v =
     v :: flat_map (fun key =>
            match Attr attr key with
            | Some value => Jq.visit value
            | None => []
            end) (Keys attr) /\
     Keys attr = map stringType (sort_keys (map_keys attr)) /\
     Sorted (fun k1 k2 => String.leb k1 k2 = true)
       (sort_keys (map_keys attr))) /\
  (forall index, v = indexType index ->
     Jq.visit v =
     v :: flat_map (fun slot =>
            match slot with
            | Some value => Jq.visit value
            | None => []
            end) index) /\
  (IsNull v = true \/ AsBool v <> None \/ AsFloat64 v <> None \/
   AsString v <> None ->
   Jq.visit v = [v]).
Proof.
  split; [reflexivity|split; [|split]].
  - intros attr ->; split; [apply visit_unfold|].
    split; [reflexivity|apply sort_keys_sorted].
  - intros index ->; rewrite visit_unfold; f_equal.
    unfold IndexLength.
    set (g := fun slot : option Value =>
                match slot with
                | Some value => Jq.visit value
                | None => []
                end).
    replace (flat_map g index)
      with (flat_map g (map (Index index) (range 0 (len index))))
      by (now rewrite map_Index_range).
    rewrite (flat_map_concat_map g), map_map, <- flat_map_concat_map.
    reflexivity.
  - destruct v; simpl; intros [H|[H|[H|H]]];
      try discriminate; try congruence; reflexivity.
Qed.

Lemma walk_total_preorder_witness :
  Jq.walk (attrType [("b", float64Type 3);
                     ("a", indexType [Some (boolType true); None])]) =
  Ok [attrType [("b", float64Type 3);
                ("a", indexType [Some (boolType true); None])];
      indexType [Some (boolType true); None];
      boolType true;
      float64Type 3] /\
  Jq.visit (indexType [None; Some nullType]) =
  [indexType [None; Some nullType]; nullType] /\
  Jq.visit (stringType "s") = [stringType "s"].
Proof.
  split; [|split].
  - destruct (walk_total_preorder
                (attrType [("b", float64Type 3);
                           ("a", indexType [Some (boolType true); None])]))
      as (Hw & Hattr & _).
    rewrite Hw.
    destruct (Hattr _ eq_refl) as (Hv & _); rewrite Hv; reflexivity.
  - destruct (walk_total_preorder (indexType [None; Some nullType]))
      as (_ & _ & Hindex & _).
    rewrite (Hindex _ eq_refl); reflexivity.
  - destruct (walk_total_preorder (stringType "s")) as (_ & _ & _ & Hleaf).
    apply Hleaf; right; right; right; discriminate.
Defined.

(** ** Iteration and slicing of Arrays *)

Lemma Index_nth_error {V} (ix : list (option V)) (k : nat) (slot : option V) :
  nth_error ix k = Some slot -> Index ix (Z.of_nat k) = slot.
Proof.
  intros H; rewrite Index_of_nat, H; destruct slot; reflexivity.
Qed.

(** Reading the positions [b <= i < e] through [Index]. *)
Lemma map_Index_sublist {V} (ix : list (option V)) (b e : Z) :
  0 <= b -> e <= len ix ->
  map (Index ix) (range b e) = sublist b e ix.
Proof.
  intros Hb He; unfold sublist, range, len in *.
  rewrite map_map.
  apply nth_error_ext; intros k.
  rewrite nth_error_map, nth_error_seq, nth_error_firstn.
  destruct (Nat.ltb_spec k (Z.to_nat (e - b))) as [Hk|Hk]; simpl;
    [|reflexivity].
  rewrite nth_error_skipn.
  replace (b + Z.of_nat (0 + k)) with (Z.of_nat (Z.to_nat b + k)) by lia.
  replace (b + Z.of_nat k) with (Z.of_nat (Z.to_nat b + k)) by lia.
  destruct (nth_error ix (Z.to_nat b + k)) as [slot|] eqn:E.
  - now rewrite (Index_nth_error _ _ _ E).
  - apply nth_error_None in E; lia.
Qed.

Lemma flat_map_present {V} (slots : list (option V)) :
  flat_map (fun slot => match slot with
                        | Some elem => [Some elem]
                        | None => []
                        end) slots = drop_holes slots.
Proof.
  induction slots as [|[v|] slots IH]; simpl; [reflexivity| |assumption].
  now rewrite IH.
Qed.

(** The loop of [iterate]. *)
Lemma iterate_array (ix : list (option Value)) :
  Jq.iterate (indexType ix) =
  Ok (map (fun slot => match slot with
                       | Some elem => elem
                       | None => nullType
                       end) ix).
Proof.
  unfold Jq.iterate, IndexLength.
  rewrite (for_each_total _ _ _
             (fun i elems =>
                elems ++ [match Index ix i with
                          | Some elem => elem
                          | None => nullType
                          end]))
    by (intros i elems _; destruct (Index ix i); reflexivity).
  rewrite (fold_left_append
             (fun i => [match Index ix i with
                        | Some elem => elem
                        | None => nullType
                        end])); simpl.
  f_equal.
  rewrite <- (map_Index_range ix) at 2.
  rewrite map_map, flat_map_concat_map.
  induction (range 0 (len ix)) as [|i l IH]; simpl; [reflexivity|].
  now rewrite IH.
Qed.

Section SliceArray.

Variable int_indefinite : float -> Z.

Lemma clampIndex_number (f : float) (n : Z) :
  0 <= n ->
  exists i,
    Jq.clampIndex int_indefinite (float64Type f) n = Ok i /\
    i = Z.max 0 (Z.min n (let t := int_of_float64 int_indefinite f in
                          if t <? 0 then t + n else t)) /\
    0 <= i <= n.
Proof.
  intros Hn; eexists; split; [reflexivity|].
  cbv zeta.
  set (t := int_of_float64 int_indefinite f).
  destruct (Z.ltb_spec t 0);
    repeat match goal with
           | |- context [?a <? ?b] => destruct (Z.ltb_spec a b)
           | |- context [?a >? ?b] =>
               rewrite (Z.gtb_ltb a b); destruct (Z.ltb_spec b a)
           end; lia.
Qed.

Lemma bound_range (b : option Value) (default n i : Z) :
  0 <= default <= n ->
  bound int_indefinite b default n = Ok i -> 0 <= i <= n.
Proof.
  intros Hd; unfold bound; destruct b as [idx|].
  - unfold Jq.clampIndex; destruct (AsFloat64 idx) as [f|] eqn:E;
      [|discriminate].
    destruct idx; try discriminate; injection E as ->.
    destruct (clampIndex_number f n ltac:(lia)) as (j & Hj & _ & Hr).
    unfold Jq.clampIndex in Hj; simpl in Hj.
    intros H; rewrite Hj in H; injection H as <-; exact Hr.
  - intros H; injection H as <-; exact Hd.
Qed.

(** The loop of [slice] over an Array. *)
Lemma slice_loop (ix : list (option Value)) (beginI endI : Z) :
  0 <= beginI -> endI <= len ix ->
  for_each (range beginI endI) [] (fun i elems =>
    match Index ix i with
    | Some elem => Ok (elems ++ [Some elem])
    | None => Ok elems
    end) = Ok (drop_holes (sublist beginI endI ix)).
Proof.
  intros Hb He.
  rewrite (for_each_total _ _ _
             (fun i elems =>
                elems ++ match Index ix i with
                         | Some elem => [Some elem]
                         | None => []
                         end))
    by (intros i elems _; destruct (Index ix i);
        [reflexivity|now rewrite app_nil_r]).
  rewrite (fold_left_append
             (fun i => match Index ix i with
                       | Some elem => [Some elem]
                       | None => []
                       end)); simpl.
  f_equal.
  rewrite <- map_Index_sublist, <- flat_map_present by lia.
  rewrite (flat_map_concat_map _ (map _ _)), map_map, <- flat_map_concat_map.
  reflexivity.
Qed.

(** [slice] on an Array whose bounds resolve to [beginI <= endI]. *)
Lemma slice_array (ix : list (option Value)) (begin end_ : option Value)
    (beginI endI : Z) :
  bound int_indefinite begin 0 (len ix) = Ok beginI ->
  bound int_indefinite end_ (len ix) (len ix) = Ok endI ->
  beginI <= endI ->
  Jq.slice int_indefinite (indexType ix) begin end_ =
  Ok [indexType (drop_holes (sublist beginI endI ix))].
Proof.
  intros Hb He Hle.
  pose proof (len_nonneg ix) as Hn.
  assert (Hbr : 0 <= beginI <= len ix)
    by (apply (bound_range begin 0 (len ix)); [lia|exact Hb]).
  assert (Her : 0 <= endI <= len ix)
    by (apply (bound_range end_ (len ix) (len ix)); [lia|exact He]).
  assert (Hrun : (if endI - beginI <? 0 then Panic PanicMakeslice
                  else
                    bind (for_each (range beginI endI) [] (fun i elems =>
                            match Index ix i with
                            | Some elem => Ok (elems ++ [Some elem])
                            | None => Ok elems
                            end)) (fun elems =>
                    bind (Must (ToValue (AnySliceValue elems))) (fun list =>
                    Ok [list]))) =
                 Ok [indexType (drop_holes (sublist beginI endI ix))]).
  { destruct (Z.ltb_spec (endI - beginI) 0); [lia|].
    rewrite slice_loop by lia; reflexivity. }
  unfold bound in Hb, He.
  unfold Jq.slice; simpl; unfold IndexLength.
  destruct begin as [b|]; [rewrite Hb|injection Hb as <-]; simpl;
    (destruct end_ as [e|]; [rewrite He|injection He as <-]; simpl);
    exact Hrun.
Qed.

End SliceArray.

(** ** Equality *)

Lemma forallb_pointwise {A} (p q : A -> bool) (l : list A) :
  (forall a, p a = q a) -> forallb p l = forallb q l.
Proof.
  intros H; induction l as [|a l IH]; simpl; [reflexivity|].
  now rewrite H, IH.
Qed.

(** [Equal] on two Arrays, with the loop of the source. *)
Lemma Equal_index (li ri : list (option Value)) :
  Equal (indexType li) (indexType ri) =
  if negb (len li =? len ri) then false
  else Equal_elems li ri (range 0 (len li)).
Proof.
  simpl; unfold IndexLength.
  destruct (negb (len li =? len ri)); [reflexivity|].
  unfold equal_index_loop, Equal_elems.
  apply forallb_pointwise; intros i.
  rewrite (Index_map Equal); destruct (Index li i); reflexivity.
Qed.

Lemma equal_attr_loop_Equal (la ra : gomap Value) (lks rks : list string) :
  equal_attr_loop equal_key (map (fun '(k, v) => (k, Equal v)) la) ra
    (map stringType lks) (map stringType rks) =
  Equal_attrs la ra (map stringType lks) (map stringType rks).
Proof.
  revert rks; induction lks as [|lk lks IH]; intros rks; simpl;
    [reflexivity|].
  destruct rks as [|rk rks]; simpl; [reflexivity|].
  destruct (String.eqb lk rk); simpl; [|reflexivity].
  rewrite (Attr_map Equal).
  destruct (Attr la (stringType lk)) as [lvalue|]; [|reflexivity].
  destruct (Attr ra (stringType rk)) as [rvalue|]; [|reflexivity].
  destruct (Equal lvalue rvalue); simpl; [apply IH|reflexivity].
Qed.

(** [Equal] on two Objects, with the loop of the source. *)
Lemma Equal_attr (la ra : gomap Value) :
  Equal (attrType la) (attrType ra) =
  if negb (len (Keys la) =? len (Keys ra)) then false
  else Equal_attrs la ra (Keys la) (Keys ra).
Proof.
  simpl.
  destruct (negb (len (Keys la) =? len (Keys ra))); [reflexivity|].
  apply equal_attr_loop_Equal.
Qed.

(** An Array with a hole differs from an Array with a value there. *)
Lemma Equal_hole (l r : list (option Value)) (i : Z) (v : Value) :
  Index l i = None -> Index r i = Some v ->
  Equal (indexType l) (indexType r) = false /\
  Equal (indexType r) (indexType l) = false.
Proof.
  intros Hl Hr.
  assert (Hi : 0 <= i < len r).
  { destruct (Z.lt_ge_cases i 0) as [H|H];
      [rewrite Index_negative in Hr by assumption; discriminate|].
    destruct (Z.lt_ge_cases i (len r)) as [H'|H']; [lia|].
    rewrite Index_beyond in Hr by assumption; discriminate. }
  rewrite !Equal_index.
  destruct (Z.eqb_spec (len l) (len r)) as [E|E];
    [|split; [reflexivity|]; destruct (Z.eqb_spec (len r) (len l));
      [congruence|reflexivity]].
  rewrite E, Z.eqb_refl; simpl.
  split; apply not_true_is_false; unfold Equal_elems;
    rewrite forallb_forall; intros H;
    specialize (H i (proj2 (in_range 0 (len r) i) Hi));
    rewrite Hl, Hr in H; discriminate.
Qed.

(** ** Holes of Arrays (C2) *)

(** C2, counterexample: iteration does not skip a hole, it emits Null in
    its place. *)
Lemma iterate_hole_is_null :
  Jq.iterate (indexType [None; Some (float64Type 1)]) =
    Ok [nullType; float64Type 1] /\
  Jq.iterate (indexType [None; Some (float64Type 1)]) <>
    Ok [float64Type 1].
Proof.
  split; [reflexivity|discriminate].
Qed.

(** C2, as amended: iteration [.[]] emits the elements in index order with
    Null in the place of every hole; slicing [.[b:e]] (with bounds that
    resolve to [b <= e]) returns the elements of the range without the
    holes; and an Array with a hole at a position differs, under [Equal],
    from an Array with a value at that position, Null included. *)
Theorem array_holes (int_indefinite : float -> Z)
    (ix : list (option Value)) :
  Jq.iterate (indexType ix) =
    Ok (map (fun slot => match slot with
                         | Some elem => elem
                         | None => nullType
                         end) ix) /\
  (forall begin end_ beginI endI,
      bound int_indefinite begin 0 (len ix) = Ok beginI ->
      bound int_indefinite end_ (len ix) (len ix) = Ok endI ->
      beginI <= endI ->
      Jq.slice int_indefinite (indexType ix) begin end_ =
        Ok [indexType (drop_holes (sublist beginI endI ix))] /\
      Forall (fun slot => slot <> None)
        (drop_holes (sublist beginI endI ix))) /\
  (forall r i v,
      Index ix i = None -> Index r i = Some v ->
      Equal (indexType ix) (indexType r) = false /\
      Equal (indexType r) (indexType ix) = false).
Proof.
  split; [apply iterate_array|split].
  - intros begin end_ beginI endI Hb He Hle.
    split; [now apply slice_array|].
    apply Forall_forall; intros slot Hin.
    apply filter_In in Hin; destruct slot; [discriminate|].
    destruct Hin as [_ Hin]; discriminate Hin.
  - intros r i v; apply Equal_hole.
Qed.

Lemma array_holes_witness :
  let ix := [Some (stringType "a"); None; Some nullType] in
  Jq.slice (fun _ => - 2 ^ 63) (indexType ix)
    (Some (float64Type 1)) None = Ok [indexType [Some nullType]] /\
  Equal (indexType ix)
    (indexType [Some (stringType "a"); Some nullType; Some nullType]) =
    false.
Proof.
  intros ix.
  destruct (array_holes (fun _ => - 2 ^ 63) ix) as (_ & Hslice & Heq).
  split.
  - apply (Hslice (Some (float64Type 1)) None 1 3); [reflexivity|reflexivity|].
    lia.
  - apply (Heq [Some (stringType "a"); Some nullType; Some nullType]
             1 nullType); reflexivity.
Defined.

(** ** Slicing (C5) *)

(** [truncate] rounds toward zero: the magnitude of the result is the
    integer part of the magnitude [m * 2^e] of the float, and the sign is
    kept. *)
Lemma truncate_toward_zero (f : float) (s : bool) (m : positive) (e : Z) :
  Prim2SF f = S754_finite s m e ->
  exists a,
    truncate f = Some (if s then - a else a) /\
    (0 <= e -> a = Zpos m * 2 ^ e) /\
    (e < 0 -> a * 2 ^ (- e) <= Zpos m < (a + 1) * 2 ^ (- e)).
Proof.
  intros H; unfold truncate; rewrite H.
  destruct (Z.leb_spec 0 e) as [He|He]; eexists; split; try reflexivity.
  - split; [intros _; apply Z.shiftl_mul_pow2; assumption|lia].
  - split; [lia|intros _].
    rewrite Z.shiftr_div_pow2 by lia.
    assert (Hp : 0 < 2 ^ (- e)) by (apply Z.pow_pos_nonneg; lia).
    pose proof (Z.mul_div_le (Zpos m) _ Hp).
    pose proof (Z.mul_succ_div_gt (Zpos m) _ Hp).
    lia.
Qed.

(** Whatever the implementation yields out of range, [int(f)] is an
    [int]. *)
Lemma wrap64_is_int64 (z : Z) : is_int64 (wrap64 z) = true.
Proof.
  unfold is_int64, wrap64.
  pose proof (Z.mod_pos_bound (z + 2 ^ 63) (2 ^ 64) ltac:(lia)) as H.
  apply andb_true_iff; split; [apply Z.leb_le|apply Z.ltb_lt]; lia.
Qed.

(** C5, counterexample: on the bound [-0.5] and an Array of length 4 the
    code truncates first and obtains 0, while the order of the claim (add
    the length, clamp, then truncate) obtains 3; so [.[-0.5:]] returns the
    whole Array and not its last element. *)
Lemma clampIndex_truncates_first :
  Jq.clampIndex (fun _ => - 2 ^ 63) (float64Type (-0.5)) 4 = Ok 0 /\
  clampIndex_as_specified (fun _ => - 2 ^ 63) (float64Type (-0.5)) 4 =
    Ok 3 /\
  Jq.slice (fun _ => - 2 ^ 63)
    (indexType [Some (stringType "a"); Some (stringType "b");
                Some (stringType "c"); Some (stringType "d")])
    (Some (float64Type (-0.5))) None =
  Ok [indexType [Some (stringType "a"); Some (stringType "b");
                 Some (stringType "c"); Some (stringType "d")]].
Proof.
  split; [|split]; vm_compute; reflexivity.
Qed.

(** C5, as amended: a Null input yields Null.  Otherwise, on an Array or a
    Text, every present bound must be a Number, else the error "index must
    be number".  A bound is normalized by these steps: it is first
    converted to an integer by Go's conversion [int(f)]; then, if that
    integer is negative, the length is added; then it is clamped into
    [0, length].  The conversion [int(f)] is truncation toward zero when
    [f] is finite and its integer part fits a 64-bit [int]; when [f] is
    NaN or infinite, or its integer part does not fit, Go leaves the
    result to the implementation, and the bound is normalized from that
    value (-2^63 on amd64, so that [.[:1e19]] is the empty Array).  An
    Array whose normalized bounds satisfy [begin <= end] yields a new
    Array of the elements of that range that are not holes. *)
Theorem slice_normalized_bounds (int_indefinite : float -> Z) :
  (forall begin end_,
      Jq.slice int_indefinite nullType begin end_ = Ok [nullType]) /\
  (forall base n begin end_ b,
      IsNull base = false -> Length base = Some n ->
      begin = Some b -> AsFloat64 b = None ->
      Jq.slice int_indefinite base begin end_ = Error ErrIndexMustBeNumber) /\
  (forall base n begin end_ beginI e,
      IsNull base = false -> Length base = Some n ->
      bound int_indefinite begin 0 n = Ok beginI ->
      end_ = Some e -> AsFloat64 e = None ->
      Jq.slice int_indefinite base begin end_ = Error ErrIndexMustBeNumber) /\
  (forall f n,
      0 <= n ->
      Jq.clampIndex int_indefinite (float64Type f) n =
      Ok (Z.max 0 (Z.min n (let t := int_of_float64 int_indefinite f in
                            if t <? 0 then t + n else t)))) /\
  (forall f z,
      truncate f = Some z -> is_int64 z = true ->
      int_of_float64 int_indefinite f = z) /\
  (forall f s m e,
      Prim2SF f = S754_finite s m e ->
      exists a,
        truncate f = Some (if s then - a else a) /\
        (0 <= e -> a = Zpos m * 2 ^ e) /\
        (e < 0 -> a * 2 ^ (- e) <= Zpos m < (a + 1) * 2 ^ (- e))) /\
  (forall f,
      truncate f = None <->
      Prim2SF f = S754_nan \/ exists s, Prim2SF f = S754_infinity s) /\
  (forall f,
      truncate f = None \/
      (exists z, truncate f = Some z /\ is_int64 z = false) ->
      int_of_float64 int_indefinite f = wrap64 (int_indefinite f) /\
      is_int64 (int_of_float64 int_indefinite f) = true) /\
  (forall ix begin end_ beginI endI,
      bound int_indefinite begin 0 (len ix) = Ok beginI ->
      bound int_indefinite end_ (len ix) (len ix) = Ok endI ->
      beginI <= endI ->
      Jq.slice int_indefinite (indexType ix) begin end_ =
      Ok [indexType (drop_holes (sublist beginI endI ix))]).
Proof.
  split; [reflexivity|].
  split; [|split; [|split; [|split; [|split; [|split; [|split]]]]]].
  - intros base n begin end_ b Hnull Hlen -> Hb.
    unfold Jq.slice; rewrite Hnull, Hlen; simpl.
    unfold Jq.clampIndex; rewrite Hb; reflexivity.
  - intros base n begin end_ beginI e Hnull Hlen Hb -> He.
    unfold Jq.slice; rewrite Hnull, Hlen.
    unfold bound in Hb.
    destruct begin as [b|]; [rewrite Hb|injection Hb as <-]; simpl;
      unfold Jq.clampIndex; rewrite He; reflexivity.
  - intros f n Hn.
    destruct (clampIndex_number int_indefinite f n Hn) as (i & Hi & -> & _).
    exact Hi.
  - intros f z Ht Hz; unfold int_of_float64; rewrite Ht, Hz; reflexivity.
  - apply truncate_toward_zero.
  - intros f; unfold truncate.
    destruct (Prim2SF f) as [s|s| |s m e]; split;
      try discriminate; try reflexivity.
    + intros [H|[s' H]]; discriminate H.
    + intros _; right; exists s; reflexivity.
    + intros _; left; reflexivity.
    + intros [H|[s' H]]; discriminate H.
  - intros f H.
    assert (E : int_of_float64 int_indefinite f =
                wrap64 (int_indefinite f)).
    { unfold int_of_float64.
      destruct H as [->|(z & -> & ->)]; reflexivity. }
    split; [exact E|rewrite E; apply wrap64_is_int64].
  - apply slice_array.
Qed.

Lemma slice_normalized_bounds_witness :
  let ix := [Some (stringType "a"); None; Some (stringType "c");
             Some (stringType "d")] in
  Jq.slice (fun _ => - 2 ^ 63) (indexType ix)
    (Some (stringType "foo")) None = Error ErrIndexMustBeNumber /\
  Jq.slice (fun _ => - 2 ^ 63) (stringType "abc")
    None (Some (boolType true)) = Error ErrIndexMustBeNumber /\
  Jq.clampIndex (fun _ => - 2 ^ 63) (float64Type (-1.5)) 4 = Ok 3 /\
  int_of_float64 (fun _ => - 2 ^ 63) (-1.5) = -1 /\
  (exists a,
      truncate (-1.5) = Some (- a) /\
      (0 <= -52 -> a = 6755399441055744 * 2 ^ (-52)) /\
      (-52 < 0 ->
       a * 2 ^ 52 <= 6755399441055744 < (a + 1) * 2 ^ 52)) /\
  truncate infinity = None /\
  (int_of_float64 (fun _ => - 2 ^ 63) 1e19 = wrap64 (- 2 ^ 63) /\
   is_int64 (int_of_float64 (fun _ => - 2 ^ 63) 1e19) = true) /\
  Jq.slice (fun _ => - 2 ^ 63) (indexType ix)
    (Some (float64Type 1)) (Some (float64Type (-1))) =
  Ok [indexType [Some (stringType "c")]] /\
  Jq.slice (fun _ => - 2 ^ 63) (indexType ix)
    None (Some (float64Type 1e19)) = Ok [indexType []].
Proof.
  intros ix.
  destruct (slice_normalized_bounds (fun _ => - 2 ^ 63))
    as (_ & Hbegin & Hend & Hclamp & Htrunc & Hzero & Hnone & Hout & Harr).
  split; [|split; [|split; [|split; [|split; [|split; [|split; [|split]]]]]]].
  - apply (Hbegin (indexType ix) 4 _ _ (stringType "foo")); reflexivity.
  - apply (Hend (stringType "abc") 3 None _ 0 (boolType true)); reflexivity.
  - apply (Hclamp (-1.5)%float 4); lia.
  - apply Htrunc; reflexivity.
  - apply (Hzero (-1.5)%float true 6755399441055744%positive (-52));
      reflexivity.
  - apply Hnone; right; exists false; reflexivity.
  - apply Hout; right; exists (10 ^ 19); split; reflexivity.
  - apply (Harr ix _ _ 1 3); [reflexivity|reflexivity|lia].
  - apply (Harr ix _ _ 0 0); [reflexivity|reflexivity|lia].
Defined.

(** ** Equality is an equivalence away from NaN (C3) *)

Ltac absurd_iff :=
  simpl; split; intros H; solve [discriminate H | destruct H].

Lemma SFeqb_same (x y : spec_float) : SFeqb x y = true <-> sf_same x y.
Proof.
  unfold SFeqb, SFcompare, sf_same.
  destruct x as [s1|s1| |s1 m1 e1], y as [s2|s2| |s2 m2 e2];
    try absurd_iff;
    try (destruct s1; absurd_iff);
    try (destruct s2; absurd_iff).
  - split; auto.
  - destruct s1, s2; try absurd_iff; split; reflexivity.
  - destruct s1, s2;
      try (simpl; split; [discriminate|intros (H & _); discriminate H]);
      (destruct (Z.compare_spec e1 e2) as [He|He|He];
       [subst e2|split; [discriminate|intros (_ & _ & H); lia]..]);
      change (PosDef.Pos.compare_cont Eq m1 m2) with (Pos.compare m1 m2);
      (destruct (Pos.compare_spec m1 m2) as [Hm|Hm|Hm];
       [subst m2; split; auto
       |split; [discriminate|intros (_ & H & _); lia]..]).
Qed.

Lemma float_eqb_same (x y : float) :
  PrimFloat.eqb x y = true <-> sf_same (Prim2SF x) (Prim2SF y).
Proof. rewrite FloatAxioms.eqb_spec; apply SFeqb_same. Qed.

Lemma sf_same_sym (x y : spec_float) : sf_same x y -> sf_same y x.
Proof.
  destruct x, y; simpl; auto.
  intros (-> & -> & ->); auto.
Qed.

Lemma sf_same_trans (x y z : spec_float) :
  sf_same x y -> sf_same y z -> sf_same x z.
Proof.
  destruct x, y, z; simpl; try contradiction; auto; try congruence.
  intros (-> & -> & ->); auto.
Qed.

Lemma float_eqb_sym (x y : float) : PrimFloat.eqb x y = PrimFloat.eqb y x.
Proof.
  destruct (PrimFloat.eqb x y) eqn:E1, (PrimFloat.eqb y x) eqn:E2;
    try reflexivity.
  - apply float_eqb_same, sf_same_sym, float_eqb_same in E1; congruence.
  - apply float_eqb_same, sf_same_sym, float_eqb_same in E2; congruence.
Qed.

Lemma float_eqb_trans (x y z : float) :
  PrimFloat.eqb x y = true -> PrimFloat.eqb y z = true ->
  PrimFloat.eqb x z = true.
Proof.
  rewrite !float_eqb_same; apply sf_same_trans.
Qed.

Lemma float_eqb_refl (x : float) :
  PrimFloat.is_nan x = false -> PrimFloat.eqb x x = true.
Proof.
  unfold PrimFloat.is_nan; intros H.
  now destruct (PrimFloat.eqb x x).
Qed.

(** Induction on a value, with the hypothesis for every value stored in an
    Object or an Array. *)
Lemma Value_induction (P : Value -> Prop) :
  P nullType ->
  (forall b, P (boolType b)) ->
  (forall f, P (float64Type f)) ->
  (forall s, P (stringType s)) ->
  (forall a, (forall k v, In (k, v) a -> P v) -> P (attrType a)) ->
  (forall ix, (forall v, In (Some v) ix -> P v) -> P (indexType ix)) ->
  forall v, P v.
Proof.
  intros Hnull Hbool Hfloat Hstring Hattr Hindex.
  fix IH 1; intros [ |b|f|s|a|ix].
  - apply Hnull.
  - apply Hbool.
  - apply Hfloat.
  - apply Hstring.
  - apply Hattr.
    induction a as [|[k v] a IHa]; intros k' v' Hin; [destruct Hin|].
    destruct Hin as [E|Hin]; [|exact (IHa k' v' Hin)].
    injection E as _ <-; apply IH.
  - apply Hindex.
    induction ix as [|slot ix IHix]; intros v' Hin; [destruct Hin|].
    destruct Hin as [E|Hin]; [|exact (IHix v' Hin)].
    destruct slot as [v|]; [|discriminate E].
    injection E as <-; apply IH.
Qed.

(** *** The keys of an Object *)

Lemma in_insert_key (k k' : string) (ks : list string) :
  In k (insert_key k' ks) <-> k' = k \/ In k ks.
Proof.
  induction ks as [|k0 ks IH]; simpl; [tauto|].
  destruct (String.leb k' k0); simpl; rewrite ?IH; tauto.
Qed.

Lemma in_sort_keys (k : string) (ks : list string) :
  In k (sort_keys ks) <-> In k ks.
Proof.
  induction ks as [|k0 ks IH]; simpl; [tauto|].
  rewrite in_insert_key, IH; tauto.
Qed.

Lemma in_map_keys {V} (k : string) (a : gomap V) :
  In k (map_keys a) -> In k (map fst a).
Proof.
  induction a as [|[k0 v0] a IH]; simpl; [tauto|].
  intros [E|Hin]; [left; assumption|right].
  apply filter_In in Hin; tauto.
Qed.

Lemma map_get_in {V} (a : gomap V) (k : string) (v : V) :
  map_get a k = Some v -> In (k, v) a.
Proof.
  induction a as [|[k0 v0] a IH]; simpl; [discriminate|].
  destruct (String.eqb_spec k0 k) as [->|Hne].
  - intros E; injection E as ->; left; reflexivity.
  - intros E; right; auto.
Qed.

Lemma map_get_key {V} (a : gomap V) (k : string) :
  In k (map fst a) -> exists v, map_get a k = Some v.
Proof.
  induction a as [|[k0 v0] a IH]; simpl; [tauto|].
  destruct (String.eqb_spec k0 k) as [->|Hne]; [eauto|].
  intros [E|Hin]; [contradiction|auto].
Qed.

(** Every key that [Keys] lists has a value. *)
Lemma Keys_have_values {V} (a : gomap V) (k : string) :
  In k (sort_keys (map_keys a)) ->
  exists v, Attr a (stringType k) = Some v /\ In (k, v) a.
Proof.
  intros Hin; apply in_sort_keys, in_map_keys, map_get_key in Hin.
  destruct Hin as [v Hv]; exists v; split; [exact Hv|].
  now apply map_get_in.
Qed.

Lemma Attr_in {V} (a : gomap V) (key : Value) (v : V) :
  Attr a key = Some v -> exists k, In (k, v) a.
Proof.
  unfold Attr; destruct (AsString key) as [k|]; [|discriminate].
  intros H; exists k; now apply map_get_in.
Qed.

Lemma Index_in {V} (ix : list (option V)) (i : Z) (v : V) :
  Index ix i = Some v -> In (Some v) ix.
Proof.
  unfold Index.
  destruct ((i <? 0) || (i >=? len ix)); [discriminate|].
  destruct (nth_error ix (Z.to_nat i)) as [[v'|]|] eqn:E; try discriminate.
  intros H; injection H as <-; eapply nth_error_In; eassumption.
Qed.

(** *** Symmetry *)

Lemma Equal_attrs_sym (la ra : gomap Value) :
  (forall k v, In (k, v) la -> forall r, Equal v r = Equal r v) ->
  forall lks rks : list string,
    List.length lks = List.length rks ->
    Equal_attrs la ra (map stringType lks) (map stringType rks) =
    Equal_attrs ra la (map stringType rks) (map stringType lks).
Proof.
  intros IH lks; induction lks as [|lk lks IHl]; intros [|rk rks] Hlen;
    try discriminate Hlen; simpl; [reflexivity|].
  rewrite (String.eqb_sym rk lk).
  destruct (String.eqb lk rk); simpl; [|reflexivity].
  destruct (Attr la (stringType lk)) as [lvalue|] eqn:El;
    destruct (Attr ra (stringType rk)) as [rvalue|]; try reflexivity.
  destruct (Attr_in _ _ _ El) as [k Hin].
  rewrite (IH k lvalue Hin rvalue).
  destruct (Equal rvalue lvalue); simpl; [|reflexivity].
  apply IHl; simpl in Hlen; lia.
Qed.

Lemma Equal_elems_sym (li ri : list (option Value)) (idxs : list Z) :
  (forall v, In (Some v) li -> forall r, Equal v r = Equal r v) ->
  Equal_elems li ri idxs = Equal_elems ri li idxs.
Proof.
  intros IH; apply forallb_pointwise; intros i.
  destruct (Index li i) as [le|] eqn:El, (Index ri i) as [re|];
    try reflexivity.
  apply IH; eapply Index_in; eassumption.
Qed.

Lemma Equal_sym (l r : Value) : Equal l r = Equal r l.
Proof.
  revert r; induction l as [ |lb|lf|ls|la IH|li IH] using Value_induction;
    intros [ |rb|rf|rs|ra|ri]; try reflexivity.
  - simpl; destruct lb, rb; reflexivity.
  - apply float_eqb_sym.
  - apply String.eqb_sym.
  - rewrite !Equal_attr, (Z.eqb_sym (len (Keys ra))).
    destruct (Z.eqb_spec (len (Keys la)) (len (Keys ra))) as [E|E];
      [simpl|reflexivity].
    unfold Keys in *; apply Equal_attrs_sym; [exact IH|].
    unfold len in E; rewrite !length_map in E; lia.
  - rewrite !Equal_index, (Z.eqb_sym (len ri)).
    destruct (Z.eqb_spec (len li) (len ri)) as [E|E]; [simpl|reflexivity].
    rewrite <- E; apply Equal_elems_sym; exact IH.
Qed.

(** *** Transitivity *)

Lemma Equal_attrs_trans (a b c : gomap Value) :
  (forall k v, In (k, v) a ->
     forall y z, Equal v y = true -> Equal y z = true -> Equal v z = true) ->
  forall ka kb kc : list string,
    Equal_attrs a b (map stringType ka) (map stringType kb) = true ->
    Equal_attrs b c (map stringType kb) (map stringType kc) = true ->
    Equal_attrs a c (map stringType ka) (map stringType kc) = true.
Proof.
  intros IH ka; induction ka as [|k1 ka IHk]; intros kb kc; [reflexivity|].
  destruct kb as [|k2 kb]; [discriminate|].
  destruct kc as [|k3 kc]; simpl.
  { destruct (String.eqb k1 k2); simpl; [|discriminate].
    intros _ H; discriminate H. }
  destruct (String.eqb_spec k1 k2) as [<-|]; simpl; [|discriminate].
  destruct (String.eqb_spec k1 k3) as [<-|]; simpl; [|intros _ H; discriminate H].
  destruct (Attr a (stringType k1)) as [va|] eqn:Ea; [|discriminate].
  destruct (Attr b (stringType k1)) as [vb|]; [|discriminate].
  destruct (Attr c (stringType k1)) as [vc|]; [|intros _ H; discriminate H].
  destruct (Equal va vb) eqn:Eab; simpl; [|discriminate].
  destruct (Equal vb vc) eqn:Ebc; simpl; [|intros _ H; discriminate H].
  destruct (Attr_in _ _ _ Ea) as [k Hin].
  rewrite (IH k va Hin vb vc Eab Ebc); simpl.
  apply IHk.
Qed.

Lemma Equal_elems_true (li ri : list (option Value)) (n : Z) :
  Equal_elems li ri (range 0 n) = true <->
  forall i, 0 <= i < n ->
    match Index li i, Index ri i with
    | Some le, Some re => Equal le re = true
    | None, None => True
    | _, _ => False
    end.
Proof.
  unfold Equal_elems; rewrite forallb_forall; split.
  - intros H i Hi; specialize (H i (proj2 (in_range 0 n i) Hi)).
    destruct (Index li i), (Index ri i); auto; discriminate.
  - intros H i Hi; apply in_range in Hi; specialize (H i Hi).
    destruct (Index li i), (Index ri i); auto; contradiction.
Qed.

Lemma Equal_trans (a b c : Value) :
  Equal a b = true -> Equal b c = true -> Equal a c = true.
Proof.
  revert b c; induction a as [ |x|x|x|la IH|li IH] using Value_induction;
    intros [ |y|y|y|lb|lb] [ |z|z|z|lc|lc]; try discriminate;
    try (intros _ H; discriminate H); try reflexivity.
  - simpl; destruct x, y, z; auto.
  - apply float_eqb_trans.
  - simpl; intros H1 H2; apply String.eqb_eq in H1, H2; subst.
    apply String.eqb_refl.
  - rewrite !Equal_attr.
    destruct (Z.eqb_spec (len (Keys la)) (len (Keys lb))) as [E1|];
      [simpl|discriminate].
    destruct (Z.eqb_spec (len (Keys lb)) (len (Keys lc))) as [E2|];
      [simpl|intros _ H; discriminate H].
    rewrite E1, E2, Z.eqb_refl; simpl.
    unfold Keys; apply Equal_attrs_trans; exact IH.
  - rewrite !Equal_index.
    destruct (Z.eqb_spec (len li) (len lb)) as [E1|];
      [simpl|discriminate].
    destruct (Z.eqb_spec (len lb) (len lc)) as [E2|];
      [simpl|intros _ H; discriminate H].
    rewrite <- E2, <- E1, Z.eqb_refl; simpl.
    rewrite !Equal_elems_true; intros H1 H2 i Hi.
    specialize (H1 i Hi); specialize (H2 i Hi).
    destruct (Index li i) as [va|] eqn:Ea, (Index lb i) as [vb|],
      (Index lc i) as [vc|]; try contradiction; auto.
    apply (IH va (Index_in _ _ _ Ea) vb vc H1 H2).
Qed.

(** *** Reflexivity *)

Lemma Equal_refl (v : Value) : no_nan v = true -> Equal v v = true.
Proof.
  induction v as [ |b|f|s|a IH|ix IH] using Value_induction; simpl no_nan;
    intros Hnan.
  - reflexivity.
  - simpl; destruct b; reflexivity.
  - apply float_eqb_refl; now destruct (PrimFloat.is_nan f).
  - apply String.eqb_refl.
  - rewrite Equal_attr, Z.eqb_refl; simpl; unfold Keys.
    rewrite forallb_forall in Hnan.
    assert (G : forall ks,
               (forall k, In k ks -> In k (sort_keys (map_keys a))) ->
               Equal_attrs a a (map stringType ks) (map stringType ks) = true).
    { induction ks as [|k ks IHk]; intros Hks; [reflexivity|]; simpl.
      rewrite String.eqb_refl; simpl.
      destruct (Keys_have_values a k (Hks k (or_introl eq_refl)))
        as (v & Hv & Hin).
      rewrite Hv, (IH k v Hin (Hnan (k, v) Hin)); simpl.
      apply IHk; intros; apply Hks; right; assumption. }
    apply G; auto.
  - rewrite Equal_index, Z.eqb_refl; simpl.
    rewrite forallb_forall in Hnan.
    apply Equal_elems_true; intros i _.
    destruct (Index ix i) as [v|] eqn:E; [|exact I].
    pose proof (Index_in _ _ _ E) as Hin.
    apply IH; [assumption|exact (Hnan (Some v) Hin)].
Qed.

(** *** Equal values have the same category and matching contents *)

Lemma Equal_attrs_true (la ra : gomap Value) (ka kb : list string) :
  List.length ka = List.length kb ->
  Equal_attrs la ra (map stringType ka) (map stringType kb) = true <->
  ka = kb /\
  forall k, In k ka ->
    exists lvalue rvalue,
      Attr la (stringType k) = Some lvalue /\
      Attr ra (stringType k) = Some rvalue /\
      Equal lvalue rvalue = true.
Proof.
  revert kb; induction ka as [|k1 ka IH]; intros [|k2 kb] Hlen;
    try discriminate Hlen; simpl.
  - split; [intros _; split; [reflexivity|intros k []]|reflexivity].
  - injection Hlen as Hlen; specialize (IH kb Hlen).
    destruct (String.eqb_spec k1 k2) as [<-|Hne]; simpl.
    + destruct (Attr la (stringType k1)) as [lvalue|] eqn:El.
      * destruct (Attr ra (stringType k1)) as [rvalue|] eqn:Er.
        -- destruct (Equal lvalue rvalue) eqn:E; simpl.
           ++ rewrite IH; split.
              ** intros (-> & H); split; [reflexivity|].
                 intros k [<-|Hin]; [|auto].
                 exists lvalue, rvalue; auto.
              ** intros (Hk & H); injection Hk as ->; split; [reflexivity|].
                 intros k Hin; apply H; right; assumption.
           ++ split; [discriminate|intros (_ & H)].
              destruct (H k1 (or_introl eq_refl)) as (lv & rv & H1 & H2 & H3).
              congruence.
        -- split; [discriminate|intros (_ & H)].
           destruct (H k1 (or_introl eq_refl)) as (lv & rv & H1 & H2 & H3).
           congruence.
      * split; [discriminate|intros (_ & H)].
        destruct (H k1 (or_introl eq_refl)) as (lv & rv & H1 & H2 & H3).
        congruence.
    + split; [discriminate|intros (H & _); congruence].
Qed.

Lemma stringType_injective (ka kb : list string) :
  map stringType ka = map stringType kb -> ka = kb.
Proof.
  revert kb; induction ka as [|k ka IH]; intros [|k' kb] H;
    try discriminate H; [reflexivity|].
  injection H as -> H; f_equal; auto.
Qed.

Lemma Equal_contents (l r : Value) :
  Equal l r = true <-> contents_match l r.
Proof.
  destruct l as [ |lb|lf|ls|la|li], r as [ |rb|rf|rs|ra|ri];
    try (simpl; split; [discriminate|contradiction]).
  - simpl; tauto.
  - simpl; destruct lb, rb; simpl; split; congruence.
  - simpl; tauto.
  - simpl; apply String.eqb_eq.
  - rewrite Equal_attr; unfold contents_match, Keys.
    destruct (Z.eqb_spec (len (map stringType (sort_keys (map_keys la))))
                (len (map stringType (sort_keys (map_keys ra)))))
      as [E|E]; simpl.
    + unfold len in E; rewrite !length_map in E.
      rewrite Equal_attrs_true by lia; split.
      * intros (Hk & H); split; [now rewrite Hk|].
        intros key Hin; apply in_map_iff in Hin.
        destruct Hin as (k & <- & Hin); auto.
      * intros (Hk & H); split; [now apply stringType_injective|].
        intros k Hin; apply H, in_map; assumption.
    + split; [discriminate|intros (Hk & _)].
      rewrite Hk in E; contradiction.
  - rewrite Equal_index; unfold contents_match.
    destruct (Z.eqb_spec (len li) (len ri)) as [E|E]; simpl.
    + rewrite Equal_elems_true; split.
      * intros H; split; [assumption|]; intros i.
        destruct (Z.lt_ge_cases i 0) as [Hneg|Hpos];
          [now rewrite !Index_negative by assumption|].
        destruct (Z.lt_ge_cases i (len li)) as [Hin|Hout]; [apply H; lia|].
        rewrite !Index_beyond by lia; exact I.
      * intros (_ & H) i _; apply H.
    + split; [discriminate|intros (Hlen & _); contradiction].
Qed.

(** C3, counterexample: [Equal] is not reflexive on the Number NaN (the
    value of [0 / 0]), since [==] on [float64] is not. *)
Lemma Equal_nan_not_reflexive :
  Equal (float64Type nan) (float64Type nan) = false.
Proof. reflexivity. Qed.

(** C3, as amended: on the in-memory values of value.go, [Equal] is
    reflexive on every value that holds no NaN, it is symmetric and
    transitive, and two values are equal exactly when they belong to the
    same category and their contents match: the same boolean, Numbers that
    [==] relates (so [+0] equals [-0]), the same Text, the same list of
    keys as [Keys] returns it with pairwise equal values, the same length
    with holes at the same positions and pairwise equal elements. *)
Theorem Equal_equivalence :
  (forall v, no_nan v = true -> Equal v v = true) /\
  (forall l r, Equal l r = Equal r l) /\
  (forall a b c, Equal a b = true -> Equal b c = true -> Equal a c = true) /\
  (forall l r, Equal l r = true <-> contents_match l r).
Proof.
  split; [exact Equal_refl|].
  split; [exact Equal_sym|].
  split; [exact Equal_trans|exact Equal_contents].
Qed.

Lemma Equal_equivalence_witness :
  let a := attrType [("k", indexType [None; Some (float64Type 0)])] in
  let b := attrType [("k", indexType [None; Some (float64Type (-0))])] in
  Equal a a = true /\ Equal a b = true /\ contents_match a b.
Proof.
  intros a b.
  destruct Equal_equivalence as (Hrefl & Hsym & Htrans & Hcontents).
  split; [apply Hrefl; reflexivity|].
  split.
  - apply (Htrans a a b); [apply Hrefl; reflexivity|].
    rewrite (Hsym a b); reflexivity.
  - apply Hcontents; reflexivity.
Defined.

(** ** Object + Object (C4) *)

Lemma map_get_set {V} (m : gomap V) (k k' : string) (v : V) :
  map_get (map_set m k v) k' =
  if String.eqb k k' then Some v else map_get m k'.
Proof.
  induction m as [|[k0 v0] m IH]; simpl.
  - destruct (String.eqb k k'); reflexivity.
  - destruct (String.eqb_spec k0 k) as [->|Hne]; simpl.
    + destruct (String.eqb k k'); reflexivity.
    + rewrite IH.
      destruct (String.eqb_spec k0 k') as [->|Hne'];
        destruct (String.eqb_spec k k') as [->|Hne'']; congruence.
Qed.

Lemma map_keys_complete {V} (k : string) (a : gomap V) :
  In k (map fst a) -> In k (map_keys a).
Proof.
  induction a as [|[k0 v0] a IH]; simpl; [tauto|].
  destruct (String.eqb_spec k0 k) as [->|Hne]; [left; reflexivity|].
  intros [E|Hin]; [contradiction|right].
  apply filter_In; split; [auto|].
  destruct (String.eqb_spec k0 k); [contradiction|reflexivity].
Qed.

Lemma map_get_none {V} (a : gomap V) (k : string) :
  ~ In k (map fst a) -> map_get a k = None.
Proof.
  induction a as [|[k0 v0] a IH]; simpl; [reflexivity|].
  intros H; destruct (String.eqb_spec k0 k); [tauto|apply IH; tauto].
Qed.

(** One loop of [add] over the keys of [a]: it never fails, and the
    entries of [a] overwrite those of [out]. *)
Lemma merge_keys_lookup (a out : gomap Value) :
  exists out',
    Jq.merge_keys a out = Ok out' /\
    forall k, map_get out' k =
              match map_get a k with
              | Some v => Some v
              | None => map_get out k
              end.
Proof.
  unfold Jq.merge_keys, Keys.
  set (step := fun (key : Value) (out : gomap Value) =>
                 match AsString key with
                 | None => out
                 | Some keyStr =>
                     match Attr a key with
                     | Some value => map_set out keyStr value
                     | None => out
                     end
                 end).
  rewrite (for_each_total _ _ _ step).
  2:{ intros key o Hin; apply in_map_iff in Hin.
      destruct Hin as (k & <- & _); unfold step; simpl.
      destruct (Attr a (stringType k)); reflexivity. }
  eexists; split; [reflexivity|].
  assert (G : forall ks o k,
             map_get (fold_left (fun s key => step key s)
                        (map stringType ks) o) k =
             match (if in_dec string_dec k ks then map_get a k else None) with
             | Some v => Some v
             | None => map_get o k
             end).
  { induction ks as [|k0 ks IHk]; intros o k; simpl; [reflexivity|].
    rewrite IHk; unfold step, Attr; simpl.
    destruct (string_dec k0 k) as [->|Hne].
    - destruct (in_dec string_dec k ks);
        destruct (map_get a k) as [v|]; try reflexivity.
      now rewrite map_get_set, String.eqb_refl.
    - destruct (in_dec string_dec k ks);
        [destruct (map_get a k); [reflexivity|]|];
        (destruct (map_get a k0);
         [rewrite map_get_set; destruct (String.eqb_spec k0 k);
          [contradiction|reflexivity]
         |reflexivity]). }
  intros k; rewrite G.
  destruct (in_dec string_dec k (sort_keys (map_keys a))) as [Hin|Hout];
    [reflexivity|].
  rewrite (map_get_none a k); [reflexivity|].
  intros Hin; apply Hout, in_sort_keys, map_keys_complete; exact Hin.
Qed.

(** C4: the two loops of [add] build the union of the two maps, the left
    operand winning on a common key; but [ToValue] has no case for the
    [map[string]sift.Value] that [add] passes to it, so [Must] panics and
    no Object is returned. *)
Theorem add_objects_panics (xa ya : gomap Value) :
  exists out,
    Jq.add (attrType xa) (attrType ya) =
      Panic (PanicError (ErrCannotRepresent (AnyMapValue out))) /\
    forall k, map_get out k =
              match map_get xa k with
              | Some v => Some v
              | None => map_get ya k
              end.
Proof.
  destruct (merge_keys_lookup ya []) as (out1 & H1 & L1).
  destruct (merge_keys_lookup xa out1) as (out2 & H2 & L2).
  exists out2; split.
  - unfold Jq.add; simpl; rewrite H1; simpl; rewrite H2; reflexivity.
  - intros k; rewrite L2, L1; simpl.
    destruct (map_get xa k); [reflexivity|].
    destruct (map_get ya k); reflexivity.
Qed.

(** [{"a": 1} + {"a": 2, "b": 3}]: the merged map is [{"a": 1, "b": 3}],
    and the conversion of it panics. *)
Example add_objects_example :
  Jq.add (attrType [("a", float64Type 1)])
         (attrType [("a", float64Type 2); ("b", float64Type 3)]) =
  Panic (PanicError (ErrCannotRepresent
           (AnyMapValue [("a", float64Type 1); ("b", float64Type 3)]))).
Proof. reflexivity. Qed.

(** ** The driver (C8) *)

Section DriverOrder.

Variable W : Type.
Variable Decode : W -> res Value * W.
Variable Encode : Value -> W -> option error * W.

Let LDecode := logged_Decode W Decode.
Let LEncode := logged_Encode W Encode.

(** The encoding loop: every output is handed to the encoder, in order,
    up to the first one the encoder refuses. *)
Lemma encode_all_logged (vouts : list Value) (w : W) (l : list event) :
  match encode_all (W * list event) LEncode vouts (w, l) with
  | (None, (w', l')) =>
      encode_all W Encode vouts w = (None, w') /\
      l' = l ++ map (fun v => Encoded v None) vouts
  | (Some err, (w', l')) =>
      encode_all W Encode vouts w = (Some err, w') /\
      exists sent vout rest,
        vouts = sent ++ vout :: rest /\
        l' = l ++ map (fun v => Encoded v None) sent ++
                  [Encoded vout (Some err)]
  end.
Proof.
  revert w l; induction vouts as [|vout vouts IH]; intros w l; simpl.
  - now rewrite app_nil_r.
  - unfold LEncode at 1, logged_Encode; simpl.
    destruct (Encode vout w) as [[err|] w1].
    + split; [reflexivity|]; exists [], vout, vouts; auto.
    + specialize (IH w1 (l ++ [Encoded vout None])).
      destruct (encode_all (W * list event) LEncode vouts
                  (w1, l ++ [Encoded vout None])) as [[err|] [w' l']].
      * destruct IH as (IH & sent & vout' & rest & -> & ->).
        split; [exact IH|].
        exists (vout :: sent), vout', rest; split; [reflexivity|].
        now rewrite <- app_assoc.
      * destruct IH as (IH & ->); split; [exact IH|].
        now rewrite <- app_assoc.
Qed.

(** The calls of a run, for every amount of fuel. *)
Lemma Sift_logged (fuel : nat) (f : Filter) (w : W) (l : list event) :
  exists o w' calls,
    Sift (W * list event) LDecode LEncode fuel f (w, l) =
      (o, (w', l ++ calls)) /\
    Sift W Decode Encode fuel f w = (o, w') /\
    ordered f calls o.
Proof.
  revert w l; induction fuel as [|fuel IH]; intros w l; simpl.
  - exists None, w, []; rewrite app_nil_r; repeat split; constructor.
  - unfold LDecode at 1, logged_Decode; simpl.
    destruct (Decode w) as [[vin|err|p] w1].
    + destruct (f vin) as [vouts|err|p] eqn:Ef.
      * pose proof (encode_all_logged vouts w1 (l ++ [Decoded (Ok vin)]))
          as Henc.
        destruct (encode_all (W * list event) LEncode vouts
                    (w1, l ++ [Decoded (Ok vin)])) as [[err|] [w2 l2]].
        -- destruct Henc as (-> & sent & vout & rest & -> & ->).
           exists (Some (Returned (Some err))), w2,
             (Decoded (Ok vin) :: map (fun v => Encoded v None) sent ++
              [Encoded vout (Some err)]).
           split; [now rewrite <- app_assoc|].
           split; [reflexivity|].
           eapply ordered_encode_error; eassumption.
        -- destruct Henc as (-> & ->).
           destruct (IH w2 (l ++ [Decoded (Ok vin)] ++
                            map (fun v => Encoded v None) vouts))
             as (o & w' & calls & H1 & H2 & H3).
           exists o, w',
             (Decoded (Ok vin) :: map (fun v => Encoded v None) vouts ++
              calls).
           rewrite <- app_assoc, H1, H2.
           split; [now rewrite <- !app_assoc|].
           split; [reflexivity|now constructor].
      * exists (Some (Returned (Some err))), w1, [Decoded (Ok vin)].
        repeat split; now constructor.
      * exists (Some (Panicked p)), w1, [Decoded (Ok vin)].
        repeat split; now constructor.
    + destruct err;
        try (eexists _, w1, [Decoded (Error _)];
             repeat split; constructor; discriminate).
    + exists (Some (Panicked p)), w1, [Decoded (Panic p)].
      repeat split; constructor.
Qed.

Lemma encode_all_measure (m : W -> nat) :
  (forall v w e w1, Encode v w = (e, w1) -> (m w1 <= m w)%nat) ->
  forall vouts w e w1,
    encode_all W Encode vouts w = (e, w1) -> (m w1 <= m w)%nat.
Proof.
  intros Hm; induction vouts as [|vout vouts IH]; intros w e w1; simpl.
  - intros H; injection H as _ <-; lia.
  - destruct (Encode vout w) as [[err|] w'] eqn:E.
    + intros H; injection H as _ <-; eapply Hm; eassumption.
    + intros H; apply IH in H; apply Hm in E; lia.
Qed.

(** When what is left of the input shrinks with every decoded value, fuel
    beyond its size is enough for [Sift] to return. *)
Lemma Sift_returns (m : W -> nat) :
  (forall w v w1, Decode w = (Ok v, w1) -> (m w1 < m w)%nat) ->
  (forall v w e w1, Encode v w = (e, w1) -> (m w1 <= m w)%nat) ->
  forall fuel f w,
    (m w < fuel)%nat ->
    exists o w', Sift W Decode Encode fuel f w = (Some o, w').
Proof.
  intros Hdec Henc; induction fuel as [|fuel IH]; intros f w Hfuel; [lia|].
  simpl.
  destruct (Decode w) as [[vin|err|p] w1] eqn:Ed.
  - destruct (f vin) as [vouts|err|p]; [|eauto..].
    destruct (encode_all W Encode vouts w1) as [[err|] w2] eqn:Ee; [eauto|].
    apply IH.
    apply Hdec in Ed.
    apply (encode_all_measure m Henc) in Ee; lia.
  - destruct err; eauto.
  - eauto.
Qed.

(** C8: for every decoder, encoder and filter, the calls of [Sift] are
    ordered: each decoded input is followed by the encoding of all the
    outputs of the filter on it before the decoder is called again
    ([ordered]); when the filter returns an error on an input, [Sift]
    returns that error and leaves the world as that call of the decoder
    left it; when the decoder returns [io.EOF], [Sift] returns nil; and
    [Sift] does return once the input is exhausted. *)
Theorem Sift_ordering (f : Filter) (w : W) :
  (forall fuel l,
      exists o w' calls,
        Sift (W * list event) LDecode LEncode fuel f (w, l) =
          (o, (w', l ++ calls)) /\
        Sift W Decode Encode fuel f w = (o, w') /\
        ordered f calls o) /\
  (forall fuel vin w1 err,
      Decode w = (Ok vin, w1) -> f vin = Error err ->
      Sift W Decode Encode (S fuel) f w = (Some (Returned (Some err)), w1)) /\
  (forall fuel w1,
      Decode w = (Error EOF, w1) ->
      Sift W Decode Encode (S fuel) f w = (Some (Returned None), w1)) /\
  (forall m : W -> nat,
      (forall w v w1, Decode w = (Ok v, w1) -> (m w1 < m w)%nat) ->
      (forall v w e w1, Encode v w = (e, w1) -> (m w1 <= m w)%nat) ->
      exists o w', Sift W Decode Encode (S (m w)) f w = (Some o, w')).
Proof.
  split; [intros fuel l; apply Sift_logged|].
  split; [|split].
  - intros fuel vin w1 err Hd Hf; simpl; rewrite Hd, Hf; reflexivity.
  - intros fuel w1 Hd; simpl; rewrite Hd; reflexivity.
  - intros m Hdec Henc; apply (Sift_returns m Hdec Henc); lia.
Qed.

End DriverOrder.

Lemma Sift_ordering_witness :
  let one := float64Type 1 in
  let two := float64Type 2 in
  let input := [Ok (indexType [Some one; Some two]); Ok (indexType [])] in
  let Dec := script_Decode in
  let Enc := accept_Encode in
  (exists o w' calls,
      Sift _ (logged_Decode _ Dec) (logged_Encode _ Enc) 3 Jq.iterate
        (input, []) = (o, (w', [] ++ calls)) /\
      Sift _ Dec Enc 3 Jq.iterate input = (o, w') /\
      ordered Jq.iterate calls o) /\
  Sift _ Dec Enc 1 Jq.iterate [Ok one] =
    (Some (Returned (Some (ErrCannotIterate one))), []) /\
  Sift _ Dec Enc 1 Jq.iterate [] = (Some (Returned None), []) /\
  (exists o w', Sift _ Dec Enc 3 Jq.iterate input = (Some o, w')).
Proof.
  intros one two input Dec Enc.
  destruct (Sift_ordering _ Dec Enc Jq.iterate input) as (Hord & _ & _ & Hret).
  destruct (Sift_ordering _ Dec Enc Jq.iterate [Ok one]) as (_ & Herr & _).
  destruct (Sift_ordering _ Dec Enc Jq.iterate []) as (_ & _ & Heof & _).
  split; [apply Hord|].
  split; [apply (Herr 0%nat one); reflexivity|].
  split; [apply Heof; reflexivity|].
  apply (Hret (@List.length _)).
  - intros [|r w] v w1 H; [discriminate H|].
    injection H as _ <-; simpl; lia.
  - intros v w e w1 H; injection H as _ <-; lia.
Defined.

(** The calls of the run of the witness, computed. *)
Example Sift_calls_example :
  Sift _ (logged_Decode _ script_Decode) (logged_Encode _ accept_Encode) 3
    Jq.iterate
    ([Ok (indexType [Some (float64Type 1); Some (float64Type 2)]);
      Ok (indexType [])], []) =
  (Some (Returned None),
   ([], [Decoded (Ok (indexType [Some (float64Type 1);
                                 Some (float64Type 2)]));
         Encoded (float64Type 1) None;
         Encoded (float64Type 2) None;
         Decoded (Ok (indexType []));
         Decoded (Error EOF)])).
Proof. reflexivity. Qed.

(** ** Number literals out of range (C6) *)

Section NumberLiterals.

Import Scanner Strconv Parser.

Variable IsLetter_above_ascii : Z -> bool.
Variable IsDigit_above_ascii : Z -> bool.
Variable DecodeRune : string -> Z * Z.
Variable EncodeRune : Z -> list Z.
Variable ParseFloat : string -> float * option num_error.
Variable math_Mod : float -> float -> float.
Variable int_indefinite : float -> Z.
Variable MapError : (Value -> res Value) -> Filter.
Variable Nary : list Filter -> (list Value -> res (list Value)) -> Filter.

Let parsePrimary_ :=
  parsePrimary IsLetter_above_ascii IsDigit_above_ascii DecodeRune
    EncodeRune ParseFloat math_Mod int_indefinite MapError Nary.
Let advance_ :=
  advance IsLetter_above_ascii IsDigit_above_ascii DecodeRune EncodeRune.
Let Compile_ :=
  Compile IsLetter_above_ascii IsDigit_above_ascii DecodeRune EncodeRune
    ParseFloat math_Mod int_indefinite MapError Nary.

(** The number branch of [parsePrimary] on a literal that [ParseFloat]
    reports as out of range. *)
Lemma parsePrimary_out_of_range (scan_fuel fuel : nat) (p p' : parser)
    (n : float) (c : Z) :
  tok p = number ->
  ParseFloat (lit p) = (n, Some ErrRange) ->
  first_byte (lit p) = Some c ->
  advance_ scan_fuel p = Done p' ->
  parsePrimary_ scan_fuel (S fuel) p =
  Done (Literal (float64Type (if c =? rune "-" then (- MaxFloat64)%float
                              else MaxFloat64)), p').
Proof.
  intros Htok Hpf Hc Hadv.
  unfold parsePrimary_; simpl.
  unfold is_tok; rewrite Htok; simpl.
  unfold number_literal; rewrite Hpf, Hc.
  fold advance_.
  destruct (c =? rune "-"); simpl; rewrite Hadv; reflexivity.
Qed.

Let parseBinary_ :=
  parseBinary IsLetter_above_ascii IsDigit_above_ascii DecodeRune
    EncodeRune ParseFloat math_Mod int_indefinite MapError Nary.
Let parsePrimaryWithPostfix_ :=
  parsePrimaryWithPostfix IsLetter_above_ascii IsDigit_above_ascii DecodeRune
    EncodeRune ParseFloat math_Mod int_indefinite MapError Nary.
Let binaryTerms_ :=
  binaryTerms IsLetter_above_ascii IsDigit_above_ascii DecodeRune
    EncodeRune ParseFloat math_Mod int_indefinite MapError Nary.
Let parsePostfixOrDot_ :=
  parsePostfixOrDot IsLetter_above_ascii IsDigit_above_ascii DecodeRune
    EncodeRune ParseFloat math_Mod int_indefinite MapError Nary.
Let parse_ :=
  parse IsLetter_above_ascii IsDigit_above_ascii DecodeRune
    EncodeRune ParseFloat math_Mod int_indefinite MapError Nary.

Lemma parseBinary_level (sf fuel : nat) (level : binaryLevel)
    (rest : list binaryLevel) (p : parser) :
  parseBinary_ sf (S fuel) (level :: rest) p =
  ('(x, p) <- parseBinary_ sf fuel rest p ;;
   binaryTerms_ sf fuel level rest x p).
Proof. reflexivity. Qed.

Lemma parseBinary_primary (sf fuel : nat) (p : parser) :
  parseBinary_ sf (S (S fuel)) [] p =
  ('(f, p) <- parsePrimary_ sf fuel p ;;
   parsePostfixOrDot_ sf fuel f false p).
Proof. reflexivity. Qed.

Lemma binaryTerms_done (sf fuel : nat) (level : binaryLevel)
    (rest : list binaryLevel) (x : Filter) (p : parser) :
  find (fun op => is_tok p (fst op)) level = None ->
  binaryTerms_ sf (S fuel) level rest x p = Done (x, p).
Proof. intros H; unfold binaryTerms_; simpl; rewrite H; reflexivity. Qed.

Lemma parsePostfixOrDot_done (sf fuel : nat) (f : Filter) (dotOk : bool)
    (p : parser) :
  is_tok p dot = false -> is_tok p leftBracket = false ->
  parsePostfixOrDot_ sf (S fuel) f dotOk p = Done (f, p).
Proof.
  intros H1 H2; unfold parsePostfixOrDot_; simpl; rewrite H1, H2.
  reflexivity.
Qed.

Lemma parsePrimary_minus (sf fuel : nat) (p : parser) :
  tok p = minus ->
  parsePrimary_ sf (S fuel) p =
  (p <- advance_ sf p ;;
   '(f, p) <- parsePrimary_ sf fuel p ;;
   Done (Compose f (MapError Jq.neg), p)).
Proof.
  intros H; unfold parsePrimary_; simpl; unfold is_tok; rewrite H.
  reflexivity.
Qed.

(** A program made of the token [minus], a literal out of range and the
    end of the source. *)
Lemma parse_minus_out_of_range (sf fuel : nat) (p0 p1 p2 : parser)
    (n : float) (c : Z) :
  initScanErr p0 = None ->
  tok p0 = minus -> advance_ sf p0 = Done p1 ->
  tok p1 = number -> ParseFloat (lit p1) = (n, Some ErrRange) ->
  first_byte (lit p1) = Some c -> advance_ sf p1 = Done p2 ->
  tok p2 = eof ->
  parse_ sf (9 + fuel) p0 =
  Done (Compose
          (Literal (float64Type (if c =? rune "-" then (- MaxFloat64)%float
                                 else MaxFloat64)))
          (MapError Jq.neg)).
Proof.
  intros Hinit Ht0 Ha0 Ht1 Hpf Hc Ha1 Ht2.
  assert (Hprim : forall k, parsePrimary_ sf (S (S k)) p0 =
                  Done (Compose
                          (Literal (float64Type
                             (if c =? rune "-" then (- MaxFloat64)%float
                              else MaxFloat64)))
                          (MapError Jq.neg), p2)).
  { intros k; rewrite (parsePrimary_minus _ _ _ Ht0), Ha0; simpl.
    fold parsePrimary_.
    rewrite (parsePrimary_out_of_range sf k p1 p2 n c Ht1 Hpf Hc Ha1).
    reflexivity. }
  unfold parse_, parse, parseExpr; rewrite Hinit.
  unfold is_tok at 1; rewrite Ht0; simpl token_eqb; cbv iota.
  fold parseBinary_; unfold binaryLevels; simpl Nat.add.
  rewrite !parseBinary_level, parseBinary_primary, Hprim.
  cbn [fbind].
  rewrite parsePostfixOrDot_done
    by (unfold is_tok; rewrite Ht2; reflexivity).
  cbn [fbind].
  do 4 (rewrite binaryTerms_done
          by (cbn [find fst]; unfold is_tok; rewrite Ht2; reflexivity);
        cbn [fbind]).
  unfold is_tok; rewrite Ht2; reflexivity.
Qed.

Let newParser_ :=
  newParser IsLetter_above_ascii IsDigit_above_ascii DecodeRune EncodeRune.

(** The program [-1e10000]: the scanner stops on [-], on [1] and at the
    end of the source. *)
Lemma Compile_minus_1e10000 (sf fuel : nat) (n : float) :
  ParseFloat "1e10000" = (n, Some ErrRange) ->
  Compile_ (6 + sf) (9 + fuel) "-1e10000" =
  Compiled (Compose (Literal (float64Type MaxFloat64)) (MapError Jq.neg)).
Proof.
  intros Hpf.
  set (source := "-1e10000").
  set (p0 := {| scanner_ := at_offset source (rune "1") 1 2; pos := 0;
                tok := minus; lit := ""; initScanErr := None |}).
  set (p1 := {| scanner_ := at_offset source (-1) 8 8; pos := 1;
                tok := number; lit := "1e10000"; initScanErr := None |}).
  set (p2 := {| scanner_ := at_offset source (-1) 8 8; pos := 8;
                tok := eof; lit := ""; initScanErr := None |}).
  assert (Hs : newScanner DecodeRune source =
               Done (at_offset source (rune "-") 0 1))
    by (vm_compute; reflexivity).
  assert (H0 : newParser_ (6 + sf)
                 (at_offset source (rune "-") 0 1) = Done p0)
    by (vm_compute; reflexivity).
  assert (H1 : advance_ (6 + sf) p0 = Done p1) by (vm_compute; reflexivity).
  assert (H2 : advance_ (6 + sf) p1 = Done p2) by (vm_compute; reflexivity).
  unfold Compile_, Compile; rewrite Hs.
  fold newParser_; rewrite H0; cbn [fbind].
  fold parse_.
  rewrite (parse_minus_out_of_range (6 + sf) fuel p0 p1 p2 n (rune "1"));
    try reflexivity; assumption.
Qed.

(** C6: a number literal that [strconv.ParseFloat] reports as out of range
    is compiled to the literal [MaxFloat64], or [-MaxFloat64] when its text
    starts with [-]: finite, of magnitude [MaxFloat64].  The program
    [-1e10000] compiles, and on every input it yields
    [-1.7976931348623157e+308]. *)
Theorem number_literal_out_of_range :
  (forall (p : parser) (n : float) (c : Z),
      ParseFloat (lit p) = (n, Some ErrRange) ->
      first_byte (lit p) = Some c ->
      let m := if c =? rune "-" then (- MaxFloat64)%float
               else MaxFloat64 in
      number_literal ParseFloat p = Done m /\
      PrimFloat.is_finite m = true /\
      PrimFloat.abs m = MaxFloat64 /\
      forall scan_fuel fuel p',
        tok p = number ->
        advance_ scan_fuel p = Done p' ->
        parsePrimary_ scan_fuel (S fuel) p =
        Done (Literal (float64Type m), p')) /\
  (forall n : float,
      ParseFloat "1e10000" = (n, Some ErrRange) ->
      (forall g v, MapError g v = bind (g v) (fun vout => Ok [vout])) ->
      forall scan_fuel fuel,
        (6 <= scan_fuel)%nat -> (9 <= fuel)%nat ->
        exists f,
          Compile_ scan_fuel fuel "-1e10000" = Compiled f /\
          forall v, f v = Ok [float64Type (-1.7976931348623157e+308)]).
Proof.
  split.
  - intros p n c Hpf Hc m.
    split; [unfold number_literal; rewrite Hpf, Hc; unfold m;
            destruct (c =? rune "-"); reflexivity|].
    split; [unfold m; destruct (c =? rune "-"); reflexivity|].
    split; [unfold m; destruct (c =? rune "-"); reflexivity|].
    intros scan_fuel fuel p' Htok Hadv.
    now apply parsePrimary_out_of_range with (n := n).
  - intros n Hpf Hmap scan_fuel fuel Hs Hf.
    replace scan_fuel with (6 + (scan_fuel - 6))%nat by lia.
    replace fuel with (9 + (fuel - 9))%nat by lia.
    eexists; split; [apply Compile_minus_1e10000 with (n := n); exact Hpf|].
    intros v; unfold Compose, Literal; cbn [bind for_each].
    rewrite Hmap; reflexivity.
Qed.

End NumberLiterals.

(** The reference model of [ParseFloat] on the literals of the tests
    "lit_num" and "lit_num_imprecise", on a literal out of range, and on a
    literal above [MaxFloat64] by less than half an ulp. *)
Example ParseFloat_reference :
  Strconv.ParseFloat "12.3" = (12.3%float, None) /\
  Strconv.ParseFloat "1234567890123456789" =
    (1234567890123456800%float, None) /\
  Strconv.ParseFloat "1e309" = (infinity, Some Strconv.ErrRange) /\
  Strconv.ParseFloat "1.7976931348623158e308" = (MaxFloat64, None).
Proof. split; [|split; [|split]]; vm_compute; reflexivity. Qed.

Lemma number_literal_out_of_range_witness :
  let Compile_ascii :=
    Parser.Compile ascii_IsLetter ascii_IsDigit ascii_DecodeRune
      ascii_EncodeRune Strconv.ParseFloat unused_Mod amd64_int_indefinite
      MapError Nary in
  let p :=
    {| Parser.scanner_ := Scanner.at_offset "1e999" (-1) 5 5;
       Parser.pos := 0; Parser.tok := Scanner.number; Parser.lit := "1e999";
       Parser.initScanErr := None |} in
  Parser.number_literal Strconv.ParseFloat p = Scanner.Done MaxFloat64 /\
  exists f,
    Compile_ascii 6%nat 9%nat "-1e10000" = Parser.Compiled f /\
    forall v, f v = Ok [float64Type (-1.7976931348623157e+308)].
Proof.
  intros Compile_ascii p.
  destruct (number_literal_out_of_range ascii_IsLetter ascii_IsDigit
              ascii_DecodeRune ascii_EncodeRune Strconv.ParseFloat
              unused_Mod amd64_int_indefinite MapError Nary)
    as (Hlit & Hprog).
  split.
  - destruct (Hlit p infinity (Scanner.rune "1")) as (Hn & _);
      [vm_compute; reflexivity|reflexivity|exact Hn].
  - apply (Hprog infinity); [vm_compute; reflexivity|reflexivity|lia|lia].
Defined.

(** * Further properties of the combinators *)

(** A loop that appends the outputs of a function that does not fail. *)
Lemma for_each_flat {A B} (F : A -> list B) (l : list A) (acc : list B)
    (body : A -> list B -> res (list B)) :
  (forall a outs, In a l -> body a outs = Ok (outs ++ F a)) ->
  for_each l acc body = Ok (acc ++ flat_map F l).
Proof.
  intros H.
  rewrite (for_each_total l acc body (fun a outs => outs ++ F a))
    by (intros a s Hin; apply H; exact Hin).
  now rewrite (fold_left_append F).
Qed.

(** The loop of [Compose]: its result when [g] fails nowhere, and the
    first failure otherwise. *)
Lemma compose_loop (g : Filter) (vfs acc : list Value) :
  match for_each vfs acc (fun vf vout =>
          bind (g vf) (fun vg => Ok (vout ++ vg))) with
  | Ok outs =>
      Forall (fun x => exists o, g x = Ok o) vfs /\
      outs = acc ++ flat_map (fun x => outputs (g x)) vfs
  | Error e =>
      exists pre x post,
        vfs = pre ++ x :: post /\
        Forall (fun x => exists o, g x = Ok o) pre /\ g x = Error e
  | Panic p =>
      exists pre x post,
        vfs = pre ++ x :: post /\
        Forall (fun x => exists o, g x = Ok o) pre /\ g x = Panic p
  end.
Proof.
  revert acc; induction vfs as [|x vfs IH]; intros acc; simpl.
  - split; [constructor|now rewrite app_nil_r].
  - destruct (g x) as [o|e|p] eqn:Eg; simpl.
    + specialize (IH (acc ++ o)).
      destruct (for_each vfs (acc ++ o) _) as [outs|e|p].
      * destruct IH as (Hall & ->); split; [|now rewrite app_assoc].
        constructor; [eauto|assumption].
      * destruct IH as (pre & y & post & -> & Hall & Hy).
        exists (x :: pre), y, post; repeat split; auto.
        constructor; [eauto|assumption].
      * destruct IH as (pre & y & post & -> & Hall & Hy).
        exists (x :: pre), y, post; repeat split; auto.
        constructor; [eauto|assumption].
    + exists [], x, vfs; repeat split; auto.
    + exists [], x, vfs; repeat split; auto.
Qed.

Lemma Compose_ok_iff (f g : Filter) (v : Value) (outs : list Value) :
  Compose f g v = Ok outs <->
  exists vfs,
    f v = Ok vfs /\
    Forall (fun x => exists o, g x = Ok o) vfs /\
    outs = flat_map (fun x => outputs (g x)) vfs.
Proof.
  unfold Compose; split.
  - destruct (f v) as [vfs|e|p]; simpl; try discriminate.
    pose proof (compose_loop g vfs []) as H.
    destruct (for_each vfs [] _) as [o|e|p]; try discriminate.
    intros E; injection E as <-; exists vfs; tauto.
  - intros (vfs & -> & Hall & ->); simpl.
    apply (for_each_flat (fun x => outputs (g x))).
    intros a o Hin; rewrite Forall_forall in Hall.
    destruct (Hall a Hin) as [oa Ha]; rewrite Ha; reflexivity.
Qed.

Lemma Forall_flat_map {A B} (P : B -> Prop) (F : A -> list B) (l : list A) :
  Forall P (flat_map F l) <-> Forall (fun a => Forall P (F a)) l.
Proof.
  induction l as [|a l IH]; simpl.
  - split; constructor.
  - rewrite Forall_app, IH; split.
    + intros [H1 H2]; constructor; assumption.
    + intros H; inversion H; subst; tauto.
Qed.

Lemma flat_map_pointwise {A B} (F G : A -> list B) (l : list A) :
  (forall a, In a l -> F a = G a) -> flat_map F l = flat_map G l.
Proof.
  induction l as [|a l IH]; intros H; simpl; [reflexivity|].
  rewrite (H a (or_introl eq_refl)), IH; [reflexivity|].
  intros; apply H; right; assumption.
Qed.

Lemma flat_map_flat_map {A B C} (F : A -> list B) (G : B -> list C)
    (l : list A) :
  flat_map G (flat_map F l) = flat_map (fun a => flat_map G (F a)) l.
Proof.
  induction l as [|a l IH]; simpl; [reflexivity|].
  now rewrite flat_map_app, IH.
Qed.

(** X1: [Compose] has [id] as a unit on both sides, errors included, and
    it is associative on results: the two bracketings of [f | g | h]
    return the same values whenever either of them returns values. *)
Theorem Compose_monoid (f g h : Filter) (v : Value) :
  Compose Jq.id g v = g v /\
  Compose f Jq.id v = f v /\
  forall outs,
    Compose (Compose f g) h v = Ok outs <->
    Compose f (Compose g h) v = Ok outs.
Proof.
  split; [|split].
  - unfold Compose, Jq.id; simpl; destruct (g v); reflexivity.
  - unfold Compose, Jq.id; destruct (f v) as [vfs|e|p]; simpl;
      try reflexivity.
    rewrite (for_each_flat (fun x => [x]))
      by (intros; reflexivity); simpl.
    f_equal; induction vfs as [|x vfs IH]; simpl; [reflexivity|].
    now rewrite IH.
  - intros outs; rewrite !Compose_ok_iff; split.
    + intros (vgs & Hfg & Hh & ->).
      apply Compose_ok_iff in Hfg; destruct Hfg as (vfs & Hf & Hg & ->).
      exists vfs; split; [exact Hf|].
      apply Forall_flat_map in Hh.
      assert (Hgh : forall x, In x vfs ->
                Compose g h x =
                Ok (flat_map (fun y => outputs (h y)) (outputs (g x)))).
      { intros x Hin; rewrite Forall_forall in Hg, Hh.
        destruct (Hg x Hin) as [o Ho]; apply Compose_ok_iff.
        exists o; split; [exact Ho|].
        specialize (Hh x Hin); rewrite Ho in Hh |- *; auto. }
      split.
      * apply Forall_forall; intros x Hin; rewrite (Hgh x Hin); eauto.
      * rewrite flat_map_flat_map; apply flat_map_pointwise.
        intros x Hin; rewrite (Hgh x Hin); reflexivity.
    + intros (vfs & Hf & Hgh & ->).
      assert (Hx : forall x, In x vfs ->
                exists o, g x = Ok o /\
                  Forall (fun y => exists oy, h y = Ok oy) o /\
                  outputs (Compose g h x) =
                  flat_map (fun y => outputs (h y)) o).
      { intros x Hin; rewrite Forall_forall in Hgh.
        destruct (Hgh x Hin) as [o Ho].
        pose proof Ho as Ho'; apply Compose_ok_iff in Ho'.
        destruct Ho' as (og & Hog & Hall & ->).
        exists og; rewrite Ho; auto. }
      exists (flat_map (fun x => outputs (g x)) vfs); split; [|split].
      * apply Compose_ok_iff; exists vfs; split; [exact Hf|split; [|auto]].
        apply Forall_forall; intros x Hin.
        destruct (Hx x Hin) as (o & Ho & _); eauto.
      * apply Forall_flat_map, Forall_forall; intros x Hin.
        destruct (Hx x Hin) as (o & Ho & Hall & _); now rewrite Ho.
      * rewrite flat_map_flat_map; apply flat_map_pointwise.
        intros x Hin; destruct (Hx x Hin) as (o & Ho & _ & E).
        now rewrite E, Ho.
Qed.

(** X2: [Compose f g] returns the outputs of [g] on the outputs of [f],
    in order, when nothing fails; an error of [f], or the error of [g] on
    the first output of [f] where it fails, is the result. *)
Theorem Compose_concat_map (f g : Filter) (v : Value) :
  (forall vfs,
      f v = Ok vfs ->
      (forall x, In x vfs -> exists o, g x = Ok o) ->
      Compose f g v = Ok (flat_map (fun x => outputs (g x)) vfs)) /\
  (forall e, f v = Error e -> Compose f g v = Error e) /\
  (forall pre x post e,
      f v = Ok (pre ++ x :: post) ->
      (forall y, In y pre -> exists o, g y = Ok o) ->
      g x = Error e ->
      Compose f g v = Error e).
Proof.
  split; [|split].
  - intros vfs Hf Hg; apply Compose_ok_iff; exists vfs.
    split; [exact Hf|split; [|reflexivity]].
    apply Forall_forall; exact Hg.
  - intros e Hf; unfold Compose; rewrite Hf; reflexivity.
  - intros pre x post e Hf Hpre Hx; unfold Compose; rewrite Hf; simpl.
    rewrite for_each_app.
    rewrite (for_each_flat (fun y => outputs (g y))); simpl.
    + rewrite Hx; reflexivity.
    + intros a o Hin; destruct (Hpre a Hin) as [oa Ha]; now rewrite Ha.
Qed.

Lemma Compose_concat_map_witness :
  let arr := indexType [Some (indexType [Some (float64Type 1)]);
                        Some (float64Type 2)] in
  Compose Jq.iterate Jq.iterateOpt arr = Ok [float64Type 1] /\
  Compose Jq.iterate Jq.iterate nullType = Error (ErrCannotIterate nullType) /\
  Compose Jq.iterate Jq.iterate arr =
    Error (ErrCannotIterate (float64Type 2)).
Proof.
  intros arr.
  destruct (Compose_concat_map Jq.iterate Jq.iterateOpt arr) as (Hok & _).
  destruct (Compose_concat_map Jq.iterate Jq.iterate nullType) as (_ & Hf & _).
  destruct (Compose_concat_map Jq.iterate Jq.iterate arr) as (_ & _ & Hg).
  split; [|split].
  - apply (Hok [indexType [Some (float64Type 1)]; float64Type 2]);
      [reflexivity|].
    intros x [<-|[<-|[]]]; eexists; reflexivity.
  - apply Hf; reflexivity.
  - apply (Hg [indexType [Some (float64Type 1)]] (float64Type 2) []);
      [reflexivity| |reflexivity].
    intros y [<-|[]]; eexists; reflexivity.
Defined.

(** X3: [Concat] is associative, errors included: both bracketings of
    [x, y, z] run the three filters in the same order.  And composition
    distributes over it on results: [(x, y) | g] and [(x | g), (y | g)]
    return the same values whenever either of them returns values. *)
Theorem Concat_assoc_distr (x y z g : Filter) (v : Value) :
  Concat (Concat x y) z v = Concat x (Concat y z) v /\
  forall outs,
    Compose (Concat x y) g v = Ok outs <->
    Concat (Compose x g) (Compose y g) v = Ok outs.
Proof.
  split.
  - unfold Concat.
    destruct (x v) as [xvs|e|p]; simpl; try reflexivity.
    destruct (y v) as [yvs|e|p]; simpl; try reflexivity.
    destruct (z v) as [zvs|e|p]; simpl; try reflexivity.
    now rewrite app_assoc.
  - intros outs; rewrite Compose_ok_iff; split.
    + intros (vfs & Hc & Hall & ->).
      unfold Concat in Hc |- *.
      destruct (x v) as [xvs|e|p] eqn:Ex; try discriminate Hc.
      destruct (y v) as [yvs|e|p] eqn:Ey; try discriminate Hc.
      simpl in Hc; injection Hc as <-.
      apply Forall_app in Hall; destruct Hall as [Hx Hy].
      rewrite (proj2 (Compose_ok_iff x g v _)
                 (ex_intro _ xvs (conj Ex (conj Hx eq_refl)))).
      rewrite (proj2 (Compose_ok_iff y g v _)
                 (ex_intro _ yvs (conj Ey (conj Hy eq_refl)))).
      simpl; now rewrite flat_map_app.
    + unfold Concat at 1.
      destruct (Compose x g v) as [ox|e|p] eqn:Ex; try discriminate.
      destruct (Compose y g v) as [oy|e|p] eqn:Ey; try discriminate.
      simpl; intros E; injection E as <-.
      apply Compose_ok_iff in Ex, Ey.
      destruct Ex as (xvs & Hx & Hxa & ->), Ey as (yvs & Hy & Hya & ->).
      exists (xvs ++ yvs); unfold Concat; rewrite Hx, Hy; simpl.
      split; [reflexivity|split; [|now rewrite flat_map_app]].
      apply Forall_app; split; assumption.
Qed.

(** The three loops of [Ternary] when [op] does not fail. *)
Lemma Ternary_loops (op : Value -> Value -> Value -> res (list Value))
    (xvs yvs zvs : list Value) :
  (forall xv yv zv, In xv xvs -> In yv yvs -> In zv zvs ->
                    exists o, op xv yv zv = Ok o) ->
  for_each xvs [] (fun xv outs =>
    for_each yvs outs (fun yv outs =>
      for_each zvs outs (fun zv outs =>
        bind (op xv yv zv) (fun opvs => Ok (outs ++ opvs))))) =
  Ok (flat_map (fun xv =>
        flat_map (fun yv =>
          flat_map (fun zv => outputs (op xv yv zv)) zvs) yvs) xvs).
Proof.
  intros Hop.
  apply (for_each_flat
           (fun xv => flat_map (fun yv =>
              flat_map (fun zv => outputs (op xv yv zv)) zvs) yvs)).
  intros xv outs Hx.
  apply (for_each_flat
           (fun yv => flat_map (fun zv => outputs (op xv yv zv)) zvs)).
  intros yv outs' Hy.
  apply (for_each_flat (fun zv => outputs (op xv yv zv))).
  intros zv outs'' Hz.
  destruct (Hop xv yv zv Hx Hy Hz) as [o Ho]; rewrite Ho; reflexivity.
Qed.

(** X4: [Ternary x y z op] applies [op] to the Cartesian product of the
    outputs of [x], [y] and [z], with [x] in the outermost loop and [z] in
    the innermost; the three filters are run once each, in that order, and
    the first that fails gives the error. *)
Theorem Ternary_product (x y z : Filter)
    (op : Value -> Value -> Value -> res (list Value)) (v : Value) :
  (forall xvs yvs zvs,
      x v = Ok xvs -> y v = Ok yvs -> z v = Ok zvs ->
      (forall xv yv zv, In xv xvs -> In yv yvs -> In zv zvs ->
                        exists o, op xv yv zv = Ok o) ->
      Ternary x y z op v =
      Ok (flat_map (fun xv =>
            flat_map (fun yv =>
              flat_map (fun zv => outputs (op xv yv zv)) zvs) yvs) xvs)) /\
  (forall e, x v = Error e -> Ternary x y z op v = Error e) /\
  (forall xvs e, x v = Ok xvs -> y v = Error e ->
                 Ternary x y z op v = Error e) /\
  (forall xvs yvs e, x v = Ok xvs -> y v = Ok yvs -> z v = Error e ->
                     Ternary x y z op v = Error e).
Proof.
  split; [|split; [|split]].
  - intros xvs yvs zvs Hx Hy Hz Hop.
    unfold Ternary; rewrite Hx, Hy, Hz; simpl.
    now apply Ternary_loops.
  - intros e Hx; unfold Ternary; rewrite Hx; reflexivity.
  - intros xvs e Hx Hy; unfold Ternary; rewrite Hx, Hy; reflexivity.
  - intros xvs yvs e Hx Hy Hz; unfold Ternary; rewrite Hx, Hy, Hz.
    reflexivity.
Qed.

Lemma Ternary_product_witness :
  let a := float64Type 1 in
  let b := float64Type 2 in
  let two := Concat (Literal a) (Literal b) in
  let triple := fun xv yv zv : Value => Ok [indexType [Some xv; Some yv;
                                                      Some zv]] in
  Ternary two (Literal a) two triple nullType =
    Ok [indexType [Some a; Some a; Some a];
        indexType [Some a; Some a; Some b];
        indexType [Some b; Some a; Some a];
        indexType [Some b; Some a; Some b]] /\
  Ternary Jq.iterate two two triple nullType =
    Error (ErrCannotIterate nullType) /\
  Ternary two Jq.iterate two triple nullType =
    Error (ErrCannotIterate nullType) /\
  Ternary two two Jq.iterate triple nullType =
    Error (ErrCannotIterate nullType).
Proof.
  intros a b two triple.
  destruct (Ternary_product two (Literal a) two triple nullType)
    as (Hok & _).
  destruct (Ternary_product Jq.iterate two two triple nullType)
    as (_ & Hx & _).
  destruct (Ternary_product two Jq.iterate two triple nullType)
    as (_ & _ & Hy & _).
  destruct (Ternary_product two two Jq.iterate triple nullType)
    as (_ & _ & _ & Hz).
  split; [|split; [|split]].
  - apply (Hok [a; b] [a] [a; b]); try reflexivity.
    intros; eexists; reflexivity.
  - apply Hx; reflexivity.
  - apply (Hy [a; b]); reflexivity.
  - apply (Hz [a; b] [a; b]); reflexivity.
Defined.

(** * Further properties of the evaluator *)

(** ** Arrays under [+] and [-] *)

(** A loop that appends the values found, in the order of the indices. *)
Lemma fold_left_present {V} (g : Z -> option V) (l : list Z)
    (outs : list (option V)) :
  fold_left (fun outs xi =>
    match g xi with
    | Some elem => outs ++ [Some elem]
    | None => outs
    end) l outs = outs ++ drop_holes (map g l).
Proof.
  revert outs; induction l as [|a l IH]; intros outs; simpl.
  - now rewrite app_nil_r.
  - rewrite IH; destruct (g a) as [elem|]; simpl; [|reflexivity].
    now rewrite <- app_assoc.
Qed.

Lemma append_present_drop (xl outs : list (option Value)) :
  Jq.append_present xl outs = outs ++ drop_holes xl.
Proof.
  unfold Jq.append_present, IndexLength.
  now rewrite (fold_left_present (Index xl)), map_Index_range.
Qed.

Lemma drop_holes_app {V} (l1 l2 : list (option V)) :
  drop_holes (l1 ++ l2) = drop_holes l1 ++ drop_holes l2.
Proof. apply filter_app. Qed.

Lemma drop_holes_idem {V} (l : list (option V)) :
  drop_holes (drop_holes l) = drop_holes l.
Proof.
  induction l as [|[v|] l IH]; simpl; [reflexivity| |assumption].
  now rewrite IH.
Qed.

Lemma add_array_array (xl yl : list (option Value)) :
  Jq.add (indexType xl) (indexType yl) =
  Ok (indexType (drop_holes xl ++ drop_holes yl)).
Proof.
  unfold Jq.add; simpl.
  now rewrite !append_present_drop.
Qed.

(** X5: [+] on two Arrays is the concatenation of their elements without
    the holes; so it is associative, and adding the empty Array on either
    side only removes the holes. *)
Theorem add_arrays (xl yl zl : list (option Value)) :
  Jq.add (indexType xl) (indexType yl) =
    Ok (indexType (drop_holes xl ++ drop_holes yl)) /\
  bind (Jq.add (indexType xl) (indexType yl))
       (fun r => Jq.add r (indexType zl)) =
  bind (Jq.add (indexType yl) (indexType zl))
       (fun r => Jq.add (indexType xl) r) /\
  Jq.add (indexType []) (indexType xl) = Ok (indexType (drop_holes xl)) /\
  Jq.add (indexType xl) (indexType []) = Ok (indexType (drop_holes xl)).
Proof.
  split; [apply add_array_array|].
  split; [|split].
  - rewrite !add_array_array; simpl.
    rewrite !add_array_array.
    now rewrite !drop_holes_app, !drop_holes_idem, app_assoc.
  - now rewrite add_array_array.
  - now rewrite add_array_array, app_nil_r.
Qed.

(** X6: [+] returns a value exactly when its operands are two Numbers, two
    Texts or two Arrays, and the value is then of the category of the
    operands.  With a left operand that is Null or a Bool it is the error
    "cannot use numeric operator on values". *)
Theorem add_operands (x y : Value) :
  ((exists v, Jq.add x y = Ok v) <->
   category_of x = category_of y /\
   (category_of x = Number \/ category_of x = Text \/
    category_of x = Array)) /\
  (forall v, Jq.add x y = Ok v -> category_of v = category_of x) /\
  (category_of x = Null \/ category_of x = Bool ->
   Jq.add x y = Error (ErrNumericOperands x y)).
Proof.
  split; [split|split].
  - intros [v Hv].
    destruct x as [|xb|xf|xs|xa|xl], y as [|yb|yf|ys|ya|yl];
      try discriminate Hv; simpl; auto.
    exfalso; unfold Jq.add in Hv; simpl in Hv.
    destruct (Jq.merge_keys ya []) as [o|e|p]; simpl in Hv;
      try discriminate Hv.
    destruct (Jq.merge_keys xa o) as [o'|e|p]; simpl in Hv;
      discriminate Hv.
  - intros [Hc Hk].
    destruct x as [|xb|xf|xs|xa|xl], y as [|yb|yf|ys|ya|yl];
      try discriminate Hc;
      try (destruct Hk as [Hk|[Hk|Hk]]; discriminate Hk).
    + eexists; reflexivity.
    + eexists; reflexivity.
    + eexists; apply add_array_array.
  - intros v Hv.
    destruct x as [|xb|xf|xs|xa|xl], y as [|yb|yf|ys|ya|yl];
      try discriminate Hv;
      try (injection Hv as <-; reflexivity).
    + exfalso; unfold Jq.add in Hv; simpl in Hv.
      destruct (Jq.merge_keys ya []) as [o|e|p]; simpl in Hv;
        try discriminate Hv.
      destruct (Jq.merge_keys xa o) as [o'|e|p]; simpl in Hv;
        discriminate Hv.
  - intros [Hc|Hc]; destruct x; try discriminate Hc; reflexivity.
Qed.

Lemma add_operands_witness :
  (exists v, Jq.add (stringType "ab") (stringType "c") = Ok v) /\
  category_of (stringType "abc") = category_of (stringType "ab") /\
  Jq.add (boolType true) (float64Type 1) =
    Error (ErrNumericOperands (boolType true) (float64Type 1)).
Proof.
  destruct (add_operands (stringType "ab") (stringType "c"))
    as (Hiff & Hcat & _).
  destruct (add_operands (boolType true) (float64Type 1)) as (_ & _ & Herr).
  split; [|split].
  - apply Hiff; simpl; auto.
  - apply Hcat; reflexivity.
  - apply Herr; simpl; auto.
Defined.

(** The inner loop of [sub]: is [xelem] equal to an element of [yl]. *)
Lemma sub_inner_loop (xelem : Value) (yl : list (option Value)) :
  existsb (fun yi =>
    match Index yl yi with
    | None => false
    | Some yelem => Equal xelem yelem
    end) (range 0 (IndexLength yl)) =
  existsb (fun yslot =>
    match yslot with
    | None => false
    | Some yelem => Equal xelem yelem
    end) yl.
Proof.
  unfold IndexLength.
  transitivity
    (existsb (fun yslot =>
       match yslot with
       | None => false
       | Some yelem => Equal xelem yelem
       end) (map (Index yl) (range 0 (len yl)))).
  - induction (range 0 (len yl)) as [|i l IH]; simpl; [reflexivity|].
    now rewrite IH.
  - now rewrite map_Index_range.
Qed.

Lemma sub_array_array (xl yl : list (option Value)) :
  Jq.sub (indexType xl) (indexType yl) =
  Ok (indexType
        (filter (fun xslot =>
           match xslot with
           | None => false
           | Some xelem =>
               negb (existsb (fun yslot =>
                       match yslot with
                       | None => false
                       | Some yelem => Equal xelem yelem
                       end) yl)
           end) xl)).
Proof.
  unfold Jq.sub; simpl; do 3 f_equal.
  set (keep := fun xslot : option Value =>
         match xslot with
         | None => false
         | Some xelem =>
             negb (existsb (fun yslot =>
                     match yslot with
                     | None => false
                     | Some yelem => Equal xelem yelem
                     end) yl)
         end).
  assert (Hloop : forall (l : list Z) (outs : list (option Value)),
    fold_left (fun outs xi =>
      match Index xl xi with
      | None => outs
      | Some xelem =>
          if existsb (fun yi =>
               match Index yl yi with
               | None => false
               | Some yelem => Equal xelem yelem
               end) (range 0 (IndexLength yl))
          then outs
          else outs ++ [Some xelem]
      end) l outs = outs ++ filter keep (map (Index xl) l)).
  { induction l as [|i l IH]; intros outs; simpl.
    - now rewrite app_nil_r.
    - rewrite IH; destruct (Index xl i) as [xelem|]; simpl; [|reflexivity].
      rewrite sub_inner_loop.
      destruct (existsb _ yl); simpl; [reflexivity|].
      now rewrite <- app_assoc. }
  rewrite Hloop; unfold IndexLength.
  now rewrite map_Index_range.
Qed.

Lemma filter_none {A} (p : A -> bool) (l : list A) :
  (forall a, In a l -> p a = false) -> filter p l = [].
Proof.
  induction l as [|a l IH]; intros Hall; simpl; [reflexivity|].
  rewrite (Hall a (or_introl eq_refl)).
  apply IH; intros b Hb; apply Hall; now right.
Qed.

(** X7: [-] on two Arrays keeps, in order, the elements of the left one
    that are [Equal] to no element of the right one; holes are dropped on
    the left and ignored on the right.  An Array without NaN minus itself
    is the empty Array. *)
Theorem sub_arrays (xl yl : list (option Value)) :
  (exists outs,
      Jq.sub (indexType xl) (indexType yl) = Ok (indexType outs) /\
      (forall slot, In slot outs <->
         exists xelem, slot = Some xelem /\ In (Some xelem) xl /\
           forall yelem, In (Some yelem) yl -> Equal xelem yelem = false) /\
      exists keep, outs = filter keep xl) /\
  (no_nan (indexType xl) = true ->
   Jq.sub (indexType xl) (indexType xl) = Ok (indexType [])).
Proof.
  split.
  - eexists; split; [apply sub_array_array|split; [|eexists; reflexivity]].
    intros slot; rewrite filter_In; split.
    + intros [Hin Hkeep]; destruct slot as [xelem|]; [|discriminate].
      exists xelem; split; [reflexivity|split; [exact Hin|]].
      intros yelem Hy.
      apply negb_true_iff in Hkeep.
      destruct (Equal xelem yelem) eqn:E; [|reflexivity].
      rewrite <- Hkeep; symmetry; apply existsb_exists.
      exists (Some yelem); split; assumption.
    + intros (xelem & -> & Hin & Hno); split; [exact Hin|].
      apply negb_true_iff.
      destruct (existsb _ yl) eqn:E; [|reflexivity].
      apply existsb_exists in E; destruct E as ([yelem|] & Hy & He);
        [|discriminate].
      now rewrite (Hno yelem Hy) in He.
  - intros Hnan; rewrite sub_array_array; do 2 f_equal.
    simpl in Hnan; rewrite forallb_forall in Hnan.
    assert (Hall : forall slot, In slot xl ->
      match slot with
      | None => false
      | Some xelem =>
          negb (existsb (fun yslot =>
                  match yslot with
                  | None => false
                  | Some yelem => Equal xelem yelem
                  end) xl)
      end = false).
    { intros [xelem|] Hin; [|reflexivity].
      apply negb_false_iff, existsb_exists.
      exists (Some xelem); split; [exact Hin|].
      apply Equal_refl, (Hnan _ Hin). }
    apply filter_none; exact Hall.
Qed.

Lemma sub_arrays_witness :
  let xl := [Some (float64Type 1); None; Some (stringType "a")] in
  Jq.sub (indexType xl) (indexType xl) = Ok (indexType []).
Proof.
  intros xl.
  destruct (sub_arrays xl xl) as (_ & Hself).
  apply Hself; reflexivity.
Defined.

(** ** Indexing, slicing and negation *)


(** X9: when [GetIndex v i] finds a value, [v] is an Array, [i] is a Number
    that converts exactly to a position inside it, the value is the element
    at that position, and the jq filter [.[i]] emits that same value. *)
Theorem GetIndex_found (int_indefinite : float -> Z) (v i e : Value) :
  SiftLookup.GetIndex int_indefinite v i = Some e ->
  exists ix f,
    v = indexType ix /\ i = float64Type f /\
    0 <= int_of_float64 int_indefinite f < len ix /\
    nth_error ix (Z.to_nat (int_of_float64 int_indefinite f)) =
      Some (Some e) /\
    Jq.index int_indefinite v i = Ok [e].
Proof.
  unfold SiftLookup.GetIndex.
  destruct i as [| |f| | |]; simpl; try discriminate.
  set (ii := int_of_float64 int_indefinite f).
  destruct (PrimFloat.eqb (float64_of_int ii) f) eqn:Hexact; simpl;
    [|discriminate].
  destruct (Z.ltb_spec ii 0) as [Hneg|Hpos]; [discriminate|].
  destruct v as [| | | | |ix]; simpl; try discriminate.
  intros Hix; exists ix, f.
  assert (Hin : ii < len ix).
  { destruct (Z.lt_ge_cases ii (len ix)) as [H|H]; [exact H|].
    rewrite Index_beyond in Hix by lia; discriminate. }
  split; [reflexivity|split; [reflexivity|split; [lia|split]]].
  - fold ii; unfold Index in Hix.
    destruct ((ii <? 0) || (ii >=? len ix)); [discriminate|].
    destruct (nth_error ix (Z.to_nat ii)) as [[e'|]|]; try discriminate.
    now injection Hix as ->.
  - fold ii; rewrite float_eqb_sym, Hexact; simpl.
    destruct (Z.ltb_spec ii 0); [lia|].
    rewrite Hix; reflexivity.
Qed.

Lemma GetIndex_found_witness :
  let ix := [Some (stringType "a"); Some (stringType "b")] in
  exists ix' f,
    indexType ix = indexType ix' /\ float64Type 1 = float64Type f /\
    0 <= int_of_float64 (fun _ => - 2 ^ 63) f < len ix' /\
    nth_error ix' (Z.to_nat (int_of_float64 (fun _ => - 2 ^ 63) f)) =
      Some (Some (stringType "b")) /\
    Jq.index (fun _ => - 2 ^ 63) (indexType ix) (float64Type 1) =
      Ok [stringType "b"].
Proof.
  intros ix.
  apply (GetIndex_found (fun _ => - 2 ^ 63) (indexType ix) (float64Type 1)
           (stringType "b")).
  reflexivity.
Defined.

Lemma length_substring (s : string) (n m : nat) :
  (n + m <= String.length s)%nat -> String.length (substring n m s) = m.
Proof.
  revert n m; induction s as [|c s IH]; intros n m H; simpl in *.
  - destruct n, m; simpl; try reflexivity; lia.
  - destruct n as [|n].
    + destruct m as [|m]; simpl; [reflexivity|].
      f_equal; apply (IH 0%nat m); lia.
    + apply IH; lia.
Qed.

(** X10: slicing a Text with bounds that normalize to [begin <= end] gives
    the Text of the bytes from [begin] up to [end], of length
    [end - begin].  With [end < begin] the slice expression of the source
    panics, on an Array (in [make]) and on a Text (in the slice of the
    string) alike.  A Bool, a Number and an Object cannot be sliced,
    whatever the bounds are. *)
Theorem slice_text_and_inverted (int_indefinite : float -> Z) :
  (forall s begin end_ beginI endI,
      let n := Z.of_nat (String.length s) in
      bound int_indefinite begin 0 n = Ok beginI ->
      bound int_indefinite end_ n n = Ok endI ->
      beginI <= endI ->
      exists sub,
        Jq.slice int_indefinite (stringType s) begin end_ =
          Ok [stringType sub] /\
        sub = substring (Z.to_nat beginI) (Z.to_nat (endI - beginI)) s /\
        Z.of_nat (String.length sub) = endI - beginI) /\
  (forall base n begin end_ beginI endI,
      Length base = Some n ->
      bound int_indefinite begin 0 n = Ok beginI ->
      bound int_indefinite end_ n n = Ok endI ->
      endI < beginI ->
      Jq.slice int_indefinite base begin end_ =
      Panic (match base with
             | indexType _ => PanicMakeslice
             | _ => PanicSliceBounds
             end)) /\
  (forall base begin end_,
      category_of base = Bool \/ category_of base = Number \/
      category_of base = Object ->
      Jq.slice int_indefinite base begin end_ = Error (ErrCannotSlice base)).
Proof.
  split; [|split].
  - intros s begin end_ beginI endI n Hb He Hle.
    assert (Hn : 0 <= n) by (unfold n; lia).
    assert (Hbr : 0 <= beginI <= n)
      by (apply (bound_range int_indefinite begin 0 n); [lia|exact Hb]).
    assert (Her : 0 <= endI <= n)
      by (apply (bound_range int_indefinite end_ n n); [lia|exact He]).
    eexists; split; [|split; [reflexivity|]].
    + unfold bound in Hb, He; unfold Jq.slice; simpl; fold n.
      destruct begin as [b|]; [rewrite Hb|injection Hb as <-]; simpl;
        (destruct end_ as [e|]; [rewrite He|injection He as <-]; simpl);
        (destruct (Z.ltb_spec endI beginI) ||
         destruct (Z.ltb_spec endI 0) ||
         destruct (Z.ltb_spec n beginI) ||
         destruct (Z.ltb_spec n 0)); try lia; reflexivity.
    + rewrite length_substring; unfold n in *; lia.
  - intros base n begin end_ beginI endI Hlen Hb He Hlt.
    unfold bound in Hb, He; unfold Jq.slice.
    destruct base as [| | |s| |ix]; try discriminate Hlen;
      simpl in Hlen; injection Hlen as <-; simpl.
    + destruct begin as [b|]; [rewrite Hb|injection Hb as <-]; simpl;
        (destruct end_ as [e|]; [rewrite He|injection He as <-]; simpl);
        match goal with
        | |- context [?a <? ?b] => destruct (Z.ltb_spec a b)
        end; try lia; reflexivity.
    + unfold IndexLength in *.
      destruct begin as [b|]; [rewrite Hb|injection Hb as <-]; simpl;
        (destruct end_ as [e|]; [rewrite He|injection He as <-]; simpl);
        match goal with
        | |- context [?a <? ?b] => destruct (Z.ltb_spec a b)
        end; try lia; reflexivity.
  - intros base begin end_ [H|[H|H]]; destruct base; try discriminate H;
      reflexivity.
Qed.

Lemma slice_text_and_inverted_witness :
  (exists sub,
      Jq.slice (fun _ => - 2 ^ 63) (stringType "hello")
        (Some (float64Type 1)) (Some (float64Type (-1))) =
        Ok [stringType sub] /\
      sub = substring 1 3 "hello" /\
      Z.of_nat (String.length sub) = 4 - 1) /\
  Jq.slice (fun _ => - 2 ^ 63) (indexType [Some nullType; Some nullType])
    (Some (float64Type 2)) (Some (float64Type 1)) = Panic PanicMakeslice /\
  Jq.slice (fun _ => - 2 ^ 63) (stringType "hello")
    (Some (float64Type 2)) (Some (float64Type 1)) = Panic PanicSliceBounds /\
  Jq.slice (fun _ => - 2 ^ 63) (boolType true) (Some nullType) None =
    Error (ErrCannotSlice (boolType true)).
Proof.
  destruct (slice_text_and_inverted (fun _ => - 2 ^ 63))
    as (Htext & Hinv & Hcannot).
  split; [|split; [|split]].
  - apply (Htext "hello" (Some (float64Type 1)) (Some (float64Type (-1)))
             1 4); [reflexivity|reflexivity|lia].
  - apply (Hinv (indexType [Some nullType; Some nullType]) 2 _ _ 2 1);
      [reflexivity|reflexivity|reflexivity|lia].
  - apply (Hinv (stringType "hello") 5 _ _ 2 1);
      [reflexivity|reflexivity|reflexivity|lia].
  - apply Hcannot; left; reflexivity.
Defined.

Lemma float_opp_involutive (n : float) : (- - n)%float = n.
Proof.
  apply Prim2SF_inj; rewrite !opp_spec.
  destruct (Prim2SF n) as [s|s| |s m e]; simpl; try reflexivity;
    now rewrite negb_involutive.
Qed.

(** X11: negation undoes itself: if [neg v] returns [w] then [neg w]
    returns [v].  It returns a value exactly on Numbers; anything else is
    the error "cannot negate value", and it never panics. *)
Theorem neg_involutive (v : Value) :
  (forall w, Jq.neg v = Ok w -> Jq.neg w = Ok v) /\
  ((exists w, Jq.neg v = Ok w) <-> category_of v = Number) /\
  (category_of v <> Number -> Jq.neg v = Error (ErrCannotNegate v)).
Proof.
  split; [|split; [split|]].
  - intros w Hw; destruct v; try discriminate Hw.
    injection Hw as <-; unfold Jq.neg; simpl.
    now rewrite float_opp_involutive.
  - intros [w Hw]; destruct v; try discriminate Hw; reflexivity.
  - intros Hc; destruct v; try discriminate Hc; eexists; reflexivity.
  - intros Hc; destruct v; try reflexivity; now elim Hc.
Qed.

Lemma neg_involutive_witness :
  Jq.neg (float64Type (-2)) = Ok (float64Type 2) /\
  (exists w, Jq.neg (float64Type 2) = Ok w) /\
  Jq.neg (stringType "a") = Error (ErrCannotNegate (stringType "a")).
Proof.
  destruct (neg_involutive (float64Type 2)) as (Hinv & Hiff & _).
  destruct (neg_involutive (stringType "a")) as (_ & _ & Herr).
  split; [|split].
  - apply Hinv; reflexivity.
  - apply Hiff; reflexivity.
  - apply Herr; discriminate.
Defined.

(** ** Iteration, object construction and the numeric operators *)

(** X12: [.[]?] never fails and never panics: on an Array it emits what
    [.[]] emits, one value for each position, and on anything else, where
    [.[]] is an error, it emits nothing. *)
Theorem iterateOpt_total (v : Value) :
  Jq.iterateOpt v = Ok (outputs (Jq.iterate v)) /\
  (forall ix, v = indexType ix ->
     Jq.iterate v = Jq.iterateOpt v /\
     len (outputs (Jq.iterateOpt v)) = len ix) /\
  (category_of v <> Array ->
     Jq.iterate v = Error (ErrCannotIterate v) /\ Jq.iterateOpt v = Ok []).
Proof.
  split; [|split].
  - destruct v as [| | | | |ix]; try reflexivity.
    unfold Jq.iterateOpt; now rewrite iterate_array.
  - intros ix ->; split; [reflexivity|].
    unfold Jq.iterateOpt; rewrite iterate_array; simpl.
    unfold len; now rewrite length_map.
  - intros Hc; destruct v; try (split; reflexivity); now elim Hc.
Qed.

Lemma iterateOpt_total_witness :
  (Jq.iterate (indexType [None; Some (boolType true)]) =
   Jq.iterateOpt (indexType [None; Some (boolType true)]) /\
   len (outputs (Jq.iterateOpt (indexType [None; Some (boolType true)]))) =
   len [None; Some (boolType true)]) /\
  (Jq.iterate (float64Type 1) = Error (ErrCannotIterate (float64Type 1)) /\
   Jq.iterateOpt (float64Type 1) = Ok []).
Proof.
  destruct (iterateOpt_total (indexType [None; Some (boolType true)]))
    as (_ & Harr & _).
  destruct (iterateOpt_total (float64Type 1)) as (_ & _ & Hother).
  split.
  - apply Harr; reflexivity.
  - apply Hother; discriminate.
Defined.

(** The loop of [constructObject]: it ends with the map, or with the error
    for a key that is not a Text. *)
Lemma constructObject_loop_result (attrs : list Value) :
  (forall m,
     match Jq.constructObject_loop attrs m with
     | Ok _ => True
     | Error e =>
         exists key, e = ErrObjectKey key /\ In key attrs /\
                     AsString key = None
     | Panic _ => False
     end) /\
  (forall x m,
     match Jq.constructObject_loop (x :: attrs) m with
     | Ok _ => True
     | Error e =>
         exists key, e = ErrObjectKey key /\ In key (x :: attrs) /\
                     AsString key = None
     | Panic _ => False
     end).
Proof.
  induction attrs as [|a attrs [IH0 IH1]].
  - split; intros; exact I.
  - split; [exact (IH1 a)|].
    intros x m; simpl.
    destruct (AsString x) as [k|] eqn:Ex.
    + specialize (IH0 (map_set m k a)).
      destruct (Jq.constructObject_loop attrs (map_set m k a));
        [exact I| |exact IH0].
      destruct IH0 as (key & -> & Hin & Hk).
      exists key; repeat split; [right; right; exact Hin|exact Hk].
    + exists x; repeat split; [left; reflexivity|exact Ex].
Qed.

(** X13: [constructObject] never returns a value.  With an odd number of
    operands it panics; an error is "cannot use value as object key" for
    an operand that is not a Text; and when every key is a Text the map
    it has built is handed to [ToValue], which has no case for it, so that
    [Must] panics. *)
Theorem constructObject_never_returns (attrs : list Value) :
  (forall outs, Jq.constructObject attrs <> Ok outs) /\
  (Nat.even (List.length attrs) = false ->
   Jq.constructObject attrs = Panic PanicOddOperands) /\
  (forall e, Jq.constructObject attrs = Error e ->
     exists key, e = ErrObjectKey key /\ In key attrs /\
                 AsString key = None) /\
  (forall m, Jq.constructObject_loop attrs [] = Ok m ->
     Nat.even (List.length attrs) = true ->
     Jq.constructObject attrs =
     Panic (PanicError (ErrCannotRepresent (AnyMapValue m)))).
Proof.
  pose proof (proj1 (constructObject_loop_result attrs) []) as Hloop.
  unfold Jq.constructObject.
  destruct (Nat.even (List.length attrs)); simpl.
  - destruct (Jq.constructObject_loop attrs []) as [m|e|p]; simpl.
    + repeat split; try discriminate.
      intros m' H _; now injection H as <-.
    + repeat split; try discriminate.
      intros e' H; injection H as <-; exact Hloop.
    + destruct Hloop.
  - repeat split; discriminate.
Qed.

Lemma constructObject_never_returns_witness :
  Jq.constructObject [stringType "a"] = Panic PanicOddOperands /\
  (exists key, ErrObjectKey (float64Type 1) = ErrObjectKey key /\
               In key [float64Type 1; nullType] /\ AsString key = None) /\
  Jq.constructObject [stringType "a"; nullType] =
    Panic (PanicError
             (ErrCannotRepresent (AnyMapValue [("a", nullType)]))).
Proof.
  destruct (constructObject_never_returns [stringType "a"])
    as (_ & Hodd & _).
  destruct (constructObject_never_returns [float64Type 1; nullType])
    as (_ & _ & Herr & _).
  destruct (constructObject_never_returns [stringType "a"; nullType])
    as (_ & _ & _ & Hmust).
  split; [|split].
  - apply Hodd; reflexivity.
  - apply Herr; reflexivity.
  - apply Hmust; reflexivity.
Defined.

(** X14: a numeric operator built by [numOp] maps [op] over the pairs of
    the Numbers that its operands emit, the left operand in the outer
    loop.  An operand that is not a Number is an error only if it is
    reached: when either operand emits nothing, so does the operator,
    whatever the other one emits. *)
Theorem numOp_numbers (op : float -> float -> float) (x y : Filter)
    (v : Value) :
  (forall xns yns,
      x v = Ok (map float64Type xns) -> y v = Ok (map float64Type yns) ->
      Jq.numOp op x y v =
      Ok (flat_map (fun xn =>
            map (fun yn => float64Type (op xn yn)) yns) xns)) /\
  (forall xvs, x v = Ok xvs -> y v = Ok [] -> Jq.numOp op x y v = Ok []) /\
  (forall yvs, x v = Ok [] -> y v = Ok yvs -> Jq.numOp op x y v = Ok []) /\
  (forall xv xvs yv yvs,
      x v = Ok (xv :: xvs) -> y v = Ok (yv :: yvs) ->
      AsFloat64 xv = None ->
      Jq.numOp op x y v = Error (ErrNumericOperand xv)).
Proof.
  split; [|split; [|split]].
  - intros xns yns Hx Hy; unfold Jq.numOp, Binary; rewrite Hx, Hy; simpl.
    set (nop := fun xv yv : Value =>
           match AsFloat64 xv with
           | None => Error (ErrNumericOperand xv)
           | Some xn =>
               match AsFloat64 yv with
               | None => Error (ErrNumericOperand yv)
               | Some yn =>
                   bind (Must (ToValue (AnyFloat64 (op xn yn))))
                        (fun v => Ok [v])
               end
           end).
    rewrite (Binary_loops_as_product nop), (product_loop_ok nop).
    + simpl; f_equal.
      rewrite (flat_map_list_prod (fun xv yv => outputs (nop xv yv))).
      clear; induction xns as [|xn xns IH]; simpl; [reflexivity|].
      rewrite IH; f_equal.
      clear; induction yns as [|yn yns IH]; simpl; [reflexivity|].
      now rewrite IH.
    + intros [xv yv] Hin; apply in_prod_iff in Hin; simpl.
      destruct Hin as [Hxv Hyv].
      apply in_map_iff in Hxv, Hyv.
      destruct Hxv as (xn & <- & _), Hyv as (yn & <- & _).
      eexists; reflexivity.
  - intros xvs Hx Hy; unfold Jq.numOp, Binary; rewrite Hx, Hy; simpl.
    clear; induction xvs as [|xv xvs IH]; simpl; [reflexivity|exact IH].
  - intros yvs Hx Hy; unfold Jq.numOp, Binary; rewrite Hx, Hy; reflexivity.
  - intros xv xvs yv yvs Hx Hy Hxv.
    unfold Jq.numOp, Binary; rewrite Hx, Hy; simpl.
    rewrite Hxv; reflexivity.
Qed.

Lemma numOp_numbers_witness :
  let x := Concat (Literal (float64Type 1)) (Literal (float64Type 2)) in
  let y := Literal (float64Type 3) in
  let a := Literal (stringType "a") in
  Jq.numOp PrimFloat.mul x y nullType =
    Ok [float64Type (1 * 3); float64Type (2 * 3)] /\
  Jq.numOp PrimFloat.mul a Jq.iterateOpt nullType = Ok [] /\
  Jq.numOp PrimFloat.mul Jq.iterateOpt a nullType = Ok [] /\
  Jq.numOp PrimFloat.mul a y nullType =
    Error (ErrNumericOperand (stringType "a")).
Proof.
  intros x y a.
  destruct (numOp_numbers PrimFloat.mul x y nullType) as (Hok & _).
  destruct (numOp_numbers PrimFloat.mul a Jq.iterateOpt nullType)
    as (_ & Hy & _).
  destruct (numOp_numbers PrimFloat.mul Jq.iterateOpt a nullType)
    as (_ & _ & Hx & _).
  destruct (numOp_numbers PrimFloat.mul a y nullType) as (_ & _ & _ & Herr).
  split; [|split; [|split]].
  - apply (Hok [1%float; 2%float] [3%float]); reflexivity.
  - apply (Hy [stringType "a"]); reflexivity.
  - apply (Hx [stringType "a"]); reflexivity.
  - apply (Herr (stringType "a") [] (float64Type 3) []); reflexivity.
Defined.

(** * Further properties of the values *)

(** ** The keys of an Object *)

Lemma insert_key_NoDup (k : string) (ks : list string) :
  ~ In k ks -> NoDup ks -> NoDup (insert_key k ks).
Proof.
  induction ks as [|k' ks IH]; intros Hnin Hnd; simpl.
  - constructor; [exact Hnin|constructor].
  - destruct (String.leb k k'); [constructor; assumption|].
    inversion Hnd as [|? ? Hk' Hnd']; subst.
    constructor.
    + rewrite in_insert_key; intros [->|Hin]; [|contradiction].
      apply Hnin; left; reflexivity.
    + apply IH; [|exact Hnd'].
      intros Hin; apply Hnin; right; exact Hin.
Qed.

Lemma sort_keys_NoDup (ks : list string) : NoDup ks -> NoDup (sort_keys ks).
Proof.
  induction 1 as [|k ks Hnin Hnd IH]; simpl; [constructor|].
  apply insert_key_NoDup; [|exact IH].
  now rewrite in_sort_keys.
Qed.

Lemma map_keys_NoDup {V} (a : gomap V) : NoDup (map_keys a).
Proof.
  induction a as [|[k v] a IH]; simpl; constructor.
  - rewrite filter_In; intros [_ H].
    now rewrite String.eqb_refl in H.
  - now apply NoDup_filter.
Qed.

(** X15: [Keys] lists exactly the keys for which [Attr] has a value: every
    listed key is a Text, it is listed once, the list is in ascending
    order, and a value is found by [Attr] if and only if its key is
    listed. *)
Theorem Keys_exact (a : gomap Value) :
  (forall key, In key (Keys a) <-> exists v, Attr a key = Some v) /\
  NoDup (Keys a) /\
  exists ks,
    Keys a = map stringType ks /\
    Sorted (fun k1 k2 => String.leb k1 k2 = true) ks.
Proof.
  split; [|split].
  - intros key; unfold Keys; rewrite in_map_iff; split.
    + intros (k & <- & Hin).
      destruct (Keys_have_values a k Hin) as (v & Hv & _); eauto.
    + intros [v Hv]; unfold Attr in Hv.
      destruct key as [| | |k| |]; try discriminate Hv; simpl in Hv.
      exists k; split; [reflexivity|].
      apply in_sort_keys, map_keys_complete.
      apply map_get_in in Hv.
      apply (in_map fst) in Hv; exact Hv.
  - unfold Keys.
    pose proof (sort_keys_NoDup _ (map_keys_NoDup a)) as Hnd.
    induction Hnd as [|k ks Hnin Hnd IH]; simpl; constructor; [|exact IH].
    rewrite in_map_iff; intros (k' & E & Hin).
    injection E as ->; contradiction.
  - eexists; split; [reflexivity|apply sort_keys_sorted].
Qed.

(** ** [walk] and the size of a value *)

Lemma insert_key_perm (k : string) (ks : list string) :
  Permutation (insert_key k ks) (k :: ks).
Proof.
  induction ks as [|k' ks IH]; simpl; [reflexivity|].
  destruct (String.leb k k'); [reflexivity|].
  rewrite IH; apply perm_swap.
Qed.

Lemma sort_keys_perm (ks : list string) : Permutation (sort_keys ks) ks.
Proof.
  induction ks as [|k ks IH]; simpl; [reflexivity|].
  rewrite insert_key_perm; now constructor.
Qed.

Lemma list_sum_perm (l1 l2 : list nat) :
  Permutation l1 l2 -> list_sum l1 = list_sum l2.
Proof.
  induction 1; simpl; lia.
Qed.

Lemma map_keys_distinct {V} (a : gomap V) :
  NoDup (map fst a) -> map_keys a = map fst a.
Proof.
  induction a as [|[k v] a IH]; simpl; intros Hnd; [reflexivity|].
  inversion Hnd as [|? ? Hnin Hnd']; subst.
  rewrite IH by exact Hnd'; f_equal.
  apply forallb_filter_id, forallb_forall; intros k' Hin.
  destruct (String.eqb_spec k k') as [->|]; [contradiction|reflexivity].
Qed.

Lemma distinct_keys_attr (a : gomap Value) :
  distinct_keys (attrType a) ->
  NoDup (map fst a) /\ forall k v, In (k, v) a -> distinct_keys v.
Proof.
  intros [Hnd Hall]; split; [exact Hnd|].
  clear Hnd; induction a as [|[k0 v0] a IH]; intros k v Hin;
    [destruct Hin|].
  destruct Hall as [H0 Hall].
  destruct Hin as [E|Hin]; [injection E as _ <-; exact H0|].
  exact (IH Hall k v Hin).
Qed.

Lemma distinct_keys_index (ix : list (option Value)) :
  distinct_keys (indexType ix) ->
  forall v, In (Some v) ix -> distinct_keys v.
Proof.
  induction ix as [|[v0|] ix IH]; intros Hall v Hin; [destruct Hin| |].
  - destruct Hall as [H0 Hall].
    destruct Hin as [E|Hin]; [injection E as <-; exact H0|].
    exact (IH Hall v Hin).
  - destruct Hin as [E|Hin]; [discriminate E|].
    exact (IH Hall v Hin).
Qed.

(** With distinct keys, the first entry for a key is the only one. *)
Lemma map_get_distinct {V} (a : gomap V) (k : string) (v : V) :
  NoDup (map fst a) -> In (k, v) a -> map_get a k = Some v.
Proof.
  induction a as [|[k0 v0] a IH]; simpl; intros Hnd Hin; [destruct Hin|].
  inversion Hnd as [|? ? Hnin Hnd']; subst.
  destruct Hin as [E|Hin].
  - injection E as -> ->; now rewrite String.eqb_refl.
  - destruct (String.eqb_spec k0 k) as [->|Hne]; [|now apply IH].
    elim Hnin; apply (in_map fst) in Hin; exact Hin.
Qed.

(** X16: on a value whose Objects hold each key once, [walk] emits as many
    values as the value has nodes: the value itself, and what it emits
    below each value of a key and each element. *)
Theorem walk_counts_nodes (v : Value) :
  distinct_keys v ->
  List.length (outputs (Jq.walk v)) = nodes v.
Proof.
  unfold Jq.walk; simpl outputs.
  induction v as [| | | |a IH|ix IH] using Value_induction; intros Hd;
    try reflexivity.
  - destruct (distinct_keys_attr a Hd) as [Hnd Hall].
    rewrite visit_unfold; simpl; f_equal.
    rewrite length_flat_map; unfold Keys; rewrite map_map.
    rewrite (list_sum_perm _
               (map (fun k => List.length
                       match Attr a (stringType k) with
                       | Some value => Jq.visit value
                       | None => []
                       end) (map fst a)))
      by (apply Permutation_map; rewrite map_keys_distinct by exact Hnd;
          apply sort_keys_perm).
    rewrite map_map; f_equal.
    apply map_ext_in; intros [k value] Hin; simpl.
    unfold Attr; simpl.
    rewrite (map_get_distinct a k value Hnd Hin).
    exact (IH k value Hin (Hall k value Hin)).
  - pose proof (distinct_keys_index ix Hd) as Hall.
    rewrite visit_unfold; simpl; f_equal.
    unfold IndexLength.
    rewrite length_flat_map.
    replace (map (fun slot : option Value =>
                    match slot with
                    | Some elem => nodes elem
                    | None => 0%nat
                    end) ix)
      with (map (fun slot : option Value =>
                   match slot with
                   | Some elem => nodes elem
                   | None => 0%nat
                   end) (map (Index ix) (range 0 (len ix))))
      by (now rewrite map_Index_range).
    rewrite map_map; f_equal.
    apply map_ext_in; intros i _.
    destruct (Index ix i) as [value|] eqn:E; [|reflexivity].
    apply Index_in in E; exact (IH value E (Hall value E)).
Qed.

Lemma walk_counts_nodes_witness :
  let v := attrType [("b", float64Type 3);
                     ("a", indexType [Some (boolType true); None])] in
  List.length (outputs (Jq.walk v)) = nodes v.
Proof.
  intros v; apply walk_counts_nodes.
  simpl; repeat constructor; simpl; intuition discriminate.
Defined.

(** ** [ToValue] on decoded JSON *)

Lemma ToValue_map (m : gomap GoAny) :
  ToValue (AnyMapAny m) =
  bind (convert_map m []) (fun vm => Ok (attrType vm)).
Proof. reflexivity. Qed.

Lemma ToValue_slice (l : list GoAny) :
  ToValue (AnySliceAny l) =
  bind (convert_slice l) (fun ix => Ok (indexType ix)).
Proof. reflexivity. Qed.

Lemma GoAny_induction (P : GoAny -> Prop) :
  P AnyNil ->
  (forall v, P (AnyValue v)) ->
  (forall b, P (AnyBool b)) ->
  (forall f, P (AnyFloat64 f)) ->
  (forall s, P (AnyString s)) ->
  (forall m, (forall k y, In (k, y) m -> P y) -> P (AnyMapAny m)) ->
  (forall l, (forall y, In y l -> P y) -> P (AnySliceAny l)) ->
  (forall l, P (AnySliceValue l)) ->
  (forall m, P (AnyMapValue m)) ->
  forall x, P x.
Proof.
  intros Hnil Hvalue Hbool Hfloat Hstring Hmap Hslice Hsv Hmv.
  fix IH 1; intros [ |v|b|f|s|m|l|l|m].
  - apply Hnil.
  - apply Hvalue.
  - apply Hbool.
  - apply Hfloat.
  - apply Hstring.
  - apply Hmap.
    induction m as [|[k y] m IHm]; intros k' y' Hin; [destruct Hin|].
    destruct Hin as [E|Hin]; [|exact (IHm k' y' Hin)].
    injection E as _ <-; apply IH.
  - apply Hslice.
    induction l as [|y l IHl]; intros y' Hin; [destruct Hin|].
    destruct Hin as [<-|Hin]; [apply IH|exact (IHl y' Hin)].
  - apply Hsv.
  - apply Hmv.
Qed.

Lemma in_map_set {V} (m : gomap V) (k k' : string) (v v' : V) :
  In (k', v') (map_set m k v) -> (k', v') = (k, v) \/ In (k', v') m.
Proof.
  induction m as [|[k0 v0] m IH]; simpl.
  - intros [E|[]]; left; now symmetry.
  - destruct (String.eqb k0 k); simpl.
    + intros [E|Hin]; [left; now symmetry|right; right; exact Hin].
    + intros [E|Hin]; [right; left; exact E|].
      destruct (IH Hin); [left|right; right]; assumption.
Qed.

Lemma map_set_fresh {V} (m : gomap V) (k : string) (v : V) :
  ~ In k (map fst m) -> map_set m k v = m ++ [(k, v)].
Proof.
  induction m as [|[k0 v0] m IH]; simpl; intros Hnin; [reflexivity|].
  destruct (String.eqb_spec k0 k) as [->|Hne]; [elim Hnin; now left|].
  rewrite IH; [reflexivity|tauto].
Qed.

Lemma map_set_NoDup {V} (m : gomap V) (k : string) (v : V) :
  NoDup (map fst m) -> NoDup (map fst (map_set m k v)).
Proof.
  induction m as [|[k0 v0] m IH]; simpl; intros Hnd.
  - constructor; [intros []|constructor].
  - inversion Hnd as [|? ? Hnin Hnd']; subst.
    destruct (String.eqb_spec k0 k) as [->|Hne]; simpl;
      [constructor; assumption|].
    constructor; [|now apply IH].
    rewrite in_map_iff; intros ([k1 v1] & E & Hin); simpl in E; subst k1.
    apply in_map_set in Hin; destruct Hin as [E|Hin].
    + injection E as E _; contradiction.
    + apply Hnin; apply (in_map fst) in Hin; exact Hin.
Qed.

Lemma no_holes_attr (a : gomap Value) :
  (forall k v, In (k, v) a -> no_holes v = true) ->
  no_holes (attrType a) = true.
Proof.
  intros H; simpl; apply forallb_forall; intros [k v] Hin; eauto.
Qed.

Lemma distinct_keys_attr_intro (a : gomap Value) :
  NoDup (map fst a) -> (forall k v, In (k, v) a -> distinct_keys v) ->
  distinct_keys (attrType a).
Proof.
  intros Hnd Hall; split; [exact Hnd|].
  clear Hnd; induction a as [|[k v] a IH]; [exact I|].
  split; [apply (Hall k v); now left|].
  apply IH; intros k' v' Hin; apply (Hall k' v'); now right.
Qed.

Lemma distinct_keys_index_intro (ix : list (option Value)) :
  (forall v, In (Some v) ix -> distinct_keys v) ->
  distinct_keys (indexType ix).
Proof.
  induction ix as [|[v|] ix IH]; intros Hall; [exact I| |].
  - split; [apply Hall; now left|].
    apply IH; intros v' Hin; apply Hall; now right.
  - apply IH; intros v' Hin; apply Hall; now right.
Qed.

(** The loops of [ToValue] when every entry converts. *)
Lemma convert_map_ok (Q : Value -> Prop) (m : gomap GoAny) :
  (forall k y, In (k, y) m -> exists v, ToValue y = Ok v /\ Q v) ->
  forall vm,
    NoDup (map fst vm) -> (forall k v, In (k, v) vm -> Q v) ->
    exists vm',
      convert_map m vm = Ok vm' /\
      NoDup (map fst vm') /\ forall k v, In (k, v) vm' -> Q v.
Proof.
  induction m as [|[k y] m IH]; intros Hm vm Hnd HQ; simpl.
  - exists vm; auto.
  - destruct (Hm k y (or_introl eq_refl)) as (v & -> & Hv).
    apply IH.
    + intros k' y' Hin; apply (Hm k' y'); now right.
    + now apply map_set_NoDup.
    + intros k' v' Hin; apply in_map_set in Hin.
      destruct Hin as [E|Hin]; [injection E as _ ->; exact Hv|eauto].
Qed.

Lemma convert_slice_ok (Q : Value -> Prop) (l : list GoAny) :
  (forall y, In y l -> exists v, ToValue y = Ok v /\ Q v) ->
  exists vs,
    convert_slice l = Ok (map Some vs) /\
    Forall2 (fun y v => ToValue y = Ok v) l vs /\
    forall v, In v vs -> Q v.
Proof.
  induction l as [|y l IH]; intros Hl; simpl.
  - exists []; repeat split; [constructor|intros v []].
  - destruct (Hl y (or_introl eq_refl)) as (v & Hy & Hv); rewrite Hy.
    destruct IH as (vs & -> & Hall & HQ);
      [intros y' Hin; apply Hl; now right|].
    exists (v :: vs); repeat split; [constructor; assumption|].
    intros v' [<-|Hin]; auto.
Qed.

(** X17: [ToValue] converts whatever [encoding/json] decodes into an
    [interface{}] (nil, bool, float64, string, and maps and slices of
    these) to a value, and the value has no holes and no key twice. *)
Theorem ToValue_json_tree (x : GoAny) :
  json_tree x = true ->
  exists v, ToValue x = Ok v /\ no_holes v = true /\ distinct_keys v.
Proof.
  induction x as [ |v|b|f|s|m IH|l IH|l|m] using GoAny_induction;
    try discriminate;
    try (intros _; eexists; split; [reflexivity|split; [reflexivity|exact I]]).
  - intros Ht; simpl in Ht; rewrite forallb_forall in Ht.
    destruct (convert_map_ok
                (fun v => no_holes v = true /\ distinct_keys v) m)
      with (vm := @nil (string * Value))
      as (vm & Hvm & Hnd & HQ).
    + intros k y Hin.
      destruct (IH k y Hin (Ht (k, y) Hin)) as (v & Hv & HQ).
      exists v; split; assumption.
    + constructor.
    + intros k v [].
    + exists (attrType vm); rewrite ToValue_map, Hvm; simpl.
      split; [reflexivity|split].
      * apply no_holes_attr; intros k v Hin; apply (HQ k v Hin).
      * apply distinct_keys_attr_intro; [exact Hnd|].
        intros k v Hin; apply (HQ k v Hin).
  - intros Ht; simpl in Ht; rewrite forallb_forall in Ht.
    destruct (convert_slice_ok
                (fun v => no_holes v = true /\ distinct_keys v) l)
      as (vs & Hvs & _ & HQ).
    + intros y Hin.
      destruct (IH y Hin (Ht y Hin)) as (v & Hv & HQv).
      exists v; split; assumption.
    + exists (indexType (map Some vs)); rewrite ToValue_slice, Hvs; simpl.
      split; [reflexivity|split].
      * apply forallb_forall; intros slot Hin.
        apply in_map_iff in Hin; destruct Hin as (v & <- & Hin).
        apply (HQ v Hin).
      * apply distinct_keys_index_intro; intros v Hin.
        apply in_map_iff in Hin; destruct Hin as (v' & E & Hin).
        injection E as ->; apply (HQ v Hin).
Qed.

Lemma ToValue_json_tree_witness :
  let x := AnyMapAny [("a", AnySliceAny [AnyNil; AnyFloat64 1]);
                      ("b", AnyBool true)] in
  exists v, ToValue x = Ok v /\ no_holes v = true /\ distinct_keys v.
Proof.
  intros x; apply (ToValue_json_tree x); reflexivity.
Defined.

(** ** [toJSONValue] and the way back *)

Lemma toJSONValue_attr (a : gomap Value) :
  Json.toJSONValue (attrType a) =
  bind (Json.attr_loop
          (map (fun '(k, sv) => (k, Json.toJSONValue sv)) a) (Keys a) [])
       (fun m => Ok (AnyMapAny m)).
Proof. reflexivity. Qed.

Lemma toJSONValue_index (ix : list (option Value)) :
  Json.toJSONValue (indexType ix) =
  bind (Json.index_loop
          (map (fun slot => match slot with
                            | Some sv => Some (Json.toJSONValue sv)
                            | None => None
                            end) ix) (range 0 (IndexLength ix)) [])
       (fun list => Ok (AnySliceAny list)).
Proof. reflexivity. Qed.

Lemma Forall2_in_l {A B} (R : A -> B -> Prop) (l1 : list A) (l2 : list B) :
  Forall2 R l1 l2 -> forall a, In a l1 -> exists b, In b l2 /\ R a b.
Proof.
  induction 1 as [|a0 b0 l1 l2 HR _ IH]; intros a Hin; [destruct Hin|].
  destruct Hin as [<-|Hin]; [exists b0; split; [now left|exact HR]|].
  destruct (IH a Hin) as (b & Hb & Hab); exists b; split; [now right|auto].
Qed.

Lemma Forall2_in_r {A B} (R : A -> B -> Prop) (l1 : list A) (l2 : list B) :
  Forall2 R l1 l2 -> forall b, In b l2 -> exists a, In a l1 /\ R a b.
Proof.
  induction 1 as [|a0 b0 l1 l2 HR _ IH]; intros b Hin; [destruct Hin|].
  destruct Hin as [<-|Hin]; [exists a0; split; [now left|exact HR]|].
  destruct (IH b Hin) as (a & Ha & Hab); exists a; split; [now right|auto].
Qed.

Lemma Forall2_nth_error {A B} (R : A -> B -> Prop) (l1 : list A)
    (l2 : list B) :
  Forall2 R l1 l2 ->
  forall k a, nth_error l1 k = Some a ->
              exists b, nth_error l2 k = Some b /\ R a b.
Proof.
  induction 1 as [|a0 b0 l1 l2 HR _ IH]; intros k a Hk.
  - destruct k; discriminate Hk.
  - destruct k as [|k]; simpl in *; [|exact (IH k a Hk)].
    injection Hk as <-; eauto.
Qed.

(** Setting the entries of [added], whose keys are new and distinct, one
    after the other appends them. *)
Lemma fold_map_set_fresh {V} (added m : gomap V) :
  NoDup (map fst m ++ map fst added) ->
  fold_left (fun m kv => map_set m (fst kv) (snd kv)) added m = m ++ added.
Proof.
  revert m; induction added as [|[k v] added IH]; intros m Hnd; simpl.
  - now rewrite app_nil_r.
  - simpl in Hnd.
    rewrite map_set_fresh.
    + rewrite IH; [now rewrite <- app_assoc|].
      rewrite map_app, <- app_assoc; exact Hnd.
    + apply NoDup_remove_2 in Hnd.
      intros Hin; apply Hnd, in_or_app; now left.
Qed.

(** The loop of [toJSONValue] over keys that have convertible values. *)
Lemma attr_loop_ok (a : gomap Value) (ks : list string) :
  (forall k, In k ks ->
     exists v x, map_get a k = Some v /\ Json.toJSONValue v = Ok x) ->
  forall m,
  exists added,
    Json.attr_loop (map (fun '(k, sv) => (k, Json.toJSONValue sv)) a)
      (map stringType ks) m =
    Ok (fold_left (fun m kx => map_set m (fst kx) (snd kx)) added m) /\
    Forall2 (fun k kx =>
               fst kx = k /\
               exists v, map_get a k = Some v /\
                         Json.toJSONValue v = Ok (snd kx)) ks added.
Proof.
  induction ks as [|k ks IH]; intros Hks m.
  - exists []; split; [reflexivity|constructor].
  - destruct (Hks k (or_introl eq_refl)) as (v & x & Hv & Hx).
    destruct (IH (fun k' Hin => Hks k' (or_intror Hin)) (map_set m k x))
      as (added & Hloop & Hall).
    exists ((k, x) :: added); split.
    + simpl map; cbn [Json.attr_loop AsString].
      unfold Attr; cbn [AsString].
      rewrite (map_get_map Json.toJSONValue), Hv, Hx; simpl bind.
      exact Hloop.
    + constructor; [|exact Hall].
      split; [reflexivity|]; exists v; split; assumption.
Qed.

(** The loop of [toJSONValue] over positions that hold convertible
    values. *)
Lemma index_loop_ok (ix : list (option Value)) (js : list Z) :
  (forall j, In j js ->
     exists v x, Index ix j = Some v /\ Json.toJSONValue v = Ok x) ->
  forall elems,
  exists added,
    Json.index_loop
      (map (fun slot => match slot with
                        | Some sv => Some (Json.toJSONValue sv)
                        | None => None
                        end) ix) js elems = Ok (elems ++ added) /\
    Forall2 (fun j x =>
               exists v, Index ix j = Some v /\ Json.toJSONValue v = Ok x)
      js added.
Proof.
  induction js as [|j js IH]; intros Hjs elems.
  - exists []; split; [simpl; now rewrite app_nil_r|constructor].
  - destruct (Hjs j (or_introl eq_refl)) as (v & x & Hv & Hx).
    destruct (IH (fun j' Hin => Hjs j' (or_intror Hin)) (elems ++ [x]))
      as (added & Hloop & Hall).
    exists (x :: added); split.
    + cbn [Json.index_loop].
      rewrite (Index_map Json.toJSONValue), Hv, Hx; simpl bind.
      rewrite Hloop, <- app_assoc; reflexivity.
    + constructor; [|exact Hall].
      exists v; split; assumption.
Qed.


Lemma sort_keys_sorted_id (ks : list string) :
  Sorted (fun k1 k2 => String.leb k1 k2 = true) ks -> sort_keys ks = ks.
Proof.
  induction 1 as [|k ks Hs IH Hhd]; simpl; [reflexivity|].
  rewrite IH; destruct Hhd as [|k' ks' Hle]; simpl; [reflexivity|].
  now rewrite Hle.
Qed.

(** The loop of [ToValue] over a map with distinct keys. *)
Lemma convert_map_fold (m : gomap GoAny) :
  (forall k x, In (k, x) m -> exists v, ToValue x = Ok v) ->
  forall vm,
  exists conv,
    convert_map m vm =
    Ok (fold_left (fun vm kv => map_set vm (fst kv) (snd kv)) conv vm) /\
    Forall2 (fun kx kv => fst kv = fst kx /\ ToValue (snd kx) = Ok (snd kv))
      m conv.
Proof.
  induction m as [|[k x] m IH]; intros Hm vm.
  - exists []; split; [reflexivity|constructor].
  - destruct (Hm k x (or_introl eq_refl)) as (v & Hv).
    destruct (IH (fun k' x' Hin => Hm k' x' (or_intror Hin))
                (map_set vm k v)) as (conv & Hconv & Hall).
    exists ((k, v) :: conv); split.
    + simpl; rewrite Hv; exact Hconv.
    + constructor; [split; [reflexivity|exact Hv]|exact Hall].
Qed.

Lemma Forall2_map_fst {A B C} (R : A * B -> A * C -> Prop)
    (l1 : list (A * B)) (l2 : list (A * C)) :
  Forall2 (fun p q => fst q = fst p /\ R p q) l1 l2 ->
  map fst l2 = map fst l1.
Proof.
  induction 1 as [|p q l1 l2 [E _] _ IH]; simpl; [reflexivity|].
  now rewrite E, IH.
Qed.

Lemma in_present_slot (ix : list (option Value)) (i : Z) :
  no_holes (indexType ix) = true -> 0 <= i < len ix ->
  exists v, Index ix i = Some v /\ In (Some v) ix /\ no_holes v = true.
Proof.
  intros Hnh Hi; simpl in Hnh; rewrite forallb_forall in Hnh.
  destruct (nth_error ix (Z.to_nat i)) as [slot|] eqn:E.
  - pose proof (nth_error_In _ _ E) as Hin.
    specialize (Hnh slot Hin).
    destruct slot as [v|]; [|discriminate Hnh].
    exists v; split; [|split; assumption].
    replace i with (Z.of_nat (Z.to_nat i)) by lia.
    now apply Index_nth_error.
  - apply nth_error_None in E; unfold len in Hi; lia.
Qed.

Lemma nth_error_range (n : nat) (k : nat) :
  (k < n)%nat -> nth_error (range 0 (Z.of_nat n)) k = Some (Z.of_nat k).
Proof.
  intros Hk; rewrite range_0_seq, nth_error_map, nth_error_seq.
  now rewrite (proj2 (Nat.ltb_lt _ _) Hk).
Qed.

(** Converting a value without holes to [interface{}] and back. *)
Lemma toJSONValue_back (v : Value) :
  no_holes v = true ->
  exists x v',
    Json.toJSONValue v = Ok x /\ json_tree x = true /\
    ToValue x = Ok v' /\ (no_nan v = true -> Equal v v' = true).
Proof.
  induction v as [|b|f|s|a IH|ix IH] using Value_induction; intros Hnh.
  - exists AnyNil, nullType; repeat split.
  - exists (AnyBool b), (boolType b); repeat split.
    intros _; simpl; now destruct b.
  - exists (AnyFloat64 f), (float64Type f); repeat split.
    simpl; intros Hnan; apply float_eqb_refl.
    now apply negb_true_iff in Hnan.
  - exists (AnyString s), (stringType s); repeat split.
    intros _; apply String.eqb_refl.
  - (* Object *)
    simpl in Hnh; rewrite forallb_forall in Hnh.
    set (ks := sort_keys (map_keys a)).
    assert (Hks : forall k, In k ks ->
              exists v x, map_get a k = Some v /\ Json.toJSONValue v = Ok x).
    { intros k Hin.
      destruct (Keys_have_values a k Hin) as (v & Hv & Hva).
      destruct (IH k v Hva (Hnh (k, v) Hva)) as (x & _ & Hx & _).
      exists v, x; split; [exact Hv|exact Hx]. }
    destruct (attr_loop_ok a ks Hks []) as (added & Hloop & Hadded).
    assert (Hfst : map fst added = ks).
    { clear - Hadded; induction Hadded as [|k kx l1 l2 [E _] _ IHf];
        simpl; [reflexivity|now rewrite E, IHf]. }
    assert (Hnd : NoDup ks) by apply sort_keys_NoDup, map_keys_NoDup.
    rewrite fold_map_set_fresh in Hloop by (simpl; now rewrite Hfst).
    simpl in Hloop.
    assert (Hconv : forall k x, In (k, x) added ->
              exists v, In (k, v) a /\ Json.toJSONValue v = Ok x /\
                        json_tree x = true /\
                        exists v', ToValue x = Ok v' /\
                                   (no_nan v = true -> Equal v v' = true)).
    { intros k x Hin.
      destruct (Forall2_in_r _ _ _ Hadded (k, x) Hin)
        as (k0 & _ & E & v & Hv & Hx); simpl in E, Hx; subst k0.
      apply map_get_in in Hv.
      destruct (IH k v Hv (Hnh (k, v) Hv)) as (x0 & v' & Hx0 & Ht & Hb & He).
      rewrite Hx in Hx0; injection Hx0 as <-.
      exists v; repeat split; try assumption.
      exists v'; split; assumption. }
    destruct (convert_map_fold added) with (vm := @nil (string * Value))
      as (conv & Hcm & Hall).
    { intros k x Hin; destruct (Hconv k x Hin) as (_ & _ & _ & _ & v' & H & _).
      exists v'; exact H. }
    assert (Hfst' : map fst conv = ks)
      by (rewrite <- Hfst;
          apply (Forall2_map_fst
                   (fun kx kv => ToValue (snd kx) = Ok (snd kv)));
          exact Hall).
    rewrite fold_map_set_fresh in Hcm by (simpl; now rewrite Hfst').
    simpl in Hcm.
    exists (AnyMapAny added), (attrType conv).
    split; [|split; [|split]].
    + rewrite toJSONValue_attr; unfold Keys; fold ks.
      now rewrite Hloop.
    + simpl; apply forallb_forall; intros [k x] Hin.
      destruct (Hconv k x Hin) as (_ & _ & _ & Ht & _); exact Ht.
    + now rewrite ToValue_map, Hcm.
    + intros Hnan; simpl in Hnan; rewrite forallb_forall in Hnan.
      apply Equal_contents; simpl.
      assert (HK : Keys conv = Keys a).
      { unfold Keys; rewrite map_keys_distinct by (now rewrite Hfst').
        rewrite Hfst'; unfold ks.
        now rewrite sort_keys_sorted_id by apply sort_keys_sorted. }
      split; [now rewrite HK|].
      intros key Hin; unfold Keys in Hin; apply in_map_iff in Hin.
      destruct Hin as (k & <- & Hin); fold ks in Hin.
      destruct (Forall2_in_l _ _ _ Hadded k Hin)
        as ([k0 x] & Hkx & E & v & Hv & Hx); simpl in E, Hx; subst k0.
      destruct (Forall2_in_l _ _ _ Hall (k, x) Hkx)
        as ([k0 v'] & Hkv & E & Hv'); simpl in E, Hv'; subst k0.
      exists v, v'; split; [exact Hv|split].
      * unfold Attr; simpl.
        apply map_get_distinct; [now rewrite Hfst'|exact Hkv].
      * apply map_get_in in Hv.
        destruct (IH k v Hv (Hnh (k, v) Hv))
          as (x0 & v0 & Hx0 & _ & Hb & He).
        rewrite Hx in Hx0; injection Hx0 as <-.
        rewrite Hv' in Hb; injection Hb as <-.
        apply He, (Hnan (k, v) Hv).
  - (* Array *)
    assert (Hjs : forall j, In j (range 0 (len ix)) ->
              exists v x, Index ix j = Some v /\ Json.toJSONValue v = Ok x).
    { intros j Hin; apply in_range in Hin.
      destruct (in_present_slot ix j Hnh Hin) as (v & Hv & Hvin & Hvh).
      destruct (IH v Hvin Hvh) as (x & _ & Hx & _).
      exists v, x; split; assumption. }
    destruct (index_loop_ok ix (range 0 (len ix)) Hjs []) as
      (added & Hloop & Hadded); simpl in Hloop.
    assert (Hconv : forall x, In x added ->
              json_tree x = true /\ exists v', ToValue x = Ok v' /\ True).
    { intros x Hin.
      destruct (Forall2_in_r _ _ _ Hadded x Hin) as (j & _ & v & Hv & Hx).
      apply in_present_slot with (i := j) in Hnh as Hslot;
        [|destruct (Z.lt_ge_cases j 0);
          [rewrite Index_negative in Hv by lia; discriminate|];
          destruct (Z.lt_ge_cases j (len ix)); [lia|];
          rewrite Index_beyond in Hv by lia; discriminate].
      destruct Hslot as (v0 & Hv0 & Hvin & Hvh).
      rewrite Hv in Hv0; injection Hv0 as <-.
      destruct (IH v Hvin Hvh) as (x0 & v' & Hx0 & Ht & Hb & _).
      rewrite Hx in Hx0; injection Hx0 as <-.
      split; [exact Ht|exists v'; split; [exact Hb|exact I]]. }
    destruct (convert_slice_ok (fun _ => True) added) as (vs & Hcs & Hvs & _);
      [intros x Hin; exact (proj2 (Hconv x Hin))|].
    exists (AnySliceAny added), (indexType (map Some vs)).
    split; [|split; [|split]].
    + rewrite toJSONValue_index; unfold IndexLength; now rewrite Hloop.
    + simpl; apply forallb_forall; intros x Hin; apply (Hconv x Hin).
    + now rewrite ToValue_slice, Hcs.
    + intros Hnan; simpl in Hnan; rewrite forallb_forall in Hnan.
      apply Equal_contents; simpl.
      assert (Hlen : List.length vs = List.length ix).
      { rewrite <- (Forall2_length Hvs), <- (Forall2_length Hadded).
        unfold range, len; rewrite length_map, length_seq; lia. }
      split; [unfold len; rewrite length_map; lia|].
      intros i.
      destruct (Z.lt_ge_cases i 0) as [Hneg|Hpos];
        [now rewrite !Index_negative by assumption|].
      destruct (Z.lt_ge_cases i (len ix)) as [Hin|Hout];
        [|rewrite !Index_beyond
            by (unfold len in *; rewrite ?length_map; lia); exact I].
      destruct (in_present_slot ix i Hnh (conj Hpos Hin))
        as (v & Hv & Hvin & Hvh).
      rewrite Hv.
      assert (Hk : nth_error (range 0 (len ix)) (Z.to_nat i) = Some i).
      { unfold len in *; rewrite nth_error_range by lia; f_equal; lia. }
      destruct (Forall2_nth_error _ _ _ Hadded _ _ Hk)
        as (x & Hx & v0 & Hv0 & Hxv).
      rewrite Hv in Hv0; injection Hv0 as <-.
      destruct (Forall2_nth_error _ _ _ Hvs _ _ Hx) as (v' & Hv' & Hxv').
      replace i with (Z.of_nat (Z.to_nat i)) by lia.
      rewrite Index_of_nat, nth_error_map, Hv'; simpl.
      destruct (IH v Hvin Hvh) as (x0 & v0 & Hx0 & _ & Hb & He).
      rewrite Hxv in Hx0; injection Hx0 as <-.
      rewrite Hxv' in Hb; injection Hb as <-.
      apply He, (Hnan (Some v) Hvin).
Qed.








(** X19: a value without holes and without NaN survives the way to
    [interface{}] and back: [toJSONValue] converts it, [ToValue] converts
    the result, and what comes back is [Equal] to the value. *)
Theorem toJSONValue_round_trip (v : Value) :
  no_holes v = true -> no_nan v = true ->
  exists x v',
    Json.toJSONValue v = Ok x /\ ToValue x = Ok v' /\ Equal v v' = true.
Proof.
  intros Hnh Hnan.
  destruct (toJSONValue_back v Hnh) as (x & v' & Hx & _ & Hb & He).
  exists x, v'; split; [exact Hx|split; [exact Hb|exact (He Hnan)]].
Qed.

Lemma toJSONValue_round_trip_witness :
  let v := attrType [("b", indexType [Some (float64Type 1)]);
                     ("a", stringType "s")] in
  exists x v',
    Json.toJSONValue v = Ok x /\ ToValue x = Ok v' /\ Equal v v' = true.
Proof.
  intros v; apply (toJSONValue_round_trip v); reflexivity.
Defined.

(** * Further properties of the front end *)

(** ** The array constructor *)

(** X20: the filter of an array constructor [[e1, ..., en]] returns one
    Array that holds the outputs of the expressions, in order and without
    holes, so that iterating over it gives these outputs back; the error
    of the first expression that fails is the result, and with no
    expression the Array is empty. *)
Theorem arrayConstruct_collects (exprs : list Filter) (v : Value) :
  ((forall expr, In expr exprs -> exists outs, expr v = Ok outs) ->
   let results := flat_map (fun expr : Filter => outputs (expr v)) exprs in
   Parser.arrayConstruct exprs v = Ok [indexType (map Some results)] /\
   Compose (Parser.arrayConstruct exprs) Jq.iterate v = Ok results) /\
  (forall pre expr post e,
      exprs = pre ++ expr :: post ->
      (forall expr', In expr' pre -> exists outs, expr' v = Ok outs) ->
      expr v = Error e ->
      Parser.arrayConstruct exprs v = Error e) /\
  Parser.arrayConstruct [] v = Ok [indexType []].
Proof.
  assert (Hok : forall l : list Filter,
            (forall expr, In expr l -> exists outs, expr v = Ok outs) ->
            for_each l [] (fun (expr : Filter) results =>
              bind (expr v) (fun rs => Ok (results ++ rs))) =
            Ok (flat_map (fun expr : Filter => outputs (expr v)) l)).
  { intros l Hl.
    apply (for_each_flat (fun expr : Filter => outputs (expr v))).
    intros expr acc Hin; destruct (Hl expr Hin) as [outs ->]; reflexivity. }
  split; [|split; [|reflexivity]].
  - intros Hall results.
    assert (E : Parser.arrayConstruct exprs v =
                Ok [indexType (map Some results)])
      by (unfold Parser.arrayConstruct; now rewrite Hok).
    split; [exact E|].
    unfold Compose; rewrite E; cbn [bind for_each].
    rewrite iterate_array; simpl.
    now rewrite map_map, map_id.
  - intros pre expr post e -> Hpre He.
    unfold Parser.arrayConstruct.
    rewrite for_each_app, (Hok pre Hpre); simpl.
    now rewrite He.
Qed.

Lemma arrayConstruct_collects_witness :
  let exprs := [Jq.iterate; Jq.id] in
  let v := indexType [Some (float64Type 1); None] in
  (Parser.arrayConstruct exprs v =
     Ok [indexType [Some (float64Type 1); Some nullType; Some v]] /\
   Compose (Parser.arrayConstruct exprs) Jq.iterate v =
     Ok [float64Type 1; nullType; v]) /\
  Parser.arrayConstruct exprs nullType = Error (ErrCannotIterate nullType).
Proof.
  intros exprs v.
  destruct (arrayConstruct_collects exprs v) as (Hok & _).
  destruct (arrayConstruct_collects exprs nullType) as (_ & Herr & _).
  split.
  - apply Hok.
    intros expr [<-|[<-|[]]]; eexists; reflexivity.
  - apply (Herr [] Jq.iterate [Jq.id]); [reflexivity| |reflexivity].
    intros expr' [].
Defined.

(** ** The scanner always answers and makes progress *)

Section ScanProgress.

Import Scanner.

Variable IsLetter_above_ascii : Z -> bool.
Variable IsDigit_above_ascii : Z -> bool.
Variable DecodeRune : string -> Z * Z.
Variable EncodeRune : Z -> list Z.

(** [utf8.DecodeRune] reports a width of at least one byte, unless the
    slice is empty. *)
Hypothesis DecodeRune_width :
  forall text, text <> "" -> 1 <= snd (DecodeRune text).

(** From [s] to [s']: the same source, and nothing more left to read. *)
Let onward (s s' : scanner) : Prop :=
  src s' = src s /\ (remaining s' <= remaining s)%nat.

(** From [s] to [s']: the same source, and less left to read. *)
Let forward (s s' : scanner) : Prop :=
  src s' = src s /\ (remaining s' < remaining s)%nat.

Lemma settles_bind {A B} (P : A -> Prop) (Q : B -> Prop) (c : front A)
    (k : A -> front B) :
  settles P c -> (forall a, P a -> settles Q (k a)) -> settles Q (fbind c k).
Proof. destruct c; simpl; auto. Qed.

Lemma settles_weaken {A} (P Q : A -> Prop) (c : front A) :
  settles P c -> (forall a, P a -> Q a) -> settles Q c.
Proof. destruct c; simpl; auto. Qed.

Lemma get_in_range (text : string) (n : nat) (c : ascii) :
  String.get n text = Some c -> (n < String.length text)%nat.
Proof.
  revert n; induction text as [|c0 text IH]; intros n; simpl.
  - discriminate.
  - destruct n as [|n]; [lia|].
    intros H; apply IH in H; lia.
Qed.

Lemma substring_nonempty (text : string) (n m : nat) :
  (n < String.length text)%nat -> (0 < m)%nat ->
  substring n m text <> "".
Proof.
  revert n m; induction text as [|c0 text IH]; intros n m Hn Hm; simpl in *.
  - lia.
  - destruct n as [|n].
    + destruct m as [|m]; [lia|discriminate].
    + apply IH; lia.
Qed.

(** [next] calls [utf8.DecodeRune] on a slice that holds the byte it has
    just looked at. *)
Lemma decoded_text_nonempty (s : scanner) :
  (byte_at s (rdOffset s) >=? RuneSelf) = true ->
  substring (Z.to_nat (rdOffset s)) (String.length (src s)) (src s) <> "".
Proof.
  unfold byte_at; intros H.
  destruct (String.get (Z.to_nat (rdOffset s)) (src s)) as [c|] eqn:E;
    [|discriminate H].
  apply get_in_range in E.
  apply substring_nonempty; lia.
Qed.

Lemma next_progress (s : scanner) :
  settles (fun s' => onward s s' /\ (ch s <> -1 -> forward s s'))
    (next DecodeRune s).
Proof.
  unfold next, onward, forward.
  destruct (Z.ltb_spec (rdOffset s) (srclen s)) as [Hin|Hout].
  - destruct (byte_at s (rdOffset s) =? 0); [exact I|].
    destruct (byte_at s (rdOffset s) >=? RuneSelf) eqn:Ehigh.
    + pose proof (DecodeRune_width _ (decoded_text_nonempty s Ehigh)) as Hw.
      destruct (DecodeRune _) as [r w]; simpl in Hw.
      destruct ((r =? RuneError) && (w =? 1)); [exact I|].
      destruct ((r =? bom) && (rdOffset s >? 0)); [exact I|].
      unfold remaining, srclen in *; simpl.
      destruct (r =? -1), (Z.eqb_spec (ch s) (-1));
        repeat split; intros; try contradiction; lia.
    + unfold remaining, srclen in *; simpl.
      destruct (byte_at s (rdOffset s) =? -1), (Z.eqb_spec (ch s) (-1));
        repeat split; intros; try contradiction; lia.
  - unfold remaining, srclen in *; simpl.
    destruct (Z.eqb_spec (ch s) (-1));
      repeat split; intros; try contradiction; lia.
Qed.

Lemma next_onward (s : scanner) :
  settles (onward s) (next DecodeRune s).
Proof.
  apply (settles_weaken _ _ _ (next_progress s)); tauto.
Qed.

Lemma next_forward (s : scanner) :
  ch s <> -1 -> settles (forward s) (next DecodeRune s).
Proof.
  intros H; apply (settles_weaken _ _ _ (next_progress s)); tauto.
Qed.

Lemma remaining_positive (s : scanner) :
  ch s <> -1 -> (0 < remaining s)%nat.
Proof.
  intros H; unfold remaining.
  destruct (Z.eqb_spec (ch s) (-1)); [contradiction|lia].
Qed.

(** A loop [for cond(s.ch) { s.next() }] whose condition fails at the end
    of the source stops there at the latest. *)
Lemma skip_while_progress (cond : Z -> bool) :
  cond (-1) = false ->
  forall (fuel : nat) (any : bool) (s : scanner),
    (remaining s <= fuel)%nat ->
    settles (fun r => onward s (snd r) /\
                      (cond (ch s) = true -> forward s (snd r)))
      (skip_while DecodeRune fuel cond any s).
Proof.
  intros Heof; induction fuel as [|fuel IH]; intros any s Hfuel.
  - simpl; destruct (cond (ch s)) eqn:Ec.
    + assert (ch s <> -1) by (intros E; rewrite E in Ec; congruence).
      pose proof (remaining_positive s H); lia.
    + simpl; unfold onward; repeat split; try lia; discriminate.
  - simpl; destruct (cond (ch s)) eqn:Ec.
    + assert (Hch : ch s <> -1) by (intros E; rewrite E in Ec; congruence).
      apply (settles_bind (forward s)); [now apply next_forward|].
      intros s1 [Hsrc Hlt].
      apply (settles_weaken _ _ _ (IH true s1 ltac:(lia))).
      intros [any' s'] [[Hsrc' Hle] _]; simpl in *.
      unfold onward, forward; repeat split; try congruence; lia.
    + simpl; unfold onward; repeat split; try lia; discriminate.
Qed.

Lemma escape_digits_progress (n : nat) (base max : Z) (exact : bool) :
  forall (code : Z) (s : scanner),
    settles (fun r => onward s (snd r))
      (escape_digits DecodeRune n base max exact code s).
Proof.
  induction n as [|n IH]; intros code s; simpl.
  - unfold onward; split; [reflexivity|lia].
  - destruct (hexDigit (ch s)) as [h|].
    + destruct ((h >=? base) || (code * base + h >? max)).
      * destruct exact; simpl; [exact I|unfold onward; split; [reflexivity|lia]].
      * apply (settles_bind (onward s)); [apply next_onward|].
        intros s1 [Hsrc Hle].
        apply (settles_weaken _ _ _ (IH (code * base + h) s1)).
        intros [c s'] [Hsrc' Hle']; simpl in *.
        unfold onward; split; [congruence|lia].
    + destruct exact; simpl; [exact I|unfold onward; split; [reflexivity|lia]].
Qed.

Lemma scanEscape_progress (s : scanner) :
  ch s <> -1 ->
  settles (fun r => forward s (snd r)) (scanEscape DecodeRune s).
Proof.
  intros Hch; unfold scanEscape.
  apply (settles_bind (forward s)); [now apply next_forward|].
  intros s1 [Hsrc Hlt].
  assert (Hsimple : forall r : Z,
            settles (fun r => forward s (snd r))
              (fbind (next DecodeRune s1) (fun s2 => Done (r, s2)))).
  { intros r; apply (settles_bind (onward s1)); [apply next_onward|].
    intros s2 [Hsrc2 Hle2]; simpl.
    unfold forward; split; [congruence|lia]. }
  assert (Hdigits : forall n base max exact s2,
            onward s1 s2 ->
            settles (fun r => forward s (snd r))
              (escape_digits DecodeRune n base max exact 0 s2)).
  { intros n base max exact s2 [Hsrc2 Hle2].
    apply (settles_weaken _ _ _
             (escape_digits_progress n base max exact 0 s2)).
    intros [c s'] [Hsrc' Hle']; simpl in *.
    unfold forward; split; [congruence|lia]. }
  repeat match goal with
         | |- settles _ (if ?c then _ else _) => destruct c
         end;
    try apply Hsimple;
    try (apply Hdigits; unfold onward; split; [reflexivity|lia]);
    try exact I;
    (apply (settles_bind (onward s1)); [apply next_onward|]);
    intros s2 Hs2; now apply Hdigits.
Qed.

Lemma string_body_progress (fuel : nat) (begin q : Z) :
  forall (buf : list Z) (s : scanner),
    (remaining s + 1 <= fuel)%nat ->
    settles (fun r => onward s (snd r))
      (string_body DecodeRune EncodeRune fuel begin q buf s).
Proof.
  induction fuel as [|fuel IH]; intros buf s Hfuel; [lia|].
  simpl.
  destruct (Z.eqb_spec (ch s) 10) as [|Hnl]; [exact I|].
  destruct (Z.ltb_spec (ch s) 0) as [|Hpos]; simpl; [exact I|].
  assert (Hch : ch s <> -1) by lia.
  destruct (ch s =? q).
  - apply (settles_bind (onward s)); [apply next_onward|].
    intros s1 Hs1; exact Hs1.
  - destruct (ch s =? rune "\").
    + apply (settles_bind (fun r => forward s (snd r)));
        [now apply scanEscape_progress|].
      intros [r s1] [Hsrc Hlt]; simpl in *.
      apply (settles_weaken _ _ _ (IH (WriteRune EncodeRune buf r) s1
                                     ltac:(lia))).
      intros [b s'] [Hsrc' Hle']; simpl in *.
      unfold onward; split; [congruence|lia].
    + apply (settles_bind (forward s)); [now apply next_forward|].
      intros s1 [Hsrc Hlt].
      apply (settles_weaken _ _ _ (IH (WriteRune EncodeRune buf (ch s)) s1
                                     ltac:(lia))).
      intros [b s'] [Hsrc' Hle']; simpl in *.
      unfold onward; split; [congruence|lia].
Qed.

Lemma scanString_progress (fuel : nat) (s : scanner) :
  (remaining s + 1 <= fuel)%nat ->
  settles (fun r => forward s (snd r))
    (scanString DecodeRune EncodeRune fuel s).
Proof.
  intros Hfuel; unfold scanString.
  destruct (Z.eqb_spec (ch s) (rune "'")) as [Eq|Hq]; simpl.
  - apply (settles_bind (forward s));
      [apply next_forward; rewrite Eq; discriminate|].
    intros s1 [Hsrc Hlt].
    apply (settles_bind (fun r => onward s1 (snd r)));
      [apply string_body_progress; lia|].
    intros [buf s2] [Hsrc2 Hle2]; simpl in *.
    unfold forward; split; [congruence|lia].
  - destruct (Z.eqb_spec (ch s) double_quote) as [Eq|Hq']; simpl;
      [|exact I].
    apply (settles_bind (forward s));
      [apply next_forward; rewrite Eq; discriminate|].
    intros s1 [Hsrc Hlt].
    apply (settles_bind (fun r => onward s1 (snd r)));
      [apply string_body_progress; lia|].
    intros [buf s2] [Hsrc2 Hle2]; simpl in *.
    unfold forward; split; [congruence|lia].
Qed.

Lemma skipWhitespace_progress (fuel : nat) (s : scanner) :
  (remaining s <= fuel)%nat ->
  settles (onward s) (skipWhitespace DecodeRune fuel s).
Proof.
  intros Hfuel; unfold skipWhitespace.
  apply (settles_bind _ _ _ _
           (skip_while_progress is_space eq_refl fuel false s Hfuel)).
  intros [any s1] [Hs1 _]; exact Hs1.
Qed.

Lemma skipComment_progress (fuel : nat) (s : scanner) :
  (remaining s <= fuel)%nat -> ch s = rune "#" ->
  settles (forward s) (skipComment DecodeRune fuel s).
Proof.
  intros Hfuel Hch; unfold skipComment; rewrite Hch; simpl negb; cbv iota.
  apply (settles_bind _ _ _ _
           (skip_while_progress
              (fun c => negb (c =? 10) && negb (c =? -1)) eq_refl
              fuel false s Hfuel)).
  intros [any s1] [_ Hs1]; apply Hs1; rewrite Hch; reflexivity.
Qed.

Lemma scanIdentifier_progress (fuel : nat) (s : scanner) :
  (remaining s <= fuel)%nat ->
  isLetter IsLetter_above_ascii (ch s) || (ch s =? rune "_") = true ->
  settles (fun r => forward s (snd r))
    (scanIdentifier IsLetter_above_ascii IsDigit_above_ascii DecodeRune
       fuel s).
Proof.
  intros Hfuel Hch; unfold scanIdentifier.
  apply (settles_bind _ _ _ _
           (skip_while_progress
              (fun c => isLetter IsLetter_above_ascii c ||
                        isDigit IsDigit_above_ascii c || (c =? rune "_"))
              eq_refl fuel false s Hfuel)).
  intros [any s1] [_ Hs1]; simpl; apply Hs1.
  apply orb_true_iff in Hch; destruct Hch as [-> | ->];
    [reflexivity|now rewrite orb_true_r].
Qed.

Lemma scanNumber_progress (fuel : nat) (s : scanner) :
  (remaining s <= fuel)%nat ->
  settles (fun r => onward s (snd r) /\
                    (is_decimal (ch s) = true -> forward s (snd r)))
    (scanNumber DecodeRune fuel s).
Proof.
  intros Hfuel; unfold scanNumber.
  apply (settles_bind _ _ _ _
           (skip_while_progress is_decimal eq_refl fuel false s Hfuel)).
  intros [haveInteger s1] [[Hsrc1 Hle1] Hst1]; simpl in Hsrc1, Hle1, Hst1.
  apply (settles_bind (fun r => onward s1 (snd r))).
  { destruct (ch s1 =? rune ".");
      [|simpl; unfold onward; split; [reflexivity|lia]].
    apply (settles_bind (onward s1)); [apply next_onward|].
    intros s2 [Hsrc2 Hle2].
    apply (settles_bind _ _ _ _
             (skip_while_progress is_decimal eq_refl fuel false s2
                ltac:(lia))).
    intros [haveFraction s3] [[Hsrc3 Hle3] _]; simpl in Hsrc3, Hle3.
    destruct (negb haveInteger && negb haveFraction); [exact I|].
    simpl; unfold onward; split; [congruence|lia]. }
  intros [haveBase s4] [Hsrc4 Hle4]; simpl in Hsrc4, Hle4.
  apply (settles_bind (onward s4)).
  { destruct ((ch s4 =? rune "e") || (ch s4 =? rune "E"));
      [|simpl; unfold onward; split; [reflexivity|lia]].
    destruct (negb haveBase); [exact I|].
    apply (settles_bind (onward s4)); [apply next_onward|].
    intros s5 [Hsrc5 Hle5].
    apply (settles_bind (onward s5)).
    { destruct ((ch s5 =? rune "+") || (ch s5 =? rune "-"));
        [apply next_onward|simpl; unfold onward; split; [reflexivity|lia]]. }
    intros s6 [Hsrc6 Hle6].
    apply (settles_bind _ _ _ _
             (skip_while_progress is_decimal eq_refl fuel false s6
                ltac:(lia))).
    intros [haveExponent s7] [[Hsrc7 Hle7] _]; simpl in Hsrc7, Hle7.
    destruct (negb haveExponent); [exact I|].
    simpl; unfold onward; split; [congruence|lia]. }
  intros s8 [Hsrc8 Hle8]; simpl.
  split; [unfold onward; split; [congruence|lia]|].
  intros Hd; destruct (Hst1 Hd) as [_ Hlt].
  unfold forward; split; [congruence|lia].
Qed.

Lemma punctuation_token (c : Z) (tok : token) :
  punctuation c = Some tok -> tok <> illegal /\ (tok <> eof -> c <> -1).
Proof.
  unfold punctuation.
  repeat match goal with
         | |- context [?a =? ?b] =>
             destruct (Z.eqb_spec a b) as [->|?]
         end;
    intros E; try discriminate E; injection E as <-;
    split; try discriminate; try (intros _; discriminate).
  intros H; now elim H.
Qed.

(** One call of [scan], with a bound that covers what is left to read. *)
Lemma scan_progress (fuel : nat) :
  forall s : scanner,
    (remaining s + 1 <= fuel)%nat ->
    settles (fun r =>
               snd (fst (fst r)) <> illegal /\
               onward s (snd r) /\
               (snd (fst (fst r)) <> eof -> forward s (snd r)))
      (scan IsLetter_above_ascii IsDigit_above_ascii DecodeRune EncodeRune
         fuel s).
Proof.
  induction fuel as [|fuel IH]; intros s Hfuel; [lia|].
  cbn [scan].
  apply (settles_bind _ _ _ _
           (skipWhitespace_progress (S fuel) s ltac:(lia))).
  intros s1 [Hsrc1 Hle1].
  destruct (Z.eqb_spec (ch s1) (rune "#")) as [Ehash|_].
  { apply (settles_bind _ _ _ _
             (skipComment_progress (S fuel) s1 ltac:(lia) Ehash)).
    intros s2 [Hsrc2 Hlt2].
    apply (settles_weaken _ _ _ (IH s2 ltac:(lia))).
    intros [[[pos tok] lit] s3] (Htok & [Hsrc3 Hle3] & Hfw); simpl in *.
    split; [exact Htok|split].
    - unfold onward; split; [congruence|lia].
    - intros _; unfold forward; split; [congruence|lia]. }
  destruct (isLetter IsLetter_above_ascii (ch s1) || (ch s1 =? rune "_"))
    eqn:Eletter.
  { apply (settles_bind _ _ _ _
             (scanIdentifier_progress (S fuel) s1 ltac:(lia) Eletter)).
    intros [lit s2] [Hsrc2 Hlt2]; simpl in Hsrc2, Hlt2.
    assert (Hon : onward s s2 /\ forward s s2)
      by (unfold onward, forward; repeat split; try congruence; lia).
    destruct (String.eqb lit "null"); [|destruct (String.eqb lit "true");
      [|destruct (String.eqb lit "false")]];
      simpl; (split; [discriminate|split; [apply Hon|intros _; apply Hon]]). }
  destruct (between "0" (ch s1) "9") eqn:Edigit.
  { apply (settles_bind _ _ _ _
             (scanNumber_progress (S fuel) s1 ltac:(lia))).
    intros [lit s2] [_ Hst]; simpl in Hst.
    destruct (Hst Edigit) as [Hsrc2 Hlt2].
    simpl; split; [discriminate|].
    unfold onward, forward; repeat split; try congruence; lia. }
  destruct ((ch s1 =? rune "'") || (ch s1 =? double_quote)).
  { apply (settles_bind _ _ _ _
             (scanString_progress (S fuel) s1 ltac:(lia))).
    intros [lit s2] [Hsrc2 Hlt2]; simpl in Hsrc2, Hlt2.
    simpl; split; [discriminate|].
    unfold onward, forward; repeat split; try congruence; lia. }
  apply (settles_bind _ _ _ _ (next_progress s1)).
  intros s2 [[Hsrc2 Hle2] Hst2].
  destruct (Z.eqb_spec (ch s1) (rune ".")) as [Edot|_].
  { assert (Hlt2 : (remaining s2 < remaining s1)%nat)
      by (apply Hst2; rewrite Edot; discriminate).
    destruct (between "0" (ch s2) "9").
    - apply (settles_bind _ _ _ _
               (scanNumber_progress (S fuel) s2 ltac:(lia))).
      intros [lit s3] [[Hsrc3 Hle3] _]; simpl in Hsrc3, Hle3.
      simpl; split; [discriminate|].
      unfold onward, forward; repeat split; try congruence; lia.
    - destruct (ch s2 =? rune ".").
      + apply (settles_bind _ _ _ _ (next_onward s2)).
        intros s3 [Hsrc3 Hle3].
        simpl; split; [discriminate|].
        unfold onward, forward; repeat split; try congruence; lia.
      + simpl; split; [discriminate|].
        unfold onward, forward; repeat split; try congruence; lia. }
  destruct (punctuation (ch s1)) as [tok|] eqn:Epunct; [|exact I].
  destruct (punctuation_token _ _ Epunct) as [Hill Heof].
  simpl; split; [exact Hill|split].
  - unfold onward; split; [congruence|lia].
  - intros Htok; destruct (Hst2 (Heof Htok)) as [_ Hlt2].
    unfold forward; split; [congruence|lia].
Qed.

End ScanProgress.

(** X21: one call of [scan] always answers: given a bound that covers what
    is left of the source, and a [utf8.DecodeRune] that reports a width of
    at least one byte on every slice that is not empty, it returns a token
    or raises a scan error.  The token is never [illegal], the scanner
    stays on the same source and never moves back, and unless the token is
    [eof] it has moved on, so that repeated calls reach the end of the
    source. *)
Theorem scan_answers (IsLetter_above_ascii IsDigit_above_ascii : Z -> bool)
    (DecodeRune : string -> Z * Z) (EncodeRune : Z -> list Z)
    (fuel : nat) (s : Scanner.scanner) :
  (forall text, text <> "" -> 1 <= snd (DecodeRune text)) ->
  (remaining s + 1 <= fuel)%nat ->
  settles (fun r =>
             let '(pos, tok, lit, s') := r in
             tok <> Scanner.illegal /\
             Scanner.src s' = Scanner.src s /\
             (remaining s' <= remaining s)%nat /\
             (tok <> Scanner.eof -> (remaining s' < remaining s)%nat))
    (Scanner.scan IsLetter_above_ascii IsDigit_above_ascii DecodeRune
       EncodeRune fuel s).
Proof.
  intros Hwidth Hfuel.
  pose proof (scan_progress IsLetter_above_ascii IsDigit_above_ascii
                DecodeRune EncodeRune Hwidth fuel s Hfuel) as H.
  destruct (Scanner.scan _ _ _ _ fuel s) as [[[[pos tok] lit] s']| | |];
    simpl in *; try exact H.
  destruct H as (Htok & [Hsrc Hle] & Hfw).
  repeat split; try assumption.
  intros Hne; apply (Hfw Hne).
Qed.

(** The stand-in has the width of the library: 0 on the empty slice only. *)
Lemma short_DecodeRune_width (text : string) :
  text <> "" -> 1 <= snd (short_DecodeRune text).
Proof.
  destruct text as [|c0 rest]; [intros H; now elim H|intros _].
  unfold short_DecodeRune.
  destruct (Scanner.rune c0 <? Scanner.RuneSelf); [simpl; lia|].
  destruct rest as [|c1 rest]; [simpl; lia|].
  destruct ((0xC2 <=? Scanner.rune c0) && (Scanner.rune c0 <=? 0xDF) &&
            (0x80 <=? Scanner.rune c1) && (Scanner.rune c1 <=? 0xBF));
    simpl; lia.
Qed.

Lemma scan_answers_witness :
  let source := String "195" (String "169" ".") in
  let s := Scanner.at_offset source 32 0 0 in
  short_DecodeRune "" = (Scanner.RuneError, 0) /\
  Scanner.scan latin1_IsLetter ascii_IsDigit short_DecodeRune
    ascii_EncodeRune 5 s =
  Scanner.Done (0, Scanner.identifier, String "195" (String "169" ""),
                Scanner.at_offset source 46 2 3) /\
  settles (fun r =>
             let '(pos, tok, lit, s') := r in
             tok <> Scanner.illegal /\
             Scanner.src s' = Scanner.src s /\
             (remaining s' <= remaining s)%nat /\
             (tok <> Scanner.eof -> (remaining s' < remaining s)%nat))
    (Scanner.scan latin1_IsLetter ascii_IsDigit short_DecodeRune
       ascii_EncodeRune 5 s).
Proof.
  intros source s.
  split; [reflexivity|split; [reflexivity|]].
  apply scan_answers.
  - exact short_DecodeRune_width.
  - vm_compute; lia.
Defined.

(** ** [Compile] and the first character *)

Section CompileStart.

Import Scanner Strconv Parser.

Variable IsLetter_above_ascii : Z -> bool.
Variable IsDigit_above_ascii : Z -> bool.
Variable DecodeRune : string -> Z * Z.
Variable EncodeRune : Z -> list Z.
Variable ParseFloat : string -> float * option num_error.
Variable math_Mod : float -> float -> float.
Variable int_indefinite : float -> Z.
Variable MapError : (Value -> res Value) -> Filter.
Variable Nary : list Filter -> (list Value -> res (list Value)) -> Filter.

Let Compile_ :=
  Compile IsLetter_above_ascii IsDigit_above_ascii DecodeRune EncodeRune
    ParseFloat math_Mod int_indefinite MapError Nary.
Let scan_ :=
  scan IsLetter_above_ascii IsDigit_above_ascii DecodeRune EncodeRune.

Lemma Compile_newScanner_raises (sf fuel : nat) (source : string)
    (offset : Z) (msg : message) :
  newScanner DecodeRune source = Raise offset msg ->
  Compile_ sf fuel source = CompilePanic offset msg.
Proof.
  intros H; unfold Compile_, Compile; now rewrite H.
Qed.

Lemma Compile_first_scan_raises (sf fuel : nat) (source : string)
    (s : scanner) (offset : Z) (msg : message) :
  newScanner DecodeRune source = Done s ->
  scan_ sf s = Raise offset msg ->
  Compile_ sf fuel source = CompileError offset msg.
Proof.
  intros Hs Hscan; unfold Compile_, Compile; rewrite Hs.
  unfold newParser; fold scan_; rewrite Hscan; reflexivity.
Qed.

Lemma Compile_empty (sf fuel : nat) :
  Compile_ (S sf) fuel "" = Compiled Jq.id.
Proof. reflexivity. Qed.

Lemma newScanner_NUL (rest : string) :
  newScanner DecodeRune (String "000" rest) = Raise 0 IllegalNUL.
Proof.
  unfold newScanner, next, srclen; simpl src; simpl rdOffset.
  destruct (Z.ltb_spec 0 (Z.of_nat (String.length (String "000" rest))))
    as [_|H]; [reflexivity|simpl in H; lia].
Qed.

End CompileStart.

(** X22: an error of the scanner on the first token is returned by
    [Compile] as its error, but an error on the first character is not:
    [newScanner] reads it before the deferred [recover] is in place, so a
    program that starts with a NUL byte makes [Compile] panic with
    "illegal character NUL".  The empty program compiles to the identity
    filter. *)
Theorem Compile_first_character
    (IsLetter_above_ascii IsDigit_above_ascii : Z -> bool)
    (DecodeRune : string -> Z * Z) (EncodeRune : Z -> list Z)
    (ParseFloat : string -> float * option Strconv.num_error)
    (math_Mod : float -> float -> float) (int_indefinite : float -> Z)
    (MapError : (Value -> res Value) -> Filter)
    (Nary : list Filter -> (list Value -> res (list Value)) -> Filter)
    (sf fuel : nat) :
  let Compile_ :=
    Parser.Compile IsLetter_above_ascii IsDigit_above_ascii DecodeRune
      EncodeRune ParseFloat math_Mod int_indefinite MapError Nary in
  (forall rest,
      Compile_ sf fuel (String "000" rest) =
      Parser.CompilePanic 0 Scanner.IllegalNUL) /\
  (forall source offset msg,
      Scanner.newScanner DecodeRune source = Scanner.Raise offset msg ->
      Compile_ sf fuel source = Parser.CompilePanic offset msg) /\
  (forall source s offset msg,
      Scanner.newScanner DecodeRune source = Scanner.Done s ->
      Scanner.scan IsLetter_above_ascii IsDigit_above_ascii DecodeRune
        EncodeRune sf s = Scanner.Raise offset msg ->
      Compile_ sf fuel source = Parser.CompileError offset msg) /\
  Compile_ (S sf) fuel "" = Parser.Compiled Jq.id.
Proof.
  intros Compile_; split; [|split; [|split]].
  - intros rest; apply Compile_newScanner_raises, newScanner_NUL.
  - intros source offset msg; apply Compile_newScanner_raises.
  - intros source s offset msg; apply Compile_first_scan_raises.
  - apply Compile_empty.
Qed.

Lemma Compile_first_character_witness :
  let Compile_ :=
    Parser.Compile ascii_IsLetter ascii_IsDigit ascii_DecodeRune
      ascii_EncodeRune Strconv.ParseFloat unused_Mod amd64_int_indefinite
      MapError Nary in
  Compile_ 3%nat 3%nat "@" =
    Parser.CompileError 0 (Scanner.IllegalCharacter 64) /\
  Compile_ 3%nat 3%nat (String "128" "") =
    Parser.CompilePanic 0 Scanner.IllegalUTF8.
Proof.
  intros Compile_.
  destruct (Compile_first_character ascii_IsLetter ascii_IsDigit
              ascii_DecodeRune ascii_EncodeRune Strconv.ParseFloat
              unused_Mod amd64_int_indefinite MapError Nary 3 3)
    as (_ & Hpanic & Herror & _).
  split.
  - apply (Herror "@" (Scanner.at_offset "@" 64 0 1)); reflexivity.
  - apply Hpanic; reflexivity.
Defined.

(** ** Two ways to read a field *)

(** X23: the field access [.k] and the index [.[k]] with the Text [k] as
    key return the same on an Object and on Null: the value of the key,
    or Null.  On every other input they part: [.k] returns Null, and the
    index is an error, "cannot index array with value" on an Array and
    "cannot index value" otherwise. *)
Theorem attrLit_and_index (int_indefinite : float -> Z) (k : string)
    (v : Value) :
  let key := stringType k in
  match category_of v with
  | Object | Null =>
      Jq.attrLit k true v = Jq.index int_indefinite v key /\
      exists value, Jq.attrLit k true v = Ok [value]
  | Array =>
      Jq.attrLit k true v = Ok [nullType] /\
      Jq.index int_indefinite v key = Error (ErrCannotIndexArray key)
  | Bool | Number | Text =>
      Jq.attrLit k true v = Ok [nullType] /\
      Jq.index int_indefinite v key = Error (ErrCannotIndexValue v key)
  end.
Proof.
  destruct v as [| | | |a|ix]; simpl; try (split; reflexivity).
  - split; [reflexivity|eexists; reflexivity].
  - unfold Jq.attrLit, Jq.index, GetStringAttr, GetAttr.
    destruct (Attr a (stringType k)) as [value|]; simpl;
      (split; [reflexivity|eexists; reflexivity]).
Qed.

(** ** Escape sequences *)

Section Escapes.

Import Scanner.

Variable DecodeRune : string -> Z * Z.

Lemma hexDigit_range (c h : Z) : hexDigit c = Some h -> 0 <= h < 16.
Proof.
  unfold hexDigit, between.
  repeat match goal with
         | |- context [?a <=? ?b] => destruct (Z.leb_spec a b)
         end; simpl; intros E; try discriminate E; injection E as <-;
    change (rune "0") with 48 in *; change (rune "9") with 57 in *;
    change (rune "A") with 65 in *; change (rune "F") with 70 in *;
    change (rune "a") with 97 in *; change (rune "f") with 102 in *; lia.
Qed.

Lemma escape_digits_range (n : nat) (base max : Z) (exact : bool) :
  0 <= base ->
  forall (code : Z) (s : scanner) (r : Z) (s' : scanner),
    0 <= code <= max ->
    escape_digits DecodeRune n base max exact code s = Done (r, s') ->
    0 <= r <= max.
Proof.
  intros Hbase; induction n as [|n IH]; intros code s r s' Hcode; simpl.
  - intros E; injection E as <- _; exact Hcode.
  - destruct (hexDigit (ch s)) as [h|] eqn:Eh.
    + pose proof (hexDigit_range _ _ Eh) as Hh.
      destruct (Z.geb_spec h base) as [|Hlt]; simpl.
      * destruct exact; [discriminate|].
        intros E; injection E as <- _; exact Hcode.
      * rewrite Z.gtb_ltb.
        destruct (Z.ltb_spec max (code * base + h)) as [|Hle].
        -- destruct exact; [discriminate|].
           intros E; injection E as <- _; exact Hcode.
        -- destruct (next DecodeRune s) as [s1| | |]; simpl;
             try discriminate.
           apply IH; nia.
    + destruct exact; [discriminate|].
      intros E; injection E as <- _; exact Hcode.
Qed.

Lemma scanEscape_range (s : scanner) (r : Z) (s' : scanner) :
  scanEscape DecodeRune s = Done (r, s') -> 0 <= r <= 0xFFFF.
Proof.
  unfold scanEscape.
  destruct (next DecodeRune s) as [s1| | |]; simpl; try discriminate.
  assert (Hsimple : forall c : Z,
            0 <= c <= 0xFFFF ->
            fbind (next DecodeRune s1) (fun s2 => Done (c, s2)) =
            Done (r, s') -> 0 <= r <= 0xFFFF).
  { intros c Hc.
    destruct (next DecodeRune s1) as [s2| | |]; simpl; try discriminate.
    intros E; injection E as <- _; exact Hc. }
  assert (Hdigits : forall n base max s2,
            0 <= base -> 0 <= max <= 0xFFFF ->
            escape_digits DecodeRune n base max
              (match n with 3%nat => false | _ => true end) 0 s2 =
            Done (r, s') -> 0 <= r <= 0xFFFF).
  { intros n base max s2 Hbase Hmax E.
    apply escape_digits_range in E; lia. }
  destruct ((ch s1 =? rune "'") || (ch s1 =? double_quote) ||
            (ch s1 =? rune "\")) eqn:Equote.
  { apply Hsimple.
    apply orb_true_iff in Equote; destruct Equote as [Equote|Equote];
      [apply orb_true_iff in Equote; destruct Equote as [Equote|Equote]|];
      apply Z.eqb_eq in Equote; rewrite Equote; vm_compute;
      split; discriminate. }
  repeat match goal with
         | |- (if ?c then _ else _) = _ -> _ =>
             destruct c; [apply Hsimple; lia|]
         end.
  destruct (between "0" (ch s1) "7");
    [apply (Hdigits 3%nat 8 0xFF); lia|].
  destruct (ch s1 =? rune "u").
  { destruct (next DecodeRune s1) as [s2| | |]; simpl; try discriminate.
    apply (Hdigits 4%nat 16 0xFFFF); lia. }
  destruct (ch s1 =? rune "x"); [|discriminate].
  destruct (next DecodeRune s1) as [s2| | |]; simpl; try discriminate.
  apply (Hdigits 2%nat 16 0xFF); lia.
Qed.

End Escapes.

(** X24: an escape sequence in a string literal never denotes a rune
    outside [0, 0xFFFF]: whenever [scanEscape] returns, the rune it has
    read is in that range, because the loop over the digits stops before
    the code would exceed the maximum of its kind (0xFF for octal and
    [\x] escapes, 0xFFFF for [\u]).  A digit read by [hexDigit] is below
    16. *)
Theorem scanEscape_in_range (DecodeRune : string -> Z * Z)
    (s s' : Scanner.scanner) (r : Z) :
  (Scanner.scanEscape DecodeRune s = Scanner.Done (r, s') ->
   0 <= r <= 0xFFFF) /\
  (forall c h, Scanner.hexDigit c = Some h -> 0 <= h < 16) /\
  (forall n base max exact code,
      0 <= base -> 0 <= code <= max ->
      Scanner.escape_digits DecodeRune n base max exact code s =
        Scanner.Done (r, s') ->
      0 <= r <= max).
Proof.
  split; [apply scanEscape_range|split; [apply hexDigit_range|]].
  intros n base max exact code Hbase Hcode.
  now apply escape_digits_range.
Qed.

Lemma scanEscape_in_range_witness :
  let s := Scanner.at_offset "\xff." 92 0 1 in
  let s3 := Scanner.at_offset "\377" 51 1 2 in
  (Scanner.scanEscape ascii_DecodeRune s =
     Scanner.Done (0xFF, Scanner.at_offset "\xff." 46 4 5) /\
   0 <= 0xFF <= 0xFFFF) /\
  (Scanner.hexDigit 97 = Some 10 /\ 0 <= 10 < 16) /\
  (Scanner.escape_digits ascii_DecodeRune 2 8 0xFF false 0 s3 =
     Scanner.Done (0x1F, Scanner.at_offset "\377" 55 3 4) /\
   0 <= 0x1F <= 0xFF).
Proof.
  intros s s3.
  destruct (scanEscape_in_range ascii_DecodeRune s
              (Scanner.at_offset "\xff." 46 4 5) 0xFF) as (Hesc & Hhex & _).
  destruct (scanEscape_in_range ascii_DecodeRune s3
              (Scanner.at_offset "\377" 55 3 4) 0x1F) as (_ & _ & Hdig).
  split; [|split]; (split; [reflexivity|]).
  - apply Hesc; reflexivity.
  - apply (Hhex 97); reflexivity.
  - apply (Hdig 2%nat 8 0xFF false 0); [lia|lia|reflexivity].
Defined.
